(** * keg/cdn.py: the content-addressed fetch and cache layer

    A shallow embedding of [keg/cdn.py]: the logical path scheme, the
    [BaseCDN] fetch operations with their verification policy, the remote
    path join of [RemoteCDN], the on-disk [LocalCDN] and the
    [HTTPCacheWrapper] that stages a download next to its target and renames
    it into place.

    Python strings are [string], byte strings are [list byte], [int] is [Z].
    Code that raises is a computation in a state-and-exception monad over the
    file system; the state survives an exception, as it does in Python. *)

From Stdlib Require Import ZArith Ascii String List Lia.
From Stdlib.Strings Require Import Byte.
From stdpp Require Import base option list gmap strings fin_maps.

Local Open Scope string_scope.
Local Open Scope list_scope.

(** ** Python string primitives used by the module *)

Module Str.

Definition sep : ascii := "/"%char.

Definition is_sep (a : ascii) : bool := Ascii.eqb a sep.

(** [s.lstrip("/")]: every leading separator is removed. *)
Fixpoint lstrip (s : string) : string :=
  match s with
  | String a s' => if is_sep a then lstrip s' else s
  | EmptyString => EmptyString
  end.

(** [s.startswith("/")] *)
Definition startswith_sep (s : string) : bool :=
  match s with
  | String a _ => is_sep a
  | EmptyString => false
  end.

(** [s.endswith("/")] *)
Fixpoint endswith_sep (s : string) : bool :=
  match s with
  | EmptyString => false
  | String a EmptyString => is_sep a
  | String _ s' => endswith_sep s'
  end.

(** [s.split("/")]: never empty, [""] for the empty string. *)
Fixpoint split (s : string) : list string :=
  match s with
  | EmptyString => [EmptyString]
  | String a s' =>
      if is_sep a then EmptyString :: split s'
      else match split s' with
           | h :: t => String a h :: t
           | [] => [String a EmptyString]
           end
  end.

(** ["/".join(l)] *)
Fixpoint join (l : list string) : string :=
  match l with
  | [] => EmptyString
  | [x] => x
  | x :: l' => x +:+ String sep (join l')
  end.

(** [s == "/" * len(s)] *)
Fixpoint all_sep (s : string) : bool :=
  match s with
  | EmptyString => true
  | String a s' => is_sep a && all_sep s'
  end.

Definition is_empty (s : string) : bool :=
  match s with EmptyString => true | _ => false end.

(** ["/" not in s] *)
Fixpoint no_sep (s : string) : bool :=
  match s with
  | EmptyString => true
  | String a s' => negb (is_sep a) && no_sep s'
  end.

Definition rev (s : string) : string :=
  string_of_list_ascii (List.rev (list_ascii_of_string s)).

(** [s.rstrip("/")] *)
Definition rstrip (s : string) : string := rev (lstrip (rev s)).

End Str.

(** ** [urllib.parse.urljoin] on plain paths

    The module joins path strings with the standard library's [urljoin].
    The definition below is CPython's [urljoin], with the resolution of
    RFC 3986 that it has had since Python 3.5, on arguments that parse to a
    bare path: no scheme, no network location (no leading
    ["//"]), no [";"] parameters, no ["?"] query and no ["#"] fragment.  On
    such arguments the library takes the branch that resolves the relative
    path against the segments of the base path. *)

Module Urllib.

(** [segments[1:-1] = filter(None, segments[1:-1])] *)
Definition filter_middle (segments : list string) : list string :=
  match segments with
  | [] => []
  | h :: t =>
      match t with
      | [] => [h]
      | _ => h :: List.filter (fun s => negb (Str.is_empty s)) (removelast t)
               ++ [List.last t EmptyString]
      end
  end.

(** The loop over [segments] that builds [resolved_path]. *)
Fixpoint resolve (segments resolved_path : list string) : list string :=
  match segments with
  | [] => resolved_path
  | seg :: rest =>
      if String.eqb seg ".." then resolve rest (removelast resolved_path)
      else if String.eqb seg "." then resolve rest resolved_path
      else resolve rest (resolved_path ++ [seg])
  end.

Definition urljoin (base url : string) : string :=
  if Str.is_empty base then url
  else if Str.is_empty url then base
  else
    let base_parts := Str.split base in
    let base_parts :=
      if Str.is_empty (List.last base_parts EmptyString) then base_parts
      else removelast base_parts in
    let segments :=
      if Str.startswith_sep url then Str.split url
      else filter_middle (base_parts ++ Str.split url) in
    let resolved_path := resolve segments [] in
    let last_seg := List.last segments EmptyString in
    let resolved_path :=
      if String.eqb last_seg "." || String.eqb last_seg ".."
      then resolved_path ++ [EmptyString] else resolved_path in
    let joined := Str.join resolved_path in
    if Str.is_empty joined then "/" else joined.

End Urllib.

(** ** RemoteCDN *)

Module RemoteCDN.

Record t : Type := {
  server : string;
  path : string;
  config_path : string;
  with_tqdm : bool
}.

(** [_join_path]: the base gets a trailing separator, the path loses its
    leading ones, and the two go through [urljoin]. *)
Definition _join_path (self : t) (base_path path : string) : string :=
  Urllib.urljoin (base_path +:+ "/") (Str.lstrip path).

End RemoteCDN.

(** A character that the URL parser behind [urljoin] leaves in the path:
    not a separator, none of the delimiters of scheme, parameters, query
    and fragment, and neither a space nor a control character. *)
Definition plain_char (a : ascii) : bool :=
  negb (Str.is_sep a) && negb (Ascii.eqb a ":") && negb (Ascii.eqb a ";")
  && negb (Ascii.eqb a "?") && negb (Ascii.eqb a "#")
  && (32 <? nat_of_ascii a)%nat.

(** A path segment that [urljoin] takes as it is: not empty, made of plain
    characters, and neither ["."] nor [".."]. *)
Definition plain_segment (s : string) : bool :=
  forallb plain_char (list_ascii_of_string s)
  && negb (Str.is_empty s)
  && negb (String.eqb s ".") && negb (String.eqb s "..").

Definition hs_mirror : RemoteCDN.t :=
  {| RemoteCDN.server := "http://level3.blizzard.com";
     RemoteCDN.path := "/tpr/hs";
     RemoteCDN.config_path := "tpr/configs/data";
     RemoteCDN.with_tqdm := true |}.

(** ** Exceptions and the monad of the module

    [Diverged] is not a Python exception: it is what a loop of the model
    returns if it is run with too little fuel.  The loops are given enough
    ([drain_no_diverge], [copy_chunks_no_diverge],
    [makedirs_rec_no_diverge]), so no operation of the module returns it. *)

Inductive exn : Type :=
| NotImplementedError
| ValueError (msg : string)
| IntegrityError (object_name key : string)
| NetworkError (msg : string)
| ArmadilloKeyNotFound (key_name : string)
| FileNotFoundError (path : string)
| FileExistsError (path : string)
| IsADirectoryError (path : string)
| NotADirectoryError (path : string)
| OSError (msg : string)
| Diverged.

Inductive result (A : Type) : Type :=
| Ok (a : A)
| Raise (e : exn).
Arguments Ok {A} a.
Arguments Raise {A} e.

(** A computation over a world [W]: the world after the call is returned
    also when the call raises. *)
Definition M (W A : Type) : Type := W -> result A * W.

Definition ret {W A} (a : A) : M W A := fun w => (Ok a, w).

Definition raise {W A} (e : exn) : M W A := fun w => (Raise e, w).

Definition bind {W A B} (m : M W A) (k : A -> M W B) : M W B :=
  fun w =>
    match m w with
    | (Ok a, w') => k a w'
    | (Raise e, w') => (Raise e, w')
    end.

Definition lift {W A} (r : result A) : M W A := fun w => (r, w).

Notation "'let*' x ':=' m 'in' k" := (bind m (fun x => k))
  (at level 10, x pattern, m at level 100, k at level 200).
Notation "m '>>' k" := (bind m (fun _ => k))
  (at level 65, right associativity).

Definition is_integrity_error (e : exn) : bool :=
  match e with IntegrityError _ _ => true | _ => false end.

(** ** Readable streams ([IO] objects opened for reading)

    [pending] is what the stream has still to deliver.  [fault = Some n]
    is a stream whose next [n] calls to [read] succeed and whose call after
    those raises; [None] is a stream that never raises. *)

Record Reader : Type := {
  pending : list byte;
  fault : option nat
}.

(** [fp.read(size)]; [fp.read()] is [fp.read(-1)].  A negative size reads
    to the end of the stream, a size of zero reads nothing. *)
Definition Reader_read (fp : Reader) (size : Z) : result (list byte * Reader) :=
  match fault fp with
  | Some O => Raise (OSError "read failed")
  | _ =>
      let n := if (size <? 0)%Z then length (pending fp) else Z.to_nat size in
      Ok (take n (pending fp),
          {| pending := drop n (pending fp); fault := Nat.pred <$> fault fp |})
  end.

Definition BytesIO (data : list byte) : Reader :=
  {| pending := data; fault := None |}.

(** [data[start:]] for a Python sequence. *)
Definition slice_from {A} (start : Z) (data : list A) : list A :=
  let len := Z.of_nat (length data) in
  let start := if (start <? 0)%Z then (start + len)%Z else start in
  let start := if (start <? 0)%Z then 0%Z else start in
  drop (Z.to_nat start) data.

(** ** The file system

    The operating system is outside the module; this is the model of it the
    module runs on.  A path names a location: whether it is anchored at the
    root, and its non-empty components (so ["a//b"], ["a/b"] and ["a/b/"]
    name one location).  The root and the working directory always exist.
    A disk maps the other locations that exist to a directory or to a
    regular file with its bytes.  A call resolves its path component by
    component, as the kernel does, and raises the exception Python raises
    for the first thing that is in the way.

    What the model leaves out, and what statements must therefore assume:
    - the components ["."] and [".."] and links are not interpreted, and an
      anchored path never leads to the working directory, so two paths are
      known to name different files only when they are [apart] (below);
    - a file object has no write buffer: the model says what a file holds
      once the file object has been flushed or closed, and nothing reliable
      about a file that is still open for writing;
    - a file open for writing is named by its location, so a second writer
      on a path whose first writer is still open is not modelled;
    - [rename] moves regular files only. *)

Module Os.

Inductive Node : Type :=
| Dir
| File (content : list byte).

Abbreviation Loc := (bool * list string)%type.
Abbreviation Disk := (gmap (bool * list string) Node).

Definition components (p : string) : list string :=
  List.filter (fun c => negb (Str.is_empty c)) (Str.split p).

Definition locate (p : string) : Loc := (Str.startswith_sep p, components p).

Definition node_at (d : Disk) (k : Loc) : option Node :=
  match snd k with
  | [] => Some Dir
  | _ => d !! k
  end.

(** The bytes of the regular file at a path, if there is one. *)
Definition file_at (d : Disk) (p : string) : option (list byte) :=
  match node_at d (locate p) with
  | Some (File c) => Some c
  | _ => None
  end.

(** The string up to and including the last separator, and the rest:
    [p[:i], p[i:]] with [i = p.rfind("/") + 1]. *)
Fixpoint cut_last_sep (p : string) : string * string :=
  match p with
  | EmptyString => (EmptyString, EmptyString)
  | String a p' =>
      let '(h, t) := cut_last_sep p' in
      if Str.is_sep a then (String a h, t)
      else if Str.is_empty h then (EmptyString, String a t)
      else (String a h, t)
  end.

(** [os.path.split] *)
Definition path_split (p : string) : string * string :=
  let '(head, tail) := cut_last_sep p in
  let head :=
    if negb (Str.is_empty head) && negb (Str.all_sep head)
    then Str.rstrip head else head in
  (head, tail).

(** [os.path.dirname] *)
Definition path_dirname (p : string) : string := fst (path_split p).

(** [os.path.join(a, b)] *)
Definition path_join (a b : string) : string :=
  if Str.startswith_sep b then b
  else if Str.is_empty a || Str.endswith_sep a then a +:+ b
  else a +:+ "/" +:+ b.

(** The directories a path goes through: every proper prefix of its
    components must be a directory.  The first that is missing or is a
    regular file decides the error. *)
Fixpoint through (d : Disk) (a : bool) (pre cs : list string) (p : string)
  : result unit :=
  match cs with
  | [] => Ok tt
  | [_] => Ok tt
  | c :: cs' =>
      match d !! (a, pre ++ [c]) with
      | Some Dir => through d a (pre ++ [c]) cs' p
      | Some (File _) => Raise (NotADirectoryError p)
      | None => Raise (FileNotFoundError p)
      end
  end.

Definition reach (d : Disk) (p : string) : result unit :=
  if Str.is_empty p then Raise (FileNotFoundError p)
  else through d (Str.startswith_sep p) [] (components p) p.

(** [os.path.exists] *)
Definition path_exists (p : string) : M Disk bool :=
  fun d =>
    match reach d p with
    | Raise _ => (Ok false, d)
    | Ok _ =>
        match node_at d (locate p) with
        | Some Dir => (Ok true, d)
        | Some (File _) => (Ok (negb (Str.endswith_sep p)), d)
        | None => (Ok false, d)
        end
    end.

(** [os.mkdir] *)
Definition mkdir (p : string) : M Disk unit :=
  fun d =>
    match reach d p with
    | Raise e => (Raise e, d)
    | Ok _ =>
        match node_at d (locate p) with
        | Some _ => (Raise (FileExistsError p), d)
        | None => (Ok tt, <[locate p := Dir]> d)
        end
    end.

(** [os.makedirs(name)] with [exist_ok=False].  The recursion is on the
    head of the name, which is shorter than the name; [fuel] bounds it. *)
Fixpoint makedirs_rec (fuel : nat) (name : string) : M Disk unit :=
  match fuel with
  | O => raise Diverged
  | S fuel' =>
      let '(head, tail) := path_split name in
      let '(head, tail) :=
        if Str.is_empty tail then path_split head else (head, tail) in
      let* stop :=
        (if negb (Str.is_empty head) && negb (Str.is_empty tail) then
           let* e := path_exists head in
           if e then ret false
           else
             (fun d =>
                match makedirs_rec fuel' head d with
                | (Raise (FileExistsError _), d') => (Ok tt, d')
                | r => r
                end) >>
             ret (String.eqb tail ".")
         else ret false) in
      if stop then ret tt else mkdir name
  end.

Definition makedirs (name : string) : M Disk unit :=
  makedirs_rec (S (String.length name)) name.

(** A file open for writing is named by the location it was opened at: a
    writer of the module renames its file only after its last write.  (Two
    writers open on one path at the same time are outside the model.) *)
Record Writer : Type := { wloc : Loc }.

(** [open(p, "wb")]: the file is created, or truncated if it exists. *)
Definition open_wb (p : string) : M Disk Writer :=
  fun d =>
    match reach d p with
    | Raise e => (Raise e, d)
    | Ok _ =>
        if Str.endswith_sep p then (Raise (IsADirectoryError p), d)
        else match node_at d (locate p) with
             | Some Dir => (Raise (IsADirectoryError p), d)
             | _ => (Ok {| wloc := locate p |}, <[locate p := File []]> d)
             end
    end.

Definition append (b : list byte) (n : Node) : Node :=
  match n with
  | File c => File (c ++ b)
  | Dir => Dir
  end.

(** [f.write(b)].  The bytes are appended to the file at once; the real
    file object keeps them in its buffer until it is flushed or closed. *)
Definition write (f : Writer) (b : list byte) : M Disk unit :=
  fun d => (Ok tt, alter (append b) (wloc f) d).

(** [open(p, "rb")] *)
Definition open_rb (p : string) : M Disk Reader :=
  fun d =>
    match reach d p with
    | Raise e => (Raise e, d)
    | Ok _ =>
        match node_at d (locate p) with
        | Some (File c) =>
            if Str.endswith_sep p then (Raise (NotADirectoryError p), d)
            else (Ok (BytesIO c), d)
        | Some Dir => (Raise (IsADirectoryError p), d)
        | None => (Raise (FileNotFoundError p), d)
        end
    end.

(** [inside k k']: the location [k'] lies in the directory [k]. *)
Fixpoint is_prefix (l l' : list string) : bool :=
  match l, l' with
  | [], _ => true
  | x :: l, y :: l' => String.eqb x y && is_prefix l l'
  | _ :: _, [] => false
  end.

Definition inside (k k' : Loc) : bool :=
  Bool.eqb (fst k) (fst k') && is_prefix (snd k) (snd k').

(** [os.rename(src, dst)] of a regular file.  Renaming a directory is not
    modelled: where [os.rename] would move a directory the model raises,
    with the disk unchanged.  Statements about what [rename] has done when
    it returns take a regular file as the source. *)
Definition rename (src dst : string) : M Disk unit :=
  fun d =>
    match reach d src with
    | Raise e => (Raise e, d)
    | Ok _ =>
        match reach d dst with
        | Raise e => (Raise e, d)
        | Ok _ =>
            match node_at d (locate src) with
            | None => (Raise (FileNotFoundError src), d)
            | Some Dir => (Raise (OSError "rename of a directory"), d)
            | Some (File c) =>
                if Str.endswith_sep src || Str.endswith_sep dst
                then (Raise (NotADirectoryError dst), d)
                else match node_at d (locate dst) with
                     | Some Dir =>
                         if inside (locate dst) (locate src)
                         then (Raise (OSError "Directory not empty"), d)
                         else (Raise (IsADirectoryError dst), d)
                     | _ =>
                         (Ok tt,
                          <[locate dst := File c]> (delete (locate src) d))
                     end
            end
        end
    end.

(** [plain_path p]: no component of [p] is ["."] or [".."], the two names
    the model does not interpret. *)
Definition plain_path (p : string) : bool :=
  forallb (fun c => negb (String.eqb c ".") && negb (String.eqb c ".."))
    (components p).

(** [apart p q]: [p] and [q] are plain paths, both anchored or both
    relative, with different locations.  On a file system without links
    such paths name different files; [locate p <> locate q] alone does not
    say so (["a/./b"] and ["a/b"] are one file at two locations). *)
Definition apart (p q : string) : Prop :=
  plain_path p = true /\ plain_path q = true
  /\ Str.startswith_sep p = Str.startswith_sep q
  /\ locate p <> locate q.

(** [all_dirs d a pre cs]: going from [pre] along [cs], every location is
    a directory. *)
Fixpoint all_dirs (d : Disk) (a : bool) (pre cs : list string) : bool :=
  match cs with
  | [] => true
  | c :: cs' =>
      match d !! (a, pre ++ [c]) with
      | Some Dir => all_dirs d a (pre ++ [c]) cs'
      | _ => false
      end
  end.

(** [absent_from d a pre cs]: going from [pre] along [cs], nothing exists. *)
Fixpoint absent_from (d : Disk) (a : bool) (pre cs : list string) : bool :=
  match cs with
  | [] => true
  | c :: cs' =>
      match d !! (a, pre ++ [c]) with
      | None => absent_from d a (pre ++ [c]) cs'
      | _ => false
      end
  end.

(** [clear_way d a pre cs]: the way from [pre] along [cs] is made of
    directories as far as it exists and of nothing from there on.  No
    regular file stands on it, and, as on any file system, nothing exists
    below a directory that is missing. *)
Fixpoint clear_way (d : Disk) (a : bool) (pre cs : list string) : bool :=
  match cs with
  | [] => true
  | c :: cs' =>
      match d !! (a, pre ++ [c]) with
      | Some Dir => clear_way d a (pre ++ [c]) cs'
      | Some (File _) => false
      | None => absent_from d a (pre ++ [c]) cs'
      end
  end.

End Os.

(** ** What the module imports from [keg/utils.py]

    [partition_hash] and [verify_data] live in [keg/utils.py].  The
    operations below take them through this interface: the partition
    function, which may reject a key, and the hash that [verify_data]
    compares with the key. *)

Class Utils : Type := {
  partition_hash : string -> result string;
  hexdigest : list byte -> string
}.

(** Modelled from the spec: [verify_data] of [keg/utils.py], the generic
    hash-and-compare routine taking a label, data, key and verify flag.
    With [verify] set it hashes the data it is given and compares the
    digest with the key, and a mismatch raises the integrity error that
    carries the label and the key; without [verify] it never raises. *)
Definition verify_data `{Utils} (object_name : string) (data : list byte)
    (key : string) (verify : bool) : result unit :=
  if verify then
    if String.eqb (hexdigest data) key then Ok tt
    else Raise (IntegrityError object_name key)
  else Ok tt.

(** ** The logical path scheme *)

Definition fmap_result {A B} (f : A -> B) (r : result A) : result B :=
  match r with
  | Ok a => Ok (f a)
  | Raise e => Raise e
  end.

Definition get_config_path `{Utils} (key : string) : result string :=
  fmap_result (fun h => "/config/" +:+ h) (partition_hash key).

Definition get_data_path `{Utils} (key : string) : result string :=
  fmap_result (fun h => "/data/" +:+ h) (partition_hash key).

Definition get_data_index_path `{Utils} (key : string) : result string :=
  fmap_result (fun p => p +:+ ".index") (get_data_path key).

Definition get_patch_path `{Utils} (key : string) : result string :=
  fmap_result (fun h => "/patch/" +:+ h) (partition_hash key).

Definition get_patch_index_path `{Utils} (key : string) : result string :=
  fmap_result (fun p => p +:+ ".index") (get_patch_path key).

Definition get_config_item_path `{Utils} (key : string) : result string :=
  fmap_result (fun h => "/" +:+ h) (partition_hash key).

(** ** BaseCDN

    A backend provides the two primitive reads; every fetch operation is
    written once on top of them. *)

Class CDN (W T : Type) : Type := {
  get_item : T -> string -> M W Reader;
  get_config_item : T -> string -> M W Reader
}.

Module BaseCDN.

  (** The base class itself: both primitives raise. *)
Inductive t : Type := Abstract.

#[export] Instance cdn (W : Type) : CDN W t := {|
  get_item := fun _ _ => raise NotImplementedError;
  get_config_item := fun _ _ => raise NotImplementedError
|}.

Section Fetch.
Context `{U : Utils} {W T : Type} `{C : CDN W T}.

(** [data = resp.read()] *)
Definition read_all (resp : Reader) : M W (list byte) :=
  lift (fmap_result fst (Reader_read resp (-1))).

Definition fetch_config (self : T) (key : string) (verify : bool)
  : M W (list byte) :=
  let* path := lift (get_config_path key) in
  let* resp := get_item self path in
  let* data := read_all resp in
  lift (verify_data "config file" data key verify) >>
  ret data.

Definition fetch_config_data (self : T) (key : string) (verify : bool)
  : M W (list byte) :=
  let* path := lift (get_config_item_path key) in
  let* resp := get_config_item self path in
  let* data := read_all resp in
  lift (verify_data "config item" data key verify) >>
  ret data.

Definition fetch_index (self : T) (key : string) (verify : bool)
  : M W (list byte) :=
  let* path := lift (get_data_index_path key) in
  let* resp := get_item self path in
  read_all resp.

Definition fetch_patch (self : T) (key : string) (verify : bool)
  : M W (list byte) :=
  let* path := lift (get_patch_path key) in
  let* resp := get_item self path in
  let* data := read_all resp in
  lift (verify_data "patch file" data key verify) >>
  ret data.

Definition fetch_patch_index (self : T) (key : string) (verify : bool)
  : M W (list byte) :=
  let* path := lift (get_patch_index_path key) in
  let* resp := get_item self path in
  let* data := read_all resp in
  lift (verify_data "patch index" (slice_from (-28) data) key verify) >>
  ret data.

Definition download_data (self : T) (key : string) (verify : bool)
  : M W Reader :=
  let* path := lift (get_data_path key) in
  get_item self path.

End Fetch.

End BaseCDN.

(** [if b:] on a byte string *)
Definition nonempty (b : list byte) : bool :=
  match b with [] => false | _ => true end.

(** ** HTTPCacheWrapper *)

Module HTTPCacheWrapper.

Record t : Type := {
  fp : Reader;
  _real_path : string;
  _temp_path : string;
  _cache_file : Os.Writer
}.

Definition __init__ (fp : Reader) (path : string) : M Os.Disk t :=
  let dir_path := Os.path_dirname path in
  let* e := Os.path_exists dir_path in
  (if negb e then Os.makedirs dir_path else ret tt) >>
  let temp_path := path +:+ ".keg_temp" in
  let* cache_file := Os.open_wb temp_path in
  ret {| fp := fp; _real_path := path; _temp_path := temp_path;
         _cache_file := cache_file |}.

(** The wrapper after its stream has advanced to [fp']. *)
Definition set_fp (self : t) (fp' : Reader) : t :=
  {| fp := fp'; _real_path := _real_path self;
     _temp_path := _temp_path self; _cache_file := _cache_file self |}.

(** [read]: what the wrapped stream delivers is mirrored into the cache
    file.  The stream is a field of the wrapper, so the wrapper comes back
    with the stream advanced. *)
Definition read (self : t) (size : Z) : M Os.Disk (list byte * t) :=
  let* (data, fp') :=
    lift (if (size =? -1)%Z then Reader_read (fp self) (-1)
          else Reader_read (fp self) size) in
  (if nonempty data then Os.write (_cache_file self) data else ret tt) >>
  ret (data, set_fp self fp').

(** The [while True] loop of [close].  Every turn that does not leave the
    loop consumes at least one pending byte; [fuel] bounds the turns. *)
Fixpoint drain (fuel : nat) (self : t) : M Os.Disk t :=
  match fuel with
  | O => raise Diverged
  | S fuel' =>
      let* (b, self') := read self 8192 in
      if negb (nonempty b) then ret self' else drain fuel' self'
  end.

Definition close (self : t) : M Os.Disk unit :=
  let* self' := drain (S (length (pending (fp self)))) self in
  (* self._cache_file.close() *)
  Os.rename (_temp_path self') (_real_path self') >>
  (* return self.fp.close() *)
  ret tt.

Definition __enter__ (self : t) : t := self.

(** [__exit__]: closes, and returns [False], so an exception raised
    in the block is not swallowed. *)
Definition __exit__ (self : t) : M Os.Disk bool :=
  close self >> ret false.

(** A block that calls [f.read(size)] for each size in turn.  It comes
    back with what the reads returned, or with the exception of the read
    that raised, and with the wrapper as the block left it. *)
Fixpoint block (self : t) (sizes : list Z)
  : M Os.Disk (result (list (list byte)) * t) :=
  match sizes with
  | [] => ret (Ok [], self)
  | size :: sizes' =>
      fun d =>
        match read self size d with
        | (Ok (b, self'), d') =>
            (let* (r, self'') := block self' sizes' in
             ret (fmap_result (cons b) r, self'')) d'
        | (Raise e, d') => (Ok (Raise e, self), d')
        end
  end.

(** [with HTTPCacheWrapper(fp, path) as f:] around such a block.  [after]
    is the rest of the block, which may raise; [__exit__] runs in either
    case, and since it returns [False] the exception of the block
    propagates once [__exit__] has returned. *)
Definition with_block {A : Type} (fp : Reader) (path : string)
    (sizes : list Z) (after : list (list byte) -> result A) : M Os.Disk A :=
  let* f := __init__ fp path in
  let* (r, f') := block (__enter__ f) sizes in
  let outcome := match r with
                 | Ok chunks => after chunks
                 | Raise e => Raise e
                 end in
  __exit__ f' >>
  lift outcome.

End HTTPCacheWrapper.

(** ** LocalCDN *)

Module LocalCDN.

Record t : Type := {
  base_dir : string;
  fragments_dir : string;
  armadillo_dir : string;
  temp_dir : string;
  armadillo_objects_dir : string
}.

Definition __init__ (base_dir fragments_dir armadillo_dir temp_dir : string)
  : t :=
  {| base_dir := base_dir; fragments_dir := fragments_dir;
     armadillo_dir := armadillo_dir; temp_dir := temp_dir;
     armadillo_objects_dir := Os.path_join armadillo_dir "objects" |}.

Definition get_full_path (self : t) (path : string) : string :=
  Os.path_join (base_dir self) (Str.lstrip path).

Definition get_encrypted_path (self : t) (path : string) : string :=
  Os.path_join (armadillo_objects_dir self) (Str.lstrip path).

Definition get_fragment_path `{Utils} (self : t) (key : string)
  : result string :=
  fmap_result (Os.path_join (fragments_dir self)) (partition_hash key).

Definition get_item (self : t) (path : string) : M Os.Disk Reader :=
  Os.open_rb (get_full_path self path).

Definition get_fragment `{Utils} (self : t) (key : string)
  : M Os.Disk Reader :=
  let* p := lift (get_fragment_path self key) in
  Os.open_rb p.

Definition exists_ (self : t) (path : string) : M Os.Disk bool :=
  Os.path_exists (get_full_path self path).

(** [has_config] uses the module-level [get_config_path]; it is placed
    before the method of the same name. *)
Definition has_config `{Utils} (self : t) (key : string) : M Os.Disk bool :=
  let* p := lift (get_config_path key) in exists_ self p.

Definition get_config_path (self : t) (path : string) : string :=
  Os.path_join (Os.path_join (Os.path_join (base_dir self) "configs") "data")
    (Str.lstrip path).

Definition get_config_item (self : t) (path : string) : M Os.Disk Reader :=
  Os.open_rb (get_config_path self path).

Definition has_data `{Utils} (self : t) (key : string) : M Os.Disk bool :=
  let* p := lift (get_data_path key) in exists_ self p.

Definition has_index `{Utils} (self : t) (key : string) : M Os.Disk bool :=
  let* p := lift (get_data_index_path key) in exists_ self p.

Definition has_patch `{Utils} (self : t) (key : string) : M Os.Disk bool :=
  let* p := lift (get_patch_path key) in exists_ self p.

Definition has_patch_index `{Utils} (self : t) (key : string)
  : M Os.Disk bool :=
  let* p := lift (get_patch_index_path key) in exists_ self p.

Definition has_config_item `{Utils} (self : t) (key : string)
  : M Os.Disk bool :=
  let* h := lift (partition_hash key) in
  Os.path_exists (get_config_path self ("/" +:+ h)).

Definition has_fragment `{Utils} (self : t) (key : string)
  : M Os.Disk bool :=
  let* p := lift (get_fragment_path self key) in
  Os.path_exists p.

Definition save_item (self : t) (item : Reader) (path : string)
  : M Os.Disk unit :=
  let cache_file_path := get_full_path self path in
  let* f := HTTPCacheWrapper.__init__ item cache_file_path in
  HTTPCacheWrapper.close f.

Definition save_config_item (self : t) (item : Reader) (path : string)
  : M Os.Disk unit :=
  let cache_file_path := get_config_path self path in
  let* f := HTTPCacheWrapper.__init__ item cache_file_path in
  HTTPCacheWrapper.close f.

(** The result stands for [ArmadilloKey(f.read())]: the raw key bytes. *)
Definition get_decryption_key (self : t) (key_name : string)
  : M Os.Disk (list byte) :=
  let key_path := Os.path_join (armadillo_dir self) (key_name +:+ ".ak") in
  let* e := Os.path_exists key_path in
  if negb e then raise (ArmadilloKeyNotFound key_name)
  else
    let* f := Os.open_rb key_path in
    BaseCDN.read_all f.

(** The [while True] loop of [write_temp_file]. *)
Fixpoint copy_chunks (fuel : nat) (fp : Reader) (f : Os.Writer)
    (buf_size : Z) : M Os.Disk unit :=
  match fuel with
  | O => raise Diverged
  | S fuel' =>
      let* (b, fp') := lift (Reader_read fp buf_size) in
      if nonempty b then Os.write f b >> copy_chunks fuel' fp' f buf_size
      else ret tt
  end.

(** [uuid] is the string that [str(uuid4())] returns in this call. *)
Definition write_temp_file (self : t) (fp : Reader) (buf_size : Z)
    (uuid : string) : M Os.Disk string :=
  let temp_path := Os.path_join (temp_dir self) uuid in
  let* e := Os.path_exists (temp_dir self) in
  (if negb e then Os.makedirs (temp_dir self) else ret tt) >>
  let* f := Os.open_wb temp_path in
  (if (buf_size <? 0)%Z then
     let* (data, _) := lift (Reader_read fp (-1)) in
     Os.write f data
   else copy_chunks (S (length (pending fp))) fp f buf_size) >>
  ret temp_path.

Definition upgrade_temp_file (self : t) (temp_path path : string)
  : M Os.Disk unit :=
  let path := get_full_path self path in
  let dirname := Os.path_dirname path in
  let* e := Os.path_exists dirname in
  (if negb e then Os.makedirs dirname else ret tt) >>
  Os.rename temp_path path.

Definition has_encrypted_file (self : t) (path : string) : M Os.Disk bool :=
  Os.path_exists (get_encrypted_path self path).

Definition write_encrypted_file (self : t) (fp : Reader) (path : string)
    (buf_size : Z) (uuid : string) : M Os.Disk unit :=
  let* temp_path := write_temp_file self fp buf_size uuid in
  let crypt_path := get_encrypted_path self path in
  let dirname := Os.path_dirname crypt_path in
  let* e := Os.path_exists dirname in
  (if negb e then Os.makedirs dirname else ret tt) >>
  Os.rename temp_path crypt_path.

#[export] Instance cdn : CDN Os.Disk t :=
  Build_CDN Os.Disk t get_item get_config_item.

End LocalCDN.

(** ** Observations that a computation preserves

    [keeps obs m]: whatever [m] returns or raises, the observation [obs] of
    the disk is the same after [m] as before. *)

Definition keeps {X A : Type} (obs : Os.Disk -> X) (m : M Os.Disk A) : Prop :=
  forall d r d', m d = (r, d') -> obs d' = obs d.

(** [backend_sound self]: neither the partition function nor the backend's
    [get_item] raises an integrity error; that error belongs to
    [verify_data] alone. *)
Definition backend_sound `{U : Utils} {W T : Type} `{C : CDN W T} (self : T)
  : Prop :=
  (forall k e, partition_hash k = Raise e -> is_integrity_error e = false)
  /\ (forall p w e w',
        get_item self p w = (Raise e, w') -> is_integrity_error e = false).

(** [in_step has fetch d]: on the disk [d] the existence test [has] and the
    read [fetch] look at the same file.  If [fetch] returns, [has] answers
    [True]; if [has] answers [False], [fetch] raises the not-found or
    not-a-directory error of the open, with the disk as it was. *)
Definition in_step {A : Type} (has : M Os.Disk bool) (fetch : M Os.Disk A)
    (d : Os.Disk) : Prop :=
  (forall x d', fetch d = (Ok x, d') -> has d = (Ok true, d))
  /\ (has d = (Ok false, d) ->
      exists e p, fetch d = (Raise e, d)
                  /\ (e = FileNotFoundError p \/ e = NotADirectoryError p)).

(** ** An instance of the imported helpers *)

Module SpecUtils.

Definition is_hex_digit (a : ascii) : bool :=
  let n := nat_of_ascii a in
  ((48 <=? n)%nat && (n <=? 57)%nat) || ((97 <=? n)%nat && (n <=? 102)%nat).

Definition valid_key (key : string) : bool :=
  (String.length key =? 32)%nat && forallb is_hex_digit (list_ascii_of_string key).

(** Modelled from the spec: [partition_hash] of [keg/utils.py], which is
    not among the sources.  The key is a hexadecimal digest; the
    partitioned path is fixed-width prefix segments followed by the full
    key; a key of the wrong length or charset is rejected.  The spec
    leaves the widths open: two segments of two characters and keys of 32
    digits are taken here. *)
Definition partition_hash (key : string) : result string :=
  if valid_key key then
    Ok (substring 0 2 key +:+ "/" +:+ substring 2 2 key +:+ "/" +:+ key)
  else Raise (ValueError "Invalid hash to partition").

Definition hex_digit (n : N) : ascii :=
  ascii_of_N (if (n <? 10)%N then 48 + n else 87 + n)%N.

Fixpoint hex_digits (width : nat) (x : N) (acc : string) : string :=
  match width with
  | O => acc
  | S w => hex_digits w (x / 16)%N (String (hex_digit (x mod 16)%N) acc)
  end.

(** A stand-in for the hash, used to run the definitions: the sum of the
    bytes, as 32 hexadecimal digits. *)
Definition checksum (data : list byte) : string :=
  hex_digits 32 (fold_right (fun b s => (Byte.to_N b + s)%N) 0%N data) "".

#[export] Instance utils : Utils :=
  Build_Utils partition_hash checksum.

End SpecUtils.

(** ** Sample data, used to run the definitions *)

Definition sample_mirror : LocalCDN.t :=
  LocalCDN.__init__ "cache" "frag" "arm" "tmp".

(** The checksum of 28 bytes [0x01], and of the two bytes [0x0e]. *)
Definition sample_key : string := "0000000000000000000000000000001c".

(** Two arbitrary bytes, then 28 bytes [0x01]. *)
Definition sample_patch_index : list byte := [xde; xad] ++ repeat x01 28.

(** * Properties *)

(** ** Strings *)

Lemma list_ascii_of_string_append (a b : string) :
  list_ascii_of_string (a +:+ b)
  = list_ascii_of_string a ++ list_ascii_of_string b.
Proof. induction a as [|c a IH]; simpl; [reflexivity | now rewrite IH]. Qed.

Lemma list_ascii_of_string_inj (a b : string) :
  list_ascii_of_string a = list_ascii_of_string b -> a = b.
Proof.
  intros E.
  rewrite <- (string_of_list_ascii_of_string a),
          <- (string_of_list_ascii_of_string b).
  now rewrite E.
Qed.

(** A common suffix cancels. *)
Lemma append_inv_suffix (a b s : string) : a +:+ s = b +:+ s -> a = b.
Proof.
  intros E. apply list_ascii_of_string_inj.
  apply (f_equal list_ascii_of_string) in E.
  rewrite !list_ascii_of_string_append in E.
  now apply app_inv_tail in E.
Qed.

Lemma string_length_append (a b : string) :
  String.length (a +:+ b) = String.length a + String.length b.
Proof. induction a as [|c a IH]; simpl; [reflexivity | now rewrite IH]. Qed.

Lemma append_longer (a s : string) : s <> EmptyString -> a +:+ s <> a.
Proof.
  intros Hs E. apply (f_equal String.length) in E.
  rewrite string_length_append in E.
  destruct s; [congruence | simpl in E; lia].
Qed.

Lemma length_lstrip (s : string) :
  String.length (Str.lstrip s) <= String.length s.
Proof.
  induction s as [|a s IH]; simpl; [lia |].
  destruct (Str.is_sep a); simpl; lia.
Qed.

Lemma length_list_ascii_of_string (s : string) :
  length (list_ascii_of_string s) = String.length s.
Proof. induction s as [|a s IH]; simpl; [reflexivity | now rewrite IH]. Qed.

Lemma length_string_of_list_ascii (l : list ascii) :
  String.length (string_of_list_ascii l) = length l.
Proof. induction l as [|a l IH]; simpl; [reflexivity | now rewrite IH]. Qed.

Lemma length_rev (s : string) : String.length (Str.rev s) = String.length s.
Proof.
  unfold Str.rev.
  now rewrite length_string_of_list_ascii, length_rev,
    length_list_ascii_of_string.
Qed.

Lemma length_rstrip (s : string) :
  String.length (Str.rstrip s) <= String.length s.
Proof.
  unfold Str.rstrip. rewrite length_rev.
  etransitivity; [apply length_lstrip |]. now rewrite length_rev.
Qed.

Lemma is_empty_false_length (s : string) :
  Str.is_empty s = false -> 0 < String.length s.
Proof. destruct s; [discriminate | simpl; lia]. Qed.

Lemma lstrip_no_sep (s : string) : Str.no_sep s = true -> Str.lstrip s = s.
Proof.
  destruct s as [|a s]; [reflexivity |]. simpl.
  intros H. apply andb_true_iff in H as [Ha _].
  apply negb_true_iff in Ha. now rewrite Ha.
Qed.

Lemma startswith_no_sep (s : string) :
  Str.no_sep s = true -> Str.startswith_sep s = false.
Proof.
  destruct s as [|a s]; [reflexivity |]. simpl.
  intros H. apply andb_true_iff in H as [Ha _].
  now apply negb_true_iff in Ha.
Qed.

Lemma split_nonempty (s : string) : Str.split s <> [].
Proof.
  destruct s as [|a s]; simpl; [discriminate |].
  destruct (Str.is_sep a); [discriminate |].
  destruct (Str.split s); discriminate.
Qed.

(** A string without separator is its own single segment. *)
Lemma split_no_sep (s : string) : Str.no_sep s = true -> Str.split s = [s].
Proof.
  induction s as [|a s IH]; simpl; [reflexivity |].
  intros H. apply andb_true_iff in H as [Ha Hs].
  apply negb_true_iff in Ha. rewrite Ha, (IH Hs). reflexivity.
Qed.

(** Appending text without separator extends the last segment. *)
Lemma split_append_no_sep (p sfx : string) :
  Str.no_sep sfx = true ->
  Str.split (p +:+ sfx)
  = removelast (Str.split p) ++ [List.last (Str.split p) EmptyString +:+ sfx].
Proof.
  intros Hs. induction p as [|a p IH].
  - simpl. now apply split_no_sep.
  - pose proof (split_nonempty p) as Hne.
    change (String a p +:+ sfx) with (String a (p +:+ sfx)).
    cbn [Str.split]. destruct (Str.is_sep a).
    + rewrite IH. destruct (Str.split p) as [|x l]; [congruence |].
      reflexivity.
    + rewrite IH. destruct (Str.split p) as [|x [|y l]]; [congruence | |];
        reflexivity.
Qed.

Lemma split_singleton (p h : string) : Str.split p = [h] -> h = p.
Proof.
  revert h. induction p as [|a p IH]; intros h; simpl.
  - now intros [= <-].
  - destruct (Str.is_sep a).
    + intros E. injection E as _ E. now apply split_nonempty in E.
    + destruct (Str.split p) as [|x l] eqn:Hs.
      * now apply split_nonempty in Hs.
      * intros E. injection E as <- ->. f_equal. now apply IH.
Qed.

Lemma last_split_empty (p : string) :
  Str.is_empty (List.last (Str.split p) EmptyString)
  = Str.is_empty p || Str.endswith_sep p.
Proof.
  induction p as [|a p IH]; [reflexivity |].
  pose proof (split_nonempty p) as Hne.
  cbn [Str.split]. destruct (Str.is_sep a) eqn:Ha.
  - destruct p as [|b p'].
    + simpl. now rewrite Ha.
    + destruct (Str.split (String b p')) as [|x l] eqn:Hs; [congruence |].
      change (List.last (EmptyString :: x :: l) EmptyString)
        with (List.last (x :: l) EmptyString).
      rewrite IH. reflexivity.
  - destruct (Str.split p) as [|h t] eqn:Hs; [congruence |].
    destruct t as [|y t'].
    + apply split_singleton in Hs. subst h.
      destruct p as [|b p']; simpl in *; [now rewrite Ha |].
      symmetry. rewrite <- IH. reflexivity.
    + change (List.last (String a h :: y :: t') EmptyString)
        with (List.last (h :: y :: t') EmptyString).
      rewrite IH. destruct p as [|b p']; [discriminate | reflexivity].
Qed.

(** ** The remote path join *)

(** The four lines of the source comment describe [urljoin] itself. *)
Example urljoin_file_base : Urllib.urljoin "/foo/bar" "baz" = "/foo/baz".
Proof. reflexivity. Qed.

Example urljoin_dir_base : Urllib.urljoin "/foo/bar/" "baz" = "/foo/bar/baz".
Proof. reflexivity. Qed.

Example urljoin_double_sep : Urllib.urljoin "/foo/bar//" "baz" = "/foo/bar/baz".
Proof. reflexivity. Qed.

Example urljoin_anchored : Urllib.urljoin "/foo/bar/" "/baz" = "/baz".
Proof. reflexivity. Qed.

Lemma urljoin_segment (base seg : string) :
  Str.is_empty base = false ->
  Urllib.filter_middle
    ((if Str.is_empty (List.last (Str.split base) EmptyString)
      then Str.split base else removelast (Str.split base)) ++ [seg])
  = [""; "foo"; "bar"; seg] ->
  Str.no_sep seg = true ->
  seg <> "" -> seg <> "." -> seg <> ".." ->
  Urllib.urljoin base seg = "/foo/bar/" +:+ seg.
Proof.
  intros Hb Hm Hs Hne Hdot Hdots.
  assert (He : Str.is_empty seg = false) by (now destruct seg).
  apply String.eqb_neq in Hdot, Hdots.
  unfold Urllib.urljoin.
  rewrite Hb, He, (startswith_no_sep seg Hs), (split_no_sep seg Hs), Hm.
  change (List.last [""; "foo"; "bar"; seg] EmptyString) with seg.
  rewrite Hdot, Hdots. cbv [orb].
  change (Urllib.resolve [""; "foo"; "bar"; seg] [])
    with (if String.eqb seg ".." then [""; "foo"]
          else if String.eqb seg "." then [""; "foo"; "bar"]
               else [""; "foo"; "bar"; seg]).
  rewrite Hdot, Hdots. reflexivity.
Qed.

(** Under the prefix ["/foo/bar"], with or without its trailing separator,
    a single segment is appended whether or not it is written with a
    leading separator: an anchored path does not replace the prefix. *)
Lemma join_path_segment (self : RemoteCDN.t) (seg : string) :
  Str.no_sep seg = true ->
  seg <> "" -> seg <> "." -> seg <> ".." ->
  RemoteCDN._join_path self "/foo/bar" ("/" +:+ seg) = "/foo/bar/" +:+ seg
  /\ RemoteCDN._join_path self "/foo/bar" seg = "/foo/bar/" +:+ seg
  /\ RemoteCDN._join_path self "/foo/bar/" seg = "/foo/bar/" +:+ seg.
Proof.
  intros Hs Hne Hdot Hdots.
  assert (Hl : Str.lstrip ("/" +:+ seg) = seg).
  { change (Str.lstrip ("/" +:+ seg)) with (Str.lstrip seg).
    now apply lstrip_no_sep. }
  unfold RemoteCDN._join_path. rewrite Hl, (lstrip_no_sep seg Hs).
  repeat split; apply urljoin_segment; auto.
Qed.

(** *** Plain segments *)

Lemma plain_no_sep (s : string) :
  forallb plain_char (list_ascii_of_string s) = true -> Str.no_sep s = true.
Proof.
  induction s as [|a s IH]; simpl; [reflexivity |].
  intros H. apply andb_true_iff in H as [Ha Hs].
  rewrite (IH Hs), andb_true_r. unfold plain_char in Ha.
  now repeat (apply andb_true_iff in Ha as [Ha _]).
Qed.

Lemma plain_segment_spec (s : string) :
  plain_segment s = true ->
  Str.no_sep s = true /\ Str.is_empty s = false
  /\ String.eqb s "." = false /\ String.eqb s ".." = false.
Proof.
  unfold plain_segment. intros H.
  apply andb_true_iff in H as [H H4]. apply andb_true_iff in H as [H H3].
  apply andb_true_iff in H as [H1 H2].
  apply negb_true_iff in H2, H3, H4. apply plain_no_sep in H1. auto.
Qed.

Lemma split_app_sep (x s : string) :
  Str.no_sep x = true ->
  Str.split (x +:+ String Str.sep s) = x :: Str.split s.
Proof.
  induction x as [|a x IH]; simpl; [reflexivity |].
  intros H. apply andb_true_iff in H as [Ha Hx].
  apply negb_true_iff in Ha. rewrite Ha.
  change (Str.split (x +:+ String "/" s))
    with (Str.split (x +:+ String Str.sep s)).
  now rewrite (IH Hx).
Qed.

Lemma split_join (l : list string) :
  l <> [] -> forallb Str.no_sep l = true -> Str.split (Str.join l) = l.
Proof.
  induction l as [|x l IH]; [congruence |]. intros _ H.
  simpl in H. apply andb_true_iff in H as [Hx Hl].
  destruct l as [|y l]; [now apply split_no_sep |].
  change (Str.join (x :: y :: l)) with (x +:+ String Str.sep (Str.join (y :: l))).
  rewrite split_app_sep by exact Hx. f_equal. now apply IH.
Qed.

Lemma split_snoc_sep (s : string) :
  Str.split (s +:+ "/") = Str.split s ++ [EmptyString].
Proof.
  induction s as [|a s IH]; [reflexivity |].
  change (String a s +:+ "/") with (String a (s +:+ "/")).
  cbn [Str.split]. rewrite IH. destruct (Str.is_sep a); [reflexivity |].
  pose proof (split_nonempty s) as Hne.
  destruct (Str.split s) as [|h t]; [congruence | reflexivity].
Qed.

Lemma lstrip_all_sep (seps t : string) :
  Str.all_sep seps = true -> Str.lstrip (seps +:+ t) = Str.lstrip t.
Proof.
  induction seps as [|a seps IH]; [reflexivity |]. simpl.
  intros H. apply andb_true_iff in H as [Ha Hs]. rewrite Ha. now apply IH.
Qed.

Lemma lstrip_not_anchored (s : string) :
  Str.startswith_sep s = false -> Str.lstrip s = s.
Proof. destruct s as [|a s]; [reflexivity |]. simpl. now intros ->. Qed.

Lemma join_cons (x : string) (l : list string) :
  l <> [] -> Str.join (x :: l) = x +:+ String Str.sep (Str.join l).
Proof. destruct l; [congruence | reflexivity]. Qed.

Lemma join_head (x : string) (l : list string) :
  Str.is_empty x = false ->
  Str.startswith_sep (Str.join (x :: l)) = Str.startswith_sep x
  /\ Str.is_empty (Str.join (x :: l)) = false.
Proof.
  intros Hx. destruct x as [|a x]; [discriminate |].
  destruct l; split; reflexivity.
Qed.

Lemma is_empty_join2 (x y : string) (l : list string) :
  Str.is_empty (Str.join (x :: y :: l)) = false.
Proof.
  change (Str.join (x :: y :: l)) with (x +:+ String Str.sep (Str.join (y :: l))).
  now destruct x.
Qed.

Lemma filter_plain (l : list string) :
  forallb plain_segment l = true ->
  List.filter (fun s => negb (Str.is_empty s)) l = l.
Proof.
  induction l as [|x l IH]; [reflexivity |]. simpl.
  intros H. apply andb_true_iff in H as [Hx Hl].
  apply plain_segment_spec in Hx as (_ & -> & _). simpl. now rewrite IH.
Qed.

Lemma resolve_plain (l acc : list string) :
  Forall (fun s => String.eqb s ".." = false /\ String.eqb s "." = false) l ->
  Urllib.resolve l acc = acc ++ l.
Proof.
  revert acc. induction l as [|x l IH]; intros acc H; simpl.
  - now rewrite app_nil_r.
  - inversion H as [|? ? [H1 H2] Hl]; subst. rewrite H1, H2.
    rewrite IH by exact Hl. now rewrite <- app_assoc.
Qed.

Lemma forallb_plain_Forall (l : list string) :
  forallb plain_segment l = true ->
  Forall (fun s => String.eqb s ".." = false /\ String.eqb s "." = false) l.
Proof.
  induction l as [|x l IH]; [constructor |]. simpl.
  intros H. apply andb_true_iff in H as [Hx Hl].
  apply plain_segment_spec in Hx as (_ & _ & H1 & H2).
  constructor; [split; assumption | now apply IH].
Qed.

Lemma forallb_plain_no_sep (l : list string) :
  forallb plain_segment l = true -> forallb Str.no_sep l = true.
Proof.
  induction l as [|x l IH]; [reflexivity |]. simpl.
  intros H. apply andb_true_iff in H as [Hx Hl].
  apply plain_segment_spec in Hx as (-> & _). now apply IH.
Qed.

(** On plain segments [urljoin] resolves nothing away: the segments of the
    base, then those of the path. *)
Lemma join_path_plain (self : RemoteCDN.t)
    (b0 : string) (bs us : list string) (seps : string) :
  b0 = EmptyString \/ plain_segment b0 = true ->
  forallb plain_segment bs = true ->
  forallb plain_segment us = true ->
  us <> [] ->
  Str.all_sep seps = true ->
  RemoteCDN._join_path self (Str.join (b0 :: bs)) (seps +:+ Str.join us)
  = Str.join (b0 :: bs ++ us).
Proof.
  intros Hb0 Hbs Hus Hne Hseps.
  assert (Hb0' : Str.no_sep b0 = true
                 /\ String.eqb b0 "." = false /\ String.eqb b0 ".." = false).
  { destruct Hb0 as [-> | H]; [auto |].
    apply plain_segment_spec in H as (? & _ & ? & ?). auto. }
  destruct Hb0' as (Hb0sep & Hb0dot & Hb0dots).
  destruct us as [|u us']; [congruence |]. set (us := u :: us') in *.
  assert (Hu : Str.is_empty u = false /\ Str.startswith_sep u = false).
  { simpl in Hus. apply andb_true_iff in Hus as [Hu _].
    apply plain_segment_spec in Hu as (Hs & He & _).
    split; [exact He | now apply startswith_no_sep]. }
  destruct Hu as [Hue Hus0].
  destruct (join_head u us' Hue) as [Hstart Hempty]. fold us in Hstart, Hempty.
  rewrite Hus0 in Hstart.
  unfold RemoteCDN._join_path.
  rewrite (lstrip_all_sep _ _ Hseps), (lstrip_not_anchored _ Hstart).
  unfold Urllib.urljoin.
  assert (Hbase : Str.is_empty (Str.join (b0 :: bs) +:+ "/") = false)
    by (now destruct (Str.join (b0 :: bs))).
  rewrite Hbase, Hempty, Hstart, split_snoc_sep.
  rewrite split_join
    by (try discriminate; simpl; rewrite Hb0sep;
        now apply forallb_plain_no_sep).
  rewrite (split_join us) by (try discriminate; now apply forallb_plain_no_sep).
  rewrite last_last. cbn [Str.is_empty].
  assert (Hmid : Urllib.filter_middle (((b0 :: bs) ++ [EmptyString]) ++ us)
                 = b0 :: bs ++ us).
  { rewrite <- !app_assoc. cbn [app Urllib.filter_middle].
    destruct (bs ++ EmptyString :: us) as [|t0 ts] eqn:Ht.
    { apply app_eq_nil in Ht as [_ Ht]. discriminate. }
    rewrite <- Ht. f_equal.
    rewrite (app_removelast_last EmptyString Hne) at 1 2.
    change (bs ++ EmptyString :: removelast us ++ [List.last us EmptyString])
      with (bs ++ (EmptyString :: removelast us) ++ [List.last us EmptyString]).
    rewrite app_assoc, removelast_last, last_last.
    rewrite List.filter_app. cbn [List.filter Str.is_empty negb].
    rewrite (filter_plain bs Hbs).
    rewrite filter_plain.
    - rewrite <- app_assoc. f_equal. symmetry.
      now apply app_removelast_last.
    - rewrite (app_removelast_last EmptyString Hne), forallb_app in Hus.
      now apply andb_true_iff in Hus as [Hus _]. }
  rewrite Hmid.
  assert (Hall : Forall (fun s => String.eqb s ".." = false
                                  /\ String.eqb s "." = false)
                   (b0 :: bs ++ us)).
  { constructor; [auto |]. apply Forall_app.
    split; now apply forallb_plain_Forall. }
  rewrite (resolve_plain _ [] Hall). cbn [app].
  assert (Hlast : String.eqb (List.last (b0 :: bs ++ us) EmptyString) "."
                  || String.eqb (List.last (b0 :: bs ++ us) EmptyString) ".."
                  = false).
  { assert (Hin : In (List.last (b0 :: bs ++ us) EmptyString) (b0 :: bs ++ us)).
    { destruct (exists_last (l := b0 :: bs ++ us)) as (l' & a & Hl);
        [discriminate |].
      rewrite Hl, last_last. rewrite in_app_iff. right. now left. }
    destruct (proj1 (List.Forall_forall _ _) Hall _ Hin) as [H1 H2].
    now rewrite H1, H2. }
  rewrite Hlast.
  destruct (bs ++ us) as [|y l] eqn:Hys.
  { apply app_eq_nil in Hys as [_ Hys]. discriminate. }
  now rewrite is_empty_join2.
Qed.

(** C1, as stated, fails: with base ["/foo/bar"] the join of ["/baz"] is not
    ["/baz"] and the join of ["baz"] is not ["/foo/baz"]; both are
    ["/foo/bar/baz"]. *)
Lemma join_path_spec_examples_fail :
  RemoteCDN._join_path hs_mirror "/foo/bar" "/baz" <> "/baz"
  /\ RemoteCDN._join_path hs_mirror "/foo/bar" "baz" <> "/foo/baz"
  /\ ~ (RemoteCDN._join_path hs_mirror "/foo/bar" "/baz" = "/baz"
        /\ RemoteCDN._join_path hs_mirror "/foo/bar" "baz" = "/foo/baz"
        /\ RemoteCDN._join_path hs_mirror "/foo/bar/" "baz" = "/foo/bar/baz").
Proof.
  repeat split; try (vm_compute; discriminate).
  intros [H _]. vm_compute in H. discriminate.
Qed.

(** C1 (amended): [_join_path] appends the path to the base whenever both
    are made of plain segments: for a base of plain segments, anchored or
    not, and a path of plain segments written with any number of leading
    separators, the result is the base, a separator and the path, so a
    leading separator on the path does not override the prefix.  With base
    ["/foo/bar"], joining ["/baz"] and joining ["baz"] both give
    ["/foo/bar/baz"]; with base ["/foo/bar/"], joining ["baz"] gives
    ["/foo/bar/baz"].  A [".."] segment of the path is still resolved
    against the base: joining ["../baz"] to ["/foo/bar"] gives
    ["/foo/baz"]. *)
Theorem join_path_appends (self : RemoteCDN.t) :
  (forall (b0 : string) (bs us : list string) (seps : string),
     b0 = EmptyString \/ plain_segment b0 = true ->
     forallb plain_segment bs = true ->
     forallb plain_segment us = true ->
     us <> [] ->
     Str.all_sep seps = true ->
     RemoteCDN._join_path self (Str.join (b0 :: bs)) (seps +:+ Str.join us)
     = Str.join (b0 :: bs ++ us))
  /\ RemoteCDN._join_path self "/foo/bar" "/baz" = "/foo/bar/baz"
  /\ RemoteCDN._join_path self "/foo/bar" "baz" = "/foo/bar/baz"
  /\ RemoteCDN._join_path self "/foo/bar/" "baz" = "/foo/bar/baz"
  /\ RemoteCDN._join_path self "/foo/bar" "../baz" = "/foo/baz".
Proof.
  split; [intros; now apply join_path_plain |].
  destruct (join_path_segment self "baz") as (H1 & H2 & H3);
    [reflexivity | discriminate | discriminate | discriminate |].
  split; [exact H1 |]. split; [exact H2 |]. split; [exact H3 | reflexivity].
Qed.

Lemma join_path_appends_witness :
  RemoteCDN._join_path hs_mirror "tpr/configs/data" "/ab/cd/abcdef"
  = "tpr/configs/data/ab/cd/abcdef".
Proof.
  apply (proj1 (join_path_appends hs_mirror) "tpr" ["configs"; "data"]
           ["ab"; "cd"; "abcdef"] "/");
    [now right | reflexivity | reflexivity | discriminate | reflexivity].
Defined.

(** ** Running computations *)

Section MonadFacts.
Context {W A B : Type}.

Lemma bind_ok (m : M W A) (k : A -> M W B) w b w' :
  bind m k w = (Ok b, w') ->
  exists a w1, m w = (Ok a, w1) /\ k a w1 = (Ok b, w').
Proof.
  unfold bind. destruct (m w) as [[a|e] w1]; [eauto | discriminate].
Qed.

Lemma bind_raise (m : M W A) (k : A -> M W B) w e w' :
  bind m k w = (Raise e, w') ->
  m w = (Raise e, w')
  \/ exists a w1, m w = (Ok a, w1) /\ k a w1 = (Raise e, w').
Proof.
  unfold bind. destruct (m w) as [[a|e0] w1]; [eauto |].
  intros E. left. injection E as -> ->. reflexivity.
Qed.

Lemma bind_step (m : M W A) (k : A -> M W B) w a w1 :
  m w = (Ok a, w1) -> bind m k w = k a w1.
Proof. unfold bind. now intros ->. Qed.

Lemma bind_fail (m : M W A) (k : A -> M W B) w e w1 :
  m w = (Raise e, w1) -> bind m k w = (Raise e, w1).
Proof. unfold bind. now intros ->. Qed.

(** A run is determined by its result and the state it leaves. *)
Lemma run_result (m : M W A) w r : fst (m w) = r -> m w = (r, snd (m w)).
Proof. intros <-. apply surjective_pairing. Qed.

End MonadFacts.

(** ** Locations *)

Lemma components_staging (p : string) :
  Os.components (p +:+ ".keg_temp")
  = List.filter (fun c => negb (Str.is_empty c)) (removelast (Str.split p))
    ++ [List.last (Str.split p) EmptyString +:+ ".keg_temp"].
Proof.
  unfold Os.components. rewrite split_append_no_sep by reflexivity.
  rewrite List.filter_app. f_equal. simpl.
  destruct (List.last (Str.split p) EmptyString); reflexivity.
Qed.

Lemma components_last (p : string) :
  Os.components p
  = List.filter (fun c => negb (Str.is_empty c)) (removelast (Str.split p))
    ++ (if Str.is_empty (List.last (Str.split p) EmptyString) then []
        else [List.last (Str.split p) EmptyString]).
Proof.
  unfold Os.components.
  rewrite (app_removelast_last EmptyString (split_nonempty p)) at 1.
  rewrite List.filter_app. f_equal. simpl.
  destruct (List.last (Str.split p) EmptyString); reflexivity.
Qed.

Lemma components_staging_nonempty (p : string) :
  Os.components (p +:+ ".keg_temp") <> [].
Proof.
  rewrite components_staging. intros E. apply app_eq_nil in E as [_ E].
  discriminate.
Qed.

(** The staging path never names the location of its target. *)
Lemma locate_staging_ne (p : string) :
  Os.locate (p +:+ ".keg_temp") <> Os.locate p.
Proof.
  unfold Os.locate. intros E. injection E as _ E.
  rewrite components_staging, components_last in E.
  apply app_inv_head in E.
  destruct (Str.is_empty (List.last (Str.split p) EmptyString));
    [discriminate |].
  injection E as E. revert E. now apply append_longer.
Qed.

Lemma locate_staging_snd (p : string) :
  snd (Os.locate (p +:+ ".keg_temp")) <> [].
Proof. apply components_staging_nonempty. Qed.

Lemma staging_not_empty (p : string) : Str.is_empty (p +:+ ".keg_temp") = false.
Proof. now destruct p. Qed.

Lemma staging_not_dirlike (p : string) :
  Str.endswith_sep (p +:+ ".keg_temp") = false.
Proof.
  induction p as [|a p IH]; [reflexivity |].
  change (String a p +:+ ".keg_temp") with (String a (p +:+ ".keg_temp")).
  pose proof (staging_not_empty p) as Hne.
  cbn [Str.endswith_sep]. destruct (p +:+ ".keg_temp"); [discriminate |].
  exact IH.
Qed.

Lemma cut_last_sep_length (p h t : string) :
  Os.cut_last_sep p = (h, t) ->
  String.length h + String.length t = String.length p.
Proof.
  revert h t. induction p as [|a p IH]; intros h t; simpl.
  - now intros [= <- <-].
  - destruct (Os.cut_last_sep p) as [h' t'].
    specialize (IH _ _ eq_refl).
    destruct (Str.is_sep a); [| destruct h'];
      intros [= <- <-]; simpl in *; lia.
Qed.

Lemma path_split_length (p h t : string) :
  Os.path_split p = (h, t) ->
  String.length h + String.length t <= String.length p.
Proof.
  unfold Os.path_split.
  destruct (Os.cut_last_sep p) as [h' t'] eqn:Hc.
  apply cut_last_sep_length in Hc.
  intros [= <- <-].
  destruct (negb (Str.is_empty h') && negb (Str.all_sep h')); [| lia].
  pose proof (length_rstrip h'). lia.
Qed.

(** ** What the operating system calls change *)

Lemma node_at_lookup (d : Os.Disk) (k : Os.Loc) :
  snd k <> [] -> Os.node_at d k = d !! k.
Proof. unfold Os.node_at. now destruct (snd k). Qed.

Lemma node_at_not_dir (d : Os.Disk) (k : Os.Loc) :
  Os.node_at d k <> Some Os.Dir -> snd k <> [].
Proof. unfold Os.node_at. intros H E. now rewrite E in H. Qed.

Lemma node_at_insert_ne (d : Os.Disk) k n k' :
  k <> k' -> Os.node_at (<[k := n]> d) k' = Os.node_at d k'.
Proof.
  intros Hk. unfold Os.node_at. destruct (snd k'); [reflexivity |].
  now apply lookup_insert_ne.
Qed.

Lemma file_at_insert_ne (d : Os.Disk) k n p :
  k <> Os.locate p -> Os.file_at (<[k := n]> d) p = Os.file_at d p.
Proof.
  intros Hk. unfold Os.file_at, Os.node_at.
  destruct (snd (Os.locate p)); [reflexivity |].
  now rewrite lookup_insert_ne.
Qed.

Lemma file_at_alter_ne (d : Os.Disk) k g p :
  k <> Os.locate p -> Os.file_at (alter g k d) p = Os.file_at d p.
Proof.
  intros Hk. unfold Os.file_at, Os.node_at.
  destruct (snd (Os.locate p)); [reflexivity |].
  now rewrite lookup_alter_ne.
Qed.

Lemma file_at_insert_dir (d : Os.Disk) k p :
  Os.node_at d k = None ->
  Os.file_at (<[k := Os.Dir]> d) p = Os.file_at d p.
Proof.
  intros Hk. destruct (decide (k = Os.locate p)) as [->|Hne].
  - unfold Os.file_at. rewrite Hk. unfold Os.node_at in *.
    destruct (snd (Os.locate p)); [discriminate |].
    now rewrite lookup_insert_eq.
  - now apply file_at_insert_ne.
Qed.

(** *** The directories on the way to a path *)

Lemma through_raise d a pre cs p e :
  Os.through d a pre cs p = Raise e ->
  e = FileNotFoundError p \/ e = NotADirectoryError p.
Proof.
  revert pre. induction cs as [|c cs IH]; intros pre; [discriminate |].
  cbn [Os.through]. destruct cs as [|c' cs]; [discriminate |].
  destruct (d !! (a, pre ++ [c])) as [[|b]|].
  - apply IH.
  - intros [= <-]. now right.
  - intros [= <-]. now left.
Qed.

Lemma reach_raise d p e :
  Os.reach d p = Raise e ->
  e = FileNotFoundError p \/ e = NotADirectoryError p.
Proof.
  unfold Os.reach. destruct (Str.is_empty p).
  - intros [= <-]. now left.
  - apply through_raise.
Qed.

Lemma reach_no_integrity d p e :
  Os.reach d p = Raise e -> is_integrity_error e = false.
Proof. intros H. now apply reach_raise in H as [-> | ->]. Qed.

Lemma reach_no_diverge d p : Os.reach d p <> Raise Diverged.
Proof. intros H. now apply reach_raise in H as [H | H]. Qed.

Lemma reach_nonempty d p u : Os.reach d p = Ok u -> Str.is_empty p = false.
Proof. unfold Os.reach. now destruct (Str.is_empty p). Qed.

(** Only shorter locations are looked at. *)
Lemma through_frame (d d' : Os.Disk) a pre cs p :
  (forall l, length l < length pre + length cs -> d' !! (a, l) = d !! (a, l)) ->
  Os.through d' a pre cs p = Os.through d a pre cs p.
Proof.
  revert pre. induction cs as [|c cs IH]; intros pre H; [reflexivity |].
  cbn [Os.through]. destruct cs as [|c' cs]; [reflexivity |].
  rewrite H by (rewrite length_app; simpl; lia).
  destruct (d !! (a, pre ++ [c])) as [[|b]|]; try reflexivity.
  apply IH. intros l Hl. apply H. rewrite length_app in Hl. simpl in *. lia.
Qed.

Lemma reach_frame (d d' : Os.Disk) p :
  (forall k, length (snd k) < length (Os.components p) -> d' !! k = d !! k) ->
  Os.reach d' p = Os.reach d p.
Proof.
  intros H. unfold Os.reach. destruct (Str.is_empty p); [reflexivity |].
  apply through_frame. intros l Hl. now apply H.
Qed.

(** The last component plays no part. *)
Lemma through_last d a pre cs x y p p' :
  Os.through d a pre (cs ++ [x]) p = Ok tt ->
  Os.through d a pre (cs ++ [y]) p' = Ok tt.
Proof.
  revert pre. induction cs as [|c cs IH]; intros pre; [reflexivity |].
  simpl. destruct (cs ++ [x]) as [|c1 l1] eqn:E1; [now destruct cs |].
  destruct (cs ++ [y]) as [|c2 l2] eqn:E2; [now destruct cs |].
  destruct (d !! (a, pre ++ [c])) as [[|b]|]; try discriminate.
  apply IH.
Qed.

(** Directories are all that matters. *)
Lemma through_mono (d d' : Os.Disk) a pre cs p :
  (forall k, d !! k = Some Os.Dir -> d' !! k = Some Os.Dir) ->
  Os.through d a pre cs p = Ok tt -> Os.through d' a pre cs p = Ok tt.
Proof.
  intros H. revert pre. induction cs as [|c cs IH]; intros pre; [reflexivity |].
  cbn [Os.through]. destruct cs as [|c' cs]; [reflexivity |].
  destruct (d !! (a, pre ++ [c])) as [[|b]|] eqn:Hd; try discriminate.
  rewrite (H _ Hd). apply IH.
Qed.

Lemma reach_mono (d d' : Os.Disk) p :
  (forall k, d !! k = Some Os.Dir -> d' !! k = Some Os.Dir) ->
  Os.reach d p = Ok tt -> Os.reach d' p = Ok tt.
Proof.
  intros H. unfold Os.reach. destruct (Str.is_empty p); [discriminate |].
  now apply through_mono.
Qed.

Lemma dirs_insert_file (d : Os.Disk) k c k' :
  Os.node_at d k <> Some Os.Dir ->
  d !! k' = Some Os.Dir -> <[k := Os.File c]> d !! k' = Some Os.Dir.
Proof.
  intros Hk Hd. rewrite lookup_insert_ne; [exact Hd |].
  intros ->. apply Hk. unfold Os.node_at. now destruct (snd k').
Qed.

Lemma dirs_delete_file (d : Os.Disk) k c k' :
  Os.node_at d k = Some (Os.File c) ->
  d !! k' = Some Os.Dir -> delete k d !! k' = Some Os.Dir.
Proof.
  intros Hk Hd. rewrite lookup_delete_ne; [exact Hd |].
  intros ->. unfold Os.node_at in Hk. destruct (snd k'); congruence.
Qed.

Lemma reach_insert (d : Os.Disk) k n p :
  length (Os.components p) <= length (snd k) ->
  Os.reach (<[k := n]> d) p = Os.reach d p.
Proof.
  intros H. apply reach_frame. intros k' Hk'.
  apply lookup_insert_ne. intros ->. lia.
Qed.

(** Two paths that differ in their last component only go through the
    same directories. *)
Lemma reach_sibling d p q cs x y :
  Os.components p = cs ++ [x] -> Os.components q = cs ++ [y] ->
  Str.startswith_sep p = Str.startswith_sep q ->
  Str.is_empty q = false ->
  Os.reach d p = Ok tt -> Os.reach d q = Ok tt.
Proof.
  intros Hp Hq Ha He. unfold Os.reach. rewrite He, Hp, Hq, Ha.
  destruct (Str.is_empty p); [discriminate |]. apply through_last.
Qed.

Section Keeps.
Context {X : Type} (obs : Os.Disk -> X).

Lemma keeps_ret {A : Type} (a : A) : keeps obs (ret a).
Proof. intros d r d' E. injection E as _ <-. reflexivity. Qed.

Lemma keeps_raise {A : Type} (e : exn) : keeps obs (@raise _ A e).
Proof. intros d r d' E. injection E as _ <-. reflexivity. Qed.

Lemma keeps_bind {A B : Type} (m : M Os.Disk A) (k : A -> M Os.Disk B) :
  keeps obs m -> (forall a, keeps obs (k a)) -> keeps obs (bind m k).
Proof.
  intros Hm Hk d r d' E. unfold bind in E.
  destruct (m d) as [[a|e] d1] eqn:Em.
  - rewrite (Hk a _ _ _ E). eapply Hm, Em.
  - injection E as _ <-. eapply Hm, Em.
Qed.

Lemma keeps_if {A : Type} (b : bool) (m1 m2 : M Os.Disk A) :
  keeps obs m1 -> keeps obs m2 -> keeps obs (if b then m1 else m2).
Proof. now destruct b. Qed.

Lemma keeps_path_exists (p : string) : keeps obs (Os.path_exists p).
Proof.
  intros d r d' E. unfold Os.path_exists in E.
  repeat match type of E with
         | (if ?c then _ else _) = _ => destruct c
         | match ?x with _ => _ end = _ => destruct x
         end; injection E as _ <-; reflexivity.
Qed.

End Keeps.

Lemma keeps_mkdir (q p : string) :
  keeps (fun d => Os.file_at d p) (Os.mkdir q).
Proof.
  intros d r d' E. unfold Os.mkdir in E.
  destruct (Os.reach d q); [| injection E as _ <-; reflexivity].
  destruct (Os.node_at d (Os.locate q)) as [n|] eqn:Hq;
    injection E as _ <-; [reflexivity |].
  now apply file_at_insert_dir.
Qed.

Lemma keeps_makedirs_rec (p : string) (fuel : nat) (name : string) :
  keeps (fun d => Os.file_at d p) (Os.makedirs_rec fuel name).
Proof.
  revert name. induction fuel as [|fuel IH]; intros name.
  - apply keeps_raise.
  - cbn [Os.makedirs_rec].
    destruct (Os.path_split name) as [head tail].
    destruct (if Str.is_empty tail then Os.path_split head else (head, tail))
      as [head' tail'].
    apply keeps_bind.
    + apply keeps_if; [| apply keeps_ret].
      apply keeps_bind; [apply keeps_path_exists |].
      intros e. apply keeps_if; [apply keeps_ret |].
      apply keeps_bind; [| intros; apply keeps_ret].
      intros d r d' E.
      destruct (Os.makedirs_rec fuel head' d) as [r0 d0] eqn:Er.
      assert (d' = d0) as ->.
      { destruct r0 as [|[]]; injection E as _ <-; reflexivity. }
      eapply IH, Er.
    + intros stop. apply keeps_if; [apply keeps_ret | apply keeps_mkdir].
Qed.

Lemma keeps_makedirs (p name : string) :
  keeps (fun d => Os.file_at d p) (Os.makedirs name).
Proof. apply keeps_makedirs_rec. Qed.

Lemma keeps_open_wb (p q : string) :
  Os.locate q <> Os.locate p ->
  keeps (fun d => Os.file_at d p) (Os.open_wb q).
Proof.
  intros Hne d r d' E. unfold Os.open_wb in E.
  repeat match type of E with
         | (if ?c then _ else _) = _ => destruct c
         | match ?x with _ => _ end = _ => destruct x
         end; injection E as _ <-; try reflexivity;
    now apply file_at_insert_ne.
Qed.

Lemma rename_raise_same (src dst : string) d e d' :
  Os.rename src dst d = (Raise e, d') -> d' = d.
Proof.
  unfold Os.rename. intros E.
  repeat match type of E with
         | (if ?c then _ else _) = _ => destruct c
         | match ?x with _ => _ end = _ => destruct x
         end; try discriminate; injection E as _ <-; reflexivity.
Qed.

Lemma path_exists_ok p d : exists b, Os.path_exists p d = (Ok b, d).
Proof.
  unfold Os.path_exists.
  repeat match goal with
         | |- context [if ?c then _ else _] => destruct c
         | |- context [match ?x with _ => _ end] => destruct x
         end; eauto.
Qed.

Lemma path_exists_run (p : string) (d : Os.Disk) (b : bool) :
  fst (Os.path_exists p d) = Ok b -> Os.path_exists p d = (Ok b, d).
Proof.
  intros E. rewrite (run_result _ _ _ E). f_equal.
  exact (keeps_path_exists (fun d => d) p d _ _ (run_result _ _ _ E)).
Qed.

(** ** What the operating system calls guarantee when they return *)

Lemma open_wb_ok q d f d' :
  Os.open_wb q d = (Ok f, d') ->
  f = {| Os.wloc := Os.locate q |}
  /\ d' = <[Os.locate q := Os.File []]> d
  /\ Str.is_empty q = false /\ Str.endswith_sep q = false
  /\ Os.node_at d (Os.locate q) <> Some Os.Dir
  /\ Os.reach d q = Ok tt.
Proof.
  unfold Os.open_wb. intros E.
  destruct (Os.reach d q) as [[]|e] eqn:Hr; [| discriminate].
  apply reach_nonempty in Hr.
  destruct (Str.endswith_sep q); [discriminate |].
  destruct (Os.node_at d (Os.locate q)) as [[|c]|] eqn:Hq; [discriminate | |];
    injection E as <- <-; repeat split; congruence.
Qed.

Lemma rename_ok src dst d d' :
  Os.rename src dst d = (Ok tt, d') ->
  exists c,
    Os.node_at d (Os.locate src) = Some (Os.File c)
    /\ d' = <[Os.locate dst := Os.File c]> (delete (Os.locate src) d)
    /\ Str.is_empty dst = false /\ Str.endswith_sep dst = false
    /\ Os.node_at d (Os.locate dst) <> Some Os.Dir
    /\ Os.reach d' dst = Ok tt.
Proof.
  unfold Os.rename. intros E.
  destruct (Os.reach d src) as [[]|e]; [| discriminate].
  destruct (Os.reach d dst) as [[]|e] eqn:Hr; [| discriminate].
  pose proof (reach_nonempty _ _ _ Hr) as Hemp.
  destruct (Os.node_at d (Os.locate src)) as [[|c]|] eqn:Hsrc;
    try discriminate.
  destruct (Str.endswith_sep src); [discriminate |].
  destruct (Str.endswith_sep dst); [discriminate |]. simpl in E.
  exists c.
  assert (Hgoal : Os.node_at d (Os.locate dst) <> Some Os.Dir ->
                  Os.reach (<[Os.locate dst := Os.File c]>
                              (delete (Os.locate src) d)) dst = Ok tt).
  { intros Hdir. eapply reach_mono; [| exact Hr].
    intros k Hk. apply dirs_insert_file.
    - intros Hn. apply Hdir. unfold Os.node_at in *.
      destruct (snd (Os.locate dst)); [reflexivity |].
      destruct (decide (Os.locate src = Os.locate dst)) as [Heq|Hne].
      + now rewrite Heq, lookup_delete_eq in Hn.
      + now rewrite lookup_delete_ne in Hn.
    - eapply dirs_delete_file; eassumption. }
  destruct (Os.node_at d (Os.locate dst)) as [[|c0]|] eqn:Hq.
  - destruct (Os.inside (Os.locate dst) (Os.locate src)); discriminate.
  - injection E as <-. repeat split; try congruence. now apply Hgoal.
  - injection E as <-. repeat split; try congruence. now apply Hgoal.
Qed.

(** [rename] of a staged file onto a target that is not a directory. *)
Lemma rename_runs src dst d c :
  Os.reach d src = Ok tt -> Os.reach d dst = Ok tt ->
  Os.node_at d (Os.locate src) = Some (Os.File c) ->
  Str.endswith_sep src = false -> Str.endswith_sep dst = false ->
  Os.node_at d (Os.locate dst) <> Some Os.Dir ->
  Os.rename src dst d
  = (Ok tt, <[Os.locate dst := Os.File c]> (delete (Os.locate src) d)).
Proof.
  intros Hs Hd Hn Hss Hsd Hdir. unfold Os.rename.
  rewrite Hs, Hd, Hn, Hss, Hsd. simpl.
  destruct (Os.node_at d (Os.locate dst)) as [[|c0]|]; congruence.
Qed.

Lemma open_rb_file p d r d' :
  Os.open_rb p d = (Ok r, d') -> Os.file_at d p = Some (pending r).
Proof.
  unfold Os.open_rb, Os.file_at. intros E.
  destruct (Os.reach d p) as [[]|e]; [| discriminate].
  destruct (Os.node_at d (Os.locate p)) as [[|c]|]; try discriminate.
  destruct (Str.endswith_sep p); [discriminate |].
  now injection E as <- _.
Qed.

(** [open(p, "rb")] of a regular file. *)
Lemma open_rb_runs p d c :
  Os.reach d p = Ok tt ->
  Os.node_at d (Os.locate p) = Some (Os.File c) ->
  Str.endswith_sep p = false ->
  Os.open_rb p d = (Ok (BytesIO c), d).
Proof. intros Hr Hn Hs. unfold Os.open_rb. now rewrite Hr, Hn, Hs. Qed.

(** ** The recursion of [makedirs] terminates *)

Lemma mkdir_no_diverge p d d' : Os.mkdir p d <> (Raise Diverged, d').
Proof.
  unfold Os.mkdir. pose proof (reach_no_diverge d p) as Hr.
  destruct (Os.reach d p) as [[]|e]; [| congruence].
  destruct (Os.node_at d (Os.locate p)); discriminate.
Qed.

Lemma makedirs_rec_no_diverge fuel name d d' :
  String.length name < fuel ->
  Os.makedirs_rec fuel name d <> (Raise Diverged, d').
Proof.
  revert name d d'. induction fuel as [|fuel IH]; intros name d d' Hlen; [lia |].
  cbn [Os.makedirs_rec].
  destruct (Os.path_split name) as [head tail] eqn:Hs.
  apply path_split_length in Hs.
  destruct (if Str.is_empty tail then Os.path_split head else (head, tail))
    as [head' tail'] eqn:Hs'.
  assert (Hshort : Str.is_empty tail' = false ->
                   String.length head' < String.length name).
  { intros Ht. apply is_empty_false_length in Ht.
    destruct (Str.is_empty tail).
    - apply path_split_length in Hs'. lia.
    - injection Hs' as <- <-. lia. }
  intros E. apply bind_raise in E as [E | (stop & d1 & _ & E)].
  - destruct (Str.is_empty head'); [discriminate |].
    destruct (Str.is_empty tail') eqn:Ht; [discriminate |]. simpl in E.
    destruct (path_exists_ok head' d) as [b Hb].
    erewrite bind_step in E by exact Hb.
    destruct b; [discriminate |].
    apply bind_raise in E as [E | (? & d2 & _ & E)]; [| discriminate].
    destruct (Os.makedirs_rec fuel head' d) as [[u|e] d0] eqn:Er;
      [discriminate |].
    assert (e = Diverged) as ->.
    { destruct e; try discriminate; reflexivity. }
    revert Er. apply IH. specialize (Hshort eq_refl). lia.
  - destruct stop; [discriminate |]. revert E. apply mkdir_no_diverge.
Qed.

Lemma makedirs_no_diverge name d d' : Os.makedirs name d <> (Raise Diverged, d').
Proof. apply makedirs_rec_no_diverge. lia. Qed.

Lemma open_wb_no_diverge p d d' : Os.open_wb p d <> (Raise Diverged, d').
Proof.
  unfold Os.open_wb. pose proof (reach_no_diverge d p) as Hr.
  destruct (Os.reach d p) as [[]|e]; [| congruence].
  repeat match goal with
         | |- (if ?c then _ else _) <> _ => destruct c
         | |- match ?x with _ => _ end <> _ => destruct x
         end; discriminate.
Qed.

Lemma rename_no_diverge src dst d d' :
  Os.rename src dst d <> (Raise Diverged, d').
Proof.
  unfold Os.rename.
  pose proof (reach_no_diverge d src) as Hs.
  pose proof (reach_no_diverge d dst) as Hd.
  destruct (Os.reach d src) as [[]|e]; [| congruence].
  destruct (Os.reach d dst) as [[]|e]; [| congruence].
  repeat match goal with
         | |- (if ?c then _ else _) <> _ => destruct c
         | |- match ?x with _ => _ end <> _ => destruct x
         end; discriminate.
Qed.

(** ** Streams *)

Lemma Reader_read_ok fp size b fp' :
  Reader_read fp size = Ok (b, fp') ->
  let n := if (size <? 0)%Z then length (pending fp) else Z.to_nat size in
  b = take n (pending fp) /\ pending fp' = drop n (pending fp)
  /\ fault fp' = Nat.pred <$> fault fp.
Proof.
  unfold Reader_read. intros E.
  destruct (fault fp) as [[|k]|]; try discriminate;
    injection E as <- <-; simpl; auto.
Qed.

Lemma Reader_read_healthy fp size :
  fault fp = None ->
  let n := if (size <? 0)%Z then length (pending fp) else Z.to_nat size in
  Reader_read fp size
  = Ok (take n (pending fp), {| pending := drop n (pending fp); fault := None |}).
Proof. unfold Reader_read. now intros ->. Qed.

Lemma Reader_read_raise fp size e :
  Reader_read fp size = Raise e -> e = OSError "read failed".
Proof.
  unfold Reader_read. destruct (fault fp) as [[|k]|]; try discriminate.
  now intros [= <-].
Qed.

Lemma nonempty_false (b : list byte) : nonempty b = false -> b = [].
Proof. now destruct b. Qed.

Lemma nonempty_true (b : list byte) : nonempty b = true -> b <> [].
Proof. now destruct b. Qed.

Lemma take_nonempty_drop (n : nat) (l : list byte) :
  nonempty (take n l) = true -> length (drop n l) < length l.
Proof.
  intros H. apply nonempty_true in H. rewrite length_drop.
  destruct n as [|k]; [now rewrite take_0 in H |].
  destruct l; [now rewrite take_nil in H | simpl; lia].
Qed.

Lemma read_all_BytesIO {W} (data : list byte) (w : W) :
  BaseCDN.read_all (BytesIO data) w = (Ok data, w).
Proof.
  unfold BaseCDN.read_all, lift, Reader_read. simpl.
  now rewrite take_ge by lia.
Qed.

Lemma read_all_ok {W} (resp : Reader) (w : W) :
  fault resp <> Some 0 -> BaseCDN.read_all resp w = (Ok (pending resp), w).
Proof.
  intros Hf. unfold BaseCDN.read_all, lift, Reader_read.
  destruct (fault resp) as [[|k]|]; [congruence | |];
    simpl; now rewrite take_ge by lia.
Qed.

Lemma read_all_raise {W} (resp : Reader) (w : W) e w' :
  BaseCDN.read_all resp w = (Raise e, w') -> is_integrity_error e = false.
Proof.
  unfold BaseCDN.read_all, lift, Reader_read.
  destruct (fault resp) as [[|k]|]; simpl; intros E; try discriminate.
  now injection E as <- _.
Qed.

(** ** The cache writer *)

Lemma init_fields fp path d f d' :
  HTTPCacheWrapper.__init__ fp path d = (Ok f, d') ->
  f = {| HTTPCacheWrapper.fp := fp;
         HTTPCacheWrapper._real_path := path;
         HTTPCacheWrapper._temp_path := path +:+ ".keg_temp";
         HTTPCacheWrapper._cache_file :=
           {| Os.wloc := Os.locate (path +:+ ".keg_temp") |} |}.
Proof.
  unfold HTTPCacheWrapper.__init__. intros E.
  apply bind_ok in E as (e & d1 & _ & E).
  apply bind_ok in E as (? & d2 & _ & E).
  apply bind_ok in E as (w & d3 & Ho & E).
  unfold ret in E. injection E as <- _.
  unfold Os.open_wb in Ho.
  repeat match type of Ho with
         | (if ?c then _ else _) = _ => destruct c; [discriminate |]
         | match ?x with _ => _ end = _ => destruct x; try discriminate
         end; injection Ho as <- _; reflexivity.
Qed.

Lemma init_staged fp path d f d' :
  HTTPCacheWrapper.__init__ fp path d = (Ok f, d') ->
  d' !! Os.locate (path +:+ ".keg_temp") = Some (Os.File [])
  /\ Os.reach d' (path +:+ ".keg_temp") = Ok tt.
Proof.
  unfold HTTPCacheWrapper.__init__. intros E.
  apply bind_ok in E as (e & d1 & _ & E).
  apply bind_ok in E as (? & d2 & _ & E).
  apply bind_ok in E as (w & d3 & Ho & E).
  unfold ret in E. injection E as _ <-.
  apply open_wb_ok in Ho as (_ & -> & _ & _ & _ & Hp).
  split; [apply lookup_insert_eq |].
  rewrite reach_insert; [exact Hp | reflexivity].
Qed.

Lemma init_nonempty fp path d f d' :
  HTTPCacheWrapper.__init__ fp path d = (Ok f, d') -> Str.is_empty path = false.
Proof. destruct path; [discriminate | reflexivity]. Qed.

Lemma keeps_init (p : string) (fp : Reader) :
  keeps (fun d => Os.file_at d p) (HTTPCacheWrapper.__init__ fp p).
Proof.
  unfold HTTPCacheWrapper.__init__.
  apply keeps_bind; [apply keeps_path_exists |]. intros e.
  apply keeps_bind.
  { apply keeps_if; [apply keeps_makedirs | apply keeps_ret]. }
  intros _. apply keeps_bind; [| intros; apply keeps_ret].
  apply keeps_open_wb, locate_staging_ne.
Qed.

Lemma read_unfold (self : HTTPCacheWrapper.t) (size : Z) (d : Os.Disk) :
  HTTPCacheWrapper.read self size d
  = match Reader_read (HTTPCacheWrapper.fp self) size with
    | Ok (b, fp') =>
        (Ok (b, HTTPCacheWrapper.set_fp self fp'),
         if nonempty b
         then alter (Os.append b) (Os.wloc (HTTPCacheWrapper._cache_file self)) d
         else d)
    | Raise e => (Raise e, d)
    end.
Proof.
  unfold HTTPCacheWrapper.read.
  assert ((if (size =? -1)%Z then Reader_read (HTTPCacheWrapper.fp self) (-1)
           else Reader_read (HTTPCacheWrapper.fp self) size)
          = Reader_read (HTTPCacheWrapper.fp self) size) as ->.
  { destruct (Z.eqb_spec size (-1)); [subst |]; reflexivity. }
  unfold bind, lift.
  destruct (Reader_read (HTTPCacheWrapper.fp self) size) as [[b fp']|e];
    [| reflexivity].
  destruct (nonempty b); reflexivity.
Qed.

Lemma keeps_drain (p : string) (fuel : nat) (self : HTTPCacheWrapper.t) :
  Os.wloc (HTTPCacheWrapper._cache_file self) <> Os.locate p ->
  keeps (fun d => Os.file_at d p) (HTTPCacheWrapper.drain fuel self).
Proof.
  revert self. induction fuel as [|fuel IH]; intros self Hne.
  - apply keeps_raise.
  - intros d r d' E. cbn [HTTPCacheWrapper.drain] in E.
    unfold bind in E. rewrite read_unfold in E.
    destruct (Reader_read (HTTPCacheWrapper.fp self) 8192) as [[b fp']|e].
    + destruct (nonempty b); simpl in E.
      * apply IH in E; [| exact Hne]. simpl in E. rewrite E.
        now apply file_at_alter_ne.
      * injection E as _ <-. reflexivity.
    + injection E as _ <-. reflexivity.
Qed.

Lemma drain_ok fuel self d self' d' :
  HTTPCacheWrapper.drain fuel self d = (Ok self', d') ->
  let w := Os.wloc (HTTPCacheWrapper._cache_file self) in
  HTTPCacheWrapper._real_path self' = HTTPCacheWrapper._real_path self
  /\ HTTPCacheWrapper._temp_path self' = HTTPCacheWrapper._temp_path self
  /\ (forall c, d !! w = Some (Os.File c) ->
        d' !! w
        = Some (Os.File (c ++ pending (HTTPCacheWrapper.fp self))))
  /\ (forall k, k <> w -> d' !! k = d !! k).
Proof.
  revert self d. induction fuel as [|fuel IH]; intros self d E;
    [discriminate |].
  cbn [HTTPCacheWrapper.drain] in E. unfold bind in E.
  rewrite read_unfold in E.
  destruct (Reader_read (HTTPCacheWrapper.fp self) 8192) as [[b fp']|e] eqn:Er;
    [| discriminate].
  apply Reader_read_ok in Er as (Hb & Hp & _).
  change (8192 <? 0)%Z with false in Hb, Hp. cbv iota in Hb, Hp.
  destruct (nonempty b) eqn:Hn; simpl in E.
  - apply IH in E as (H1 & H2 & H3 & H4). simpl in *.
    repeat split; [exact H1 | exact H2 | |].
    + intros c Hc. rewrite (H3 (c ++ b)).
      * rewrite Hp, Hb, <- app_assoc, take_drop. reflexivity.
      * rewrite lookup_alter_eq, Hc. reflexivity.
    + intros k Hk. rewrite (H4 k Hk). now apply lookup_alter_ne.
  - injection E as <- <-. simpl. repeat split; try reflexivity.
    intros c Hc. rewrite Hc. apply nonempty_false in Hn.
    rewrite Hn in Hb. symmetry in Hb. apply take_nil_inv in Hb as [Hz | ->].
    + lia.
    + now rewrite app_nil_r.
Qed.

Lemma drain_frame fuel self d self' d' k :
  HTTPCacheWrapper.drain fuel self d = (Ok self', d') ->
  k <> Os.wloc (HTTPCacheWrapper._cache_file self) ->
  Os.node_at d' k = Os.node_at d k.
Proof.
  intros E Hk. apply drain_ok in E as (_ & _ & _ & Hfr).
  unfold Os.node_at. destruct (snd k); [reflexivity |]. now apply Hfr.
Qed.

(** The drain loop is given fuel for one turn more than the source has
    pending bytes.  It never runs out; a source that does not raise is
    drained to its end, and a source that raises stops the loop. *)

Lemma drain_no_diverge fuel self d d' :
  length (pending (HTTPCacheWrapper.fp self)) < fuel ->
  HTTPCacheWrapper.drain fuel self d <> (Raise Diverged, d').
Proof.
  revert self d. induction fuel as [|fuel IH]; intros self d Hlen; [lia |].
  cbn [HTTPCacheWrapper.drain]. unfold bind. rewrite read_unfold.
  destruct (Reader_read (HTTPCacheWrapper.fp self) 8192) as [[b fp']|e] eqn:Er.
  - apply Reader_read_ok in Er as (Hb & Hp & _).
    change (8192 <? 0)%Z with false in Hb, Hp. cbv iota in Hb, Hp.
    destruct (nonempty b) eqn:Hn; simpl; [| discriminate].
    apply IH. simpl. rewrite Hp. subst b.
    apply take_nonempty_drop in Hn. lia.
  - apply Reader_read_raise in Er. subst e. discriminate.
Qed.

Lemma drain_healthy fuel self d :
  fault (HTTPCacheWrapper.fp self) = None ->
  length (pending (HTTPCacheWrapper.fp self)) < fuel ->
  exists self' d', HTTPCacheWrapper.drain fuel self d = (Ok self', d').
Proof.
  revert self d. induction fuel as [|fuel IH]; intros self d Hf Hlen; [lia |].
  cbn [HTTPCacheWrapper.drain]. unfold bind. rewrite read_unfold.
  rewrite (Reader_read_healthy _ 8192 Hf).
  change (8192 <? 0)%Z with false. cbv iota.
  destruct (nonempty (take (Z.to_nat 8192)
                        (pending (HTTPCacheWrapper.fp self)))) eqn:Hn; simpl.
  - apply IH; [reflexivity |]. simpl.
    apply take_nonempty_drop in Hn. lia.
  - eauto.
Qed.

Lemma drain_faulty n fuel self d :
  fault (HTTPCacheWrapper.fp self) = Some n ->
  (Z.of_nat n * 8192
   <= Z.of_nat (length (pending (HTTPCacheWrapper.fp self))))%Z ->
  n < fuel ->
  exists d',
    HTTPCacheWrapper.drain fuel self d = (Raise (OSError "read failed"), d').
Proof.
  revert fuel self d.
  induction n as [|n IH]; intros fuel self d Hf Hlen Hfuel;
    (destruct fuel as [|fuel]; [lia |]);
    cbn [HTTPCacheWrapper.drain]; unfold bind; rewrite read_unfold;
    unfold Reader_read; rewrite Hf.
  - eauto.
  - change (8192 <? 0)%Z with false. cbv iota.
    destruct (nonempty (take (Z.to_nat 8192)
                          (pending (HTTPCacheWrapper.fp self)))) eqn:Hn.
    + simpl. apply IH; simpl; [reflexivity | | lia].
      rewrite length_drop. lia.
    + apply nonempty_false, take_nil_inv in Hn as [Hn | Hn]; [lia |].
      rewrite Hn in Hlen. simpl in Hlen. lia.
Qed.

Lemma close_no_diverge f d d' :
  HTTPCacheWrapper.close f d <> (Raise Diverged, d').
Proof.
  unfold HTTPCacheWrapper.close. intros E.
  apply bind_raise in E as [E | (f' & d1 & _ & E)].
  - revert E. apply drain_no_diverge. lia.
  - apply bind_raise in E as [E | (? & d2 & _ & E)]; [| discriminate].
    revert E. apply rename_no_diverge.
Qed.

(** When [close] raises, the file at the target is the one that was there
    before the wrapper was created. *)
Lemma close_raise_keeps_target fp path d f d1 e d' :
  HTTPCacheWrapper.__init__ fp path d = (Ok f, d1) ->
  HTTPCacheWrapper.close f d1 = (Raise e, d') ->
  Os.file_at d' path = Os.file_at d path.
Proof.
  intros Ei Ec.
  pose proof (init_fields _ _ _ _ _ Ei) as Hf.
  apply keeps_init in Ei. simpl in Ei. rewrite <- Ei.
  unfold HTTPCacheWrapper.close in Ec.
  apply bind_raise in Ec as [Ed | (f' & d2 & Ed & Ec)].
  - eapply (keeps_drain path) in Ed; [exact Ed |].
    subst f. simpl. apply locate_staging_ne.
  - eapply (keeps_drain path) in Ed;
      [| subst f; simpl; apply locate_staging_ne].
    simpl in Ed. rewrite <- Ed.
    apply bind_raise in Ec as [Er | (? & d3 & _ & Er)].
    + apply rename_raise_same in Er. now subst.
    + discriminate.
Qed.

Lemma close_faulty fp path d f d1 n :
  HTTPCacheWrapper.__init__ fp path d = (Ok f, d1) ->
  fault fp = Some n ->
  (Z.of_nat n * 8192 <= Z.of_nat (length (pending fp)))%Z ->
  exists d',
    HTTPCacheWrapper.close f d1 = (Raise (OSError "read failed"), d').
Proof.
  intros Ei Hf Hlen. apply init_fields in Ei. subst f.
  set (f := {| HTTPCacheWrapper.fp := fp;
               HTTPCacheWrapper._real_path := path;
               HTTPCacheWrapper._temp_path := path +:+ ".keg_temp";
               HTTPCacheWrapper._cache_file :=
                 {| Os.wloc := Os.locate (path +:+ ".keg_temp") |} |}).
  destruct (drain_faulty n (S (length (pending fp))) f d1 Hf Hlen)
    as [d' Hd]; [lia |].
  exists d'. unfold HTTPCacheWrapper.close.
  erewrite bind_fail by exact Hd. reflexivity.
Qed.

Lemma close_ok f d d' :
  HTTPCacheWrapper.close f d = (Ok tt, d') ->
  Os.wloc (HTTPCacheWrapper._cache_file f)
    = Os.locate (HTTPCacheWrapper._temp_path f) ->
  snd (Os.locate (HTTPCacheWrapper._temp_path f)) <> [] ->
  forall c,
    d !! Os.locate (HTTPCacheWrapper._temp_path f) = Some (Os.File c) ->
    Os.open_rb (HTTPCacheWrapper._real_path f) d'
    = (Ok (BytesIO (c ++ pending (HTTPCacheWrapper.fp f))), d').
Proof.
  unfold HTTPCacheWrapper.close. intros E Hw Hne c Hc.
  apply bind_ok in E as (f' & d1 & Ed & E).
  apply bind_ok in E as ([] & d2 & Er & E).
  unfold ret in E. injection E as ->.
  apply drain_ok in Ed as (Hreal & Htemp & Hcontent & _).
  rewrite Hw in Hcontent. specialize (Hcontent c Hc).
  rewrite Hreal, Htemp in Er.
  apply rename_ok in Er as (c' & Hsrc & -> & Hempty & Hsep & Hdir & Hreach).
  rewrite node_at_lookup, Hcontent in Hsrc by exact Hne.
  injection Hsrc as <-.
  apply open_rb_runs; [exact Hreach | | exact Hsep].
  apply node_at_not_dir in Hdir.
  now rewrite node_at_lookup, lookup_insert_eq by exact Hdir.
Qed.

(** Once the wrapper has been created, a source that does not raise and a
    target that is not a directory are enough for [close] to return; the
    target then holds the payload. *)
Lemma close_succeeds fp path d f d1 :
  HTTPCacheWrapper.__init__ fp path d = (Ok f, d1) ->
  fault fp = None ->
  Str.endswith_sep path = false ->
  Os.node_at d1 (Os.locate path) <> Some Os.Dir ->
  exists d', HTTPCacheWrapper.close f d1 = (Ok tt, d')
             /\ Os.file_at d' path = Some (pending fp).
Proof.
  intros Ei Hf Hsep Hdir.
  pose proof (init_fields _ _ _ _ _ Ei) as Hfields.
  pose proof (init_nonempty _ _ _ _ _ Ei) as Hemp.
  apply init_staged in Ei as [Hstaged Hreach]. subst f.
  set (f := {| HTTPCacheWrapper.fp := fp;
               HTTPCacheWrapper._real_path := path;
               HTTPCacheWrapper._temp_path := path +:+ ".keg_temp";
               HTTPCacheWrapper._cache_file :=
                 {| Os.wloc := Os.locate (path +:+ ".keg_temp") |} |}).
  destruct (drain_healthy (S (length (pending fp))) f d1 Hf) as (f' & d2 & Ed);
    [simpl; lia |].
  pose proof (drain_ok _ _ _ _ _ Ed) as (Hreal & Htemp & Hcontent & Hframe).
  specialize (Hcontent [] Hstaged). simpl in Hreal, Htemp, Hcontent, Hframe.
  assert (Hdst : Os.node_at d2 (Os.locate path) = Os.node_at d1 (Os.locate path)).
  { eapply drain_frame; [exact Ed |]. simpl.
    intros E. symmetry in E. revert E. apply locate_staging_ne. }
  assert (Hsrc : Os.reach d2 (path +:+ ".keg_temp") = Ok tt).
  { eapply reach_mono; [| exact Hreach].
    intros k Hk. rewrite Hframe; [exact Hk |]. intros ->. congruence. }
  assert (Htgt : Os.reach d2 path = Ok tt).
  { eapply reach_sibling; [apply components_staging | | | exact Hemp | exact Hsrc].
    - rewrite components_last, last_split_empty, Hemp, Hsep. reflexivity.
    - destruct path; [discriminate | reflexivity]. }
  exists (<[Os.locate path := Os.File (pending fp)]>
            (delete (Os.locate (path +:+ ".keg_temp")) d2)).
  split.
  - unfold HTTPCacheWrapper.close. fold f.
    erewrite bind_step by exact Ed. rewrite Hreal, Htemp.
    erewrite bind_step; [reflexivity |].
    apply rename_runs; try assumption.
    + rewrite node_at_lookup by apply locate_staging_snd. exact Hcontent.
    + apply staging_not_dirlike.
    + now rewrite Hdst.
  - unfold Os.file_at.
    rewrite node_at_lookup by (now apply node_at_not_dir in Hdir).
    now rewrite lookup_insert_eq.
Qed.

(** *** The staging path *)

(** C2, as stated, fails: two writers created one after the other for the
    target ["cache/item"] open the same staging path. *)
Lemma cache_writer_staging_shared :
  let d1 := snd (HTTPCacheWrapper.__init__ (BytesIO [x01]) "cache/item" ∅) in
  let d2 := snd (HTTPCacheWrapper.__init__ (BytesIO [x02]) "cache/item" d1) in
  exists f1 f2,
    HTTPCacheWrapper.__init__ (BytesIO [x01]) "cache/item" ∅ = (Ok f1, d1)
    /\ HTTPCacheWrapper.__init__ (BytesIO [x02]) "cache/item" d1 = (Ok f2, d2)
    /\ HTTPCacheWrapper._temp_path f1 = "cache/item.keg_temp"
    /\ HTTPCacheWrapper._temp_path f2 = "cache/item.keg_temp".
Proof.
  intros d1 d2. do 2 eexists.
  split; [apply run_result; vm_compute; reflexivity |].
  split; [apply run_result; vm_compute; reflexivity |].
  split; reflexivity.
Qed.

(** C2 (amended): the cache writer stages into the target path with the
    fixed suffix [".keg_temp"].  Writers created for the same target path
    open the same staging path; writers created for different target paths
    open different staging paths. *)
Theorem cache_writer_staging_path fp1 fp2 p1 p2 d1 d2 f1 f2 d1' d2' :
  HTTPCacheWrapper.__init__ fp1 p1 d1 = (Ok f1, d1') ->
  HTTPCacheWrapper.__init__ fp2 p2 d2 = (Ok f2, d2') ->
  HTTPCacheWrapper._temp_path f1 = p1 +:+ ".keg_temp"
  /\ HTTPCacheWrapper._temp_path f2 = p2 +:+ ".keg_temp"
  /\ (HTTPCacheWrapper._temp_path f1 = HTTPCacheWrapper._temp_path f2
      <-> p1 = p2).
Proof.
  intros E1 E2.
  apply init_fields in E1 as ->. apply init_fields in E2 as ->. simpl.
  repeat split.
  - apply append_inv_suffix.
  - now intros ->.
Qed.

Lemma cache_writer_staging_path_witness :
  let d1 := snd (HTTPCacheWrapper.__init__ (BytesIO [x01]) "cache/a" ∅) in
  exists f1 f2,
    HTTPCacheWrapper._temp_path f1 = "cache/a" +:+ ".keg_temp"
    /\ HTTPCacheWrapper._temp_path f2 = "cache/b" +:+ ".keg_temp"
    /\ (HTTPCacheWrapper._temp_path f1 = HTTPCacheWrapper._temp_path f2
        <-> "cache/a" = "cache/b").
Proof.
  intros d1. do 2 eexists.
  eapply (cache_writer_staging_path (BytesIO [x01]) (BytesIO [x02])
            "cache/a" "cache/b" ∅ d1);
    apply run_result; vm_compute; reflexivity.
Defined.

(** *** The round trip *)

(** What [save_item] has written is what [get_item] reads back. *)
Lemma save_item_then_get_item (self : LocalCDN.t) item path d d' :
  LocalCDN.save_item self item path d = (Ok tt, d') ->
  (let* resp := LocalCDN.get_item self path in BaseCDN.read_all resp) d'
  = (Ok (pending item), d').
Proof.
  unfold LocalCDN.save_item, LocalCDN.get_item. intros E.
  apply bind_ok in E as (f & d1 & Ei & Ec).
  pose proof (init_fields _ _ _ _ _ Ei) as Hf.
  apply init_staged in Ei as [Hs _]. subst f.
  pose proof (close_ok _ _ _ Ec eq_refl (locate_staging_snd _) [] Hs) as Ho.
  simpl in Ho. erewrite bind_step by exact Ho.
  apply read_all_BytesIO.
Qed.

(** The fuel of the model never runs out in [save_item]. *)
Lemma save_item_no_diverge (self : LocalCDN.t) item path d d' :
  LocalCDN.save_item self item path d <> (Raise Diverged, d').
Proof.
  unfold LocalCDN.save_item, HTTPCacheWrapper.__init__. intros E.
  apply bind_raise in E as [E | (f & d1 & _ & E)].
  - destruct (path_exists_ok
                (Os.path_dirname (LocalCDN.get_full_path self path)) d)
      as [b Hb].
    erewrite bind_step in E by exact Hb.
    apply bind_raise in E as [E | (? & d2 & _ & E)].
    + destruct b; [discriminate |]. revert E. apply makedirs_no_diverge.
    + apply bind_raise in E as [E | (? & d3 & _ & E)]; [| discriminate].
      revert E. apply open_wb_no_diverge.
  - revert E. apply close_no_diverge.
Qed.

(** ** The temp store *)

Lemma copy_chunks_ok fuel fp f (n : Z) d d' :
  (0 < n)%Z ->
  LocalCDN.copy_chunks fuel fp f n d = (Ok tt, d') ->
  forall c, d !! Os.wloc f = Some (Os.File c) ->
    d' !! Os.wloc f = Some (Os.File (c ++ pending fp)).
Proof.
  intros Hn. revert fp d. induction fuel as [|fuel IH]; intros fp d E c Hc;
    [discriminate |].
  cbn [LocalCDN.copy_chunks] in E. unfold bind, lift in E.
  destruct (Reader_read fp n) as [[b fp']|e] eqn:Er; [| discriminate].
  apply Reader_read_ok in Er as (Hb & Hp & _).
  destruct (Z.ltb_spec n 0) as [|_]; [lia |].
  destruct (nonempty b) eqn:Hne.
  - unfold Os.write in E. simpl in E.
    rewrite (IH _ _ E (c ++ b)).
    + rewrite Hp, Hb, <- app_assoc, take_drop. reflexivity.
    + rewrite lookup_alter_eq, Hc. reflexivity.
  - injection E as <-. rewrite Hc. apply nonempty_false in Hne.
    rewrite Hne in Hb. symmetry in Hb. apply take_nil_inv in Hb as [Hz | ->].
    + lia.
    + now rewrite app_nil_r.
Qed.

Lemma copy_chunks_zero fuel fp f d d' :
  LocalCDN.copy_chunks fuel fp f 0 d = (Ok tt, d') -> d' = d.
Proof.
  destruct fuel as [|fuel]; [discriminate |].
  cbn [LocalCDN.copy_chunks]. unfold bind, lift. intros E.
  destruct (Reader_read fp 0) as [[b fp']|e] eqn:Er; [| discriminate].
  apply Reader_read_ok in Er as (Hb & _). simpl in Hb. subst b.
  simpl in E. now injection E as <-.
Qed.

Lemma copy_chunks_healthy fuel fp f (n : Z) d :
  fault fp = None -> (0 <= n)%Z -> length (pending fp) < fuel ->
  exists d', LocalCDN.copy_chunks fuel fp f n d = (Ok tt, d').
Proof.
  intros Hf Hn. revert fp d Hf.
  induction fuel as [|fuel IH]; intros fp d Hf Hlen; [lia |].
  cbn [LocalCDN.copy_chunks]. unfold bind, lift.
  rewrite (Reader_read_healthy fp n Hf).
  destruct (Z.ltb_spec n 0) as [|_]; [lia |].
  destruct (nonempty (take (Z.to_nat n) (pending fp))) eqn:Hne.
  - unfold Os.write at 1. cbv beta iota.
    apply IH; [reflexivity |]. simpl. rewrite length_drop.
    apply nonempty_true in Hne.
    destruct (Z.to_nat n) as [|k]; [now rewrite take_0 in Hne |].
    destruct (pending fp); [now rewrite take_nil in Hne | simpl in *; lia].
  - eauto.
Qed.

Lemma copy_chunks_no_diverge fuel fp f (n : Z) d d' :
  (0 <= n)%Z -> length (pending fp) < fuel ->
  LocalCDN.copy_chunks fuel fp f n d <> (Raise Diverged, d').
Proof.
  intros Hn. revert fp d. induction fuel as [|fuel IH]; intros fp d Hlen;
    [lia |].
  cbn [LocalCDN.copy_chunks]. unfold bind, lift.
  destruct (Reader_read fp n) as [[b fp']|e] eqn:Er.
  - apply Reader_read_ok in Er as (Hb & Hp & _).
    destruct (Z.ltb_spec n 0) as [|_]; [lia |].
    destruct (nonempty b) eqn:Hne; [| discriminate].
    unfold Os.write at 1. cbv beta iota. apply IH. rewrite Hp. subst b.
    apply take_nonempty_drop in Hne. lia.
  - apply Reader_read_raise in Er. subst e. discriminate.
Qed.

(** What [write_temp_file] has done when it returns. *)
Lemma write_temp_file_ok (self : LocalCDN.t) fp buf uuid d p d' :
  LocalCDN.write_temp_file self fp buf uuid d = (Ok p, d') ->
  p = Os.path_join (LocalCDN.temp_dir self) uuid
  /\ Str.is_empty p = false /\ Str.endswith_sep p = false
  /\ snd (Os.locate p) <> []
  /\ d' !! Os.locate p
     = Some (Os.File (if (buf =? 0)%Z then [] else pending fp)).
Proof.
  unfold LocalCDN.write_temp_file. intros E.
  apply bind_ok in E as (e & d1 & _ & E).
  apply bind_ok in E as (? & d2 & _ & E).
  apply bind_ok in E as (f & d3 & Ho & E).
  apply bind_ok in E as ([] & d4 & Ew & E).
  unfold ret in E. injection E as <- <-.
  apply open_wb_ok in Ho as (-> & -> & Hemp & Hsep & Hdir & _).
  apply node_at_not_dir in Hdir.
  repeat split; try assumption.
  set (loc := Os.locate (Os.path_join (LocalCDN.temp_dir self) uuid)) in *.
  assert (Hc : (<[loc := Os.File []]> d2 : Os.Disk) !! loc = Some (Os.File []))
    by apply lookup_insert_eq.
  destruct (Z.ltb_spec buf 0) as [Hneg | Hpos].
  - apply bind_ok in Ew as ([data fp'] & d5 & Er & Ew).
    unfold lift in Er. injection Er as Er <-.
    apply Reader_read_ok in Er as (Hb & _).
    change (-1 <? 0)%Z with true in Hb. cbv iota in Hb.
    rewrite take_ge in Hb by lia. subst data.
    unfold Os.write in Ew. injection Ew as <-. simpl.
    rewrite lookup_alter_eq, Hc.
    destruct (Z.eqb_spec buf 0); [lia | reflexivity].
  - destruct (Z.eqb_spec buf 0) as [-> | Hnz].
    + apply copy_chunks_zero in Ew. now subst d4.
    + eapply copy_chunks_ok in Ew; [| lia | exact Hc]. exact Ew.
Qed.

(** [write_temp_file] returns when the temp directory exists, the temp file
    can be opened there and the source does not raise. *)
Lemma write_temp_file_runs (self : LocalCDN.t) fp buf uuid d f d1 :
  fault fp = None ->
  Os.path_exists (LocalCDN.temp_dir self) d = (Ok true, d) ->
  Os.open_wb (Os.path_join (LocalCDN.temp_dir self) uuid) d = (Ok f, d1) ->
  exists d',
    LocalCDN.write_temp_file self fp buf uuid d
    = (Ok (Os.path_join (LocalCDN.temp_dir self) uuid), d').
Proof.
  intros Hf He Ho. unfold LocalCDN.write_temp_file.
  erewrite bind_step by exact He. simpl.
  erewrite bind_step by reflexivity.
  erewrite bind_step by exact Ho.
  destruct (Z.ltb_spec buf 0) as [Hneg | Hpos].
  - unfold bind at 2, lift. rewrite (Reader_read_healthy fp (-1) Hf).
    unfold Os.write, bind, ret. eauto.
  - destruct (copy_chunks_healthy (S (length (pending fp))) fp f buf d1 Hf Hpos)
      as [d' Hd']; [lia |].
    erewrite bind_step by exact Hd'. unfold ret. eauto.
Qed.

(** Nor in [write_temp_file]. *)
Lemma write_temp_file_no_diverge (self : LocalCDN.t) fp buf uuid d d' :
  LocalCDN.write_temp_file self fp buf uuid d <> (Raise Diverged, d').
Proof.
  unfold LocalCDN.write_temp_file. intros E.
  destruct (path_exists_ok (LocalCDN.temp_dir self) d) as [b Hb].
  erewrite bind_step in E by exact Hb.
  apply bind_raise in E as [E | (? & d2 & _ & E)].
  { destruct b; [discriminate |]. revert E. apply makedirs_no_diverge. }
  apply bind_raise in E as [E | (f & d3 & _ & E)].
  { revert E. apply open_wb_no_diverge. }
  apply bind_raise in E as [E | (? & d4 & _ & E)]; [| discriminate].
  destruct (Z.ltb_spec buf 0) as [Hneg | Hpos].
  - apply bind_raise in E as [E | ([data fp'] & d5 & _ & E)]; [| discriminate].
    unfold lift in E. injection E as E _.
    apply Reader_read_raise in E. discriminate.
  - revert E. apply copy_chunks_no_diverge; [exact Hpos | lia].
Qed.

(** C9: when [write_temp_file] returns, it returns the temp path, and the
    file there is empty if [buf_size = 0], whatever the source holds, and
    holds the whole source if [buf_size < 0] (one read) or [buf_size > 0]
    (reads of [buf_size] bytes).  And it does return when the temp
    directory exists, the temp file can be opened and the source does not
    raise. *)
Theorem write_temp_file_buf_size (self : LocalCDN.t) fp buf uuid d :
  let temp_path := Os.path_join (LocalCDN.temp_dir self) uuid in
  (forall p d',
     LocalCDN.write_temp_file self fp buf uuid d = (Ok p, d') ->
     p = temp_path
     /\ ((buf = 0)%Z -> Os.file_at d' p = Some [])
     /\ ((buf < 0)%Z -> Os.file_at d' p = Some (pending fp))
     /\ ((buf > 0)%Z -> Os.file_at d' p = Some (pending fp)))
  /\ (forall f d1,
        fault fp = None ->
        Os.path_exists (LocalCDN.temp_dir self) d = (Ok true, d) ->
        Os.open_wb temp_path d = (Ok f, d1) ->
        exists d',
          LocalCDN.write_temp_file self fp buf uuid d = (Ok temp_path, d')).
Proof.
  intros temp_path. split.
  - intros p d' E.
    apply write_temp_file_ok in E as (-> & _ & _ & Hne & Hc).
    split; [reflexivity |].
    unfold Os.file_at. rewrite node_at_lookup, Hc by exact Hne.
    repeat split; intros Hb; destruct (Z.eqb_spec buf 0); try lia; reflexivity.
  - intros f d1. apply write_temp_file_runs.
Qed.

Lemma write_temp_file_buf_size_witness :
  let self := LocalCDN.__init__ "cache" "frag" "arm" "tmp" in
  let d : Os.Disk := {[ (false, ["tmp"]) := Os.Dir ]} in
  let fp := BytesIO [x01; x02; x03] in
  exists d0 d2,
    (LocalCDN.write_temp_file self fp 0 "c0ffee" d = (Ok "tmp/c0ffee", d0)
     /\ Os.file_at d0 "tmp/c0ffee" = Some [])
    /\ (LocalCDN.write_temp_file self fp 2 "c0ffee" d = (Ok "tmp/c0ffee", d2)
        /\ Os.file_at d2 "tmp/c0ffee" = Some [x01; x02; x03]).
Proof.
  intros self d fp.
  assert (He : Os.path_exists (LocalCDN.temp_dir self) d = (Ok true, d))
    by (apply path_exists_run; vm_compute; reflexivity).
  assert (Ho : Os.open_wb "tmp/c0ffee" d
               = (Ok {| Os.wloc := (false, ["tmp"; "c0ffee"]) |},
                  snd (Os.open_wb "tmp/c0ffee" d)))
    by (apply run_result; vm_compute; reflexivity).
  destruct (write_temp_file_buf_size self fp 0 "c0ffee" d) as [H0 R0].
  destruct (write_temp_file_buf_size self fp 2 "c0ffee" d) as [H2 R2].
  destruct (R0 _ _ eq_refl He Ho) as [d0 E0].
  destruct (R2 _ _ eq_refl He Ho) as [d2 E2].
  exists d0, d2. split.
  - split; [exact E0 |]. now apply (H0 _ _ E0).
  - split; [exact E2 |]. apply (H2 _ _ E2). lia.
Defined.

(** ** The encrypted object store *)

(** C3, as stated, fails: an object written under a key is found at
    [objects/<key>], not at [objects/<partition(key)>], and
    [has_encrypted_file] answers for the first location. *)
Lemma encrypted_file_not_partitioned :
  let self := LocalCDN.__init__ "cache" "frag" "arm" "tmp" in
  let key := "0123456789abcdef0123456789abcdef" in
  let d' := snd (LocalCDN.write_encrypted_file self (BytesIO [x01; x02]) key
                   (-1) "c0ffee" ∅) in
  SpecUtils.partition_hash key = Ok "01/23/0123456789abcdef0123456789abcdef"
  /\ LocalCDN.write_encrypted_file self (BytesIO [x01; x02]) key (-1)
       "c0ffee" ∅ = (Ok tt, d')
  /\ Os.file_at d' "arm/objects/01/23/0123456789abcdef0123456789abcdef"
     = None
  /\ Os.file_at d' "arm/objects/0123456789abcdef0123456789abcdef"
     = Some [x01; x02]
  /\ LocalCDN.has_encrypted_file self key d' = (Ok true, d')
  /\ Os.path_exists "arm/objects/01/23/0123456789abcdef0123456789abcdef" d'
     = (Ok false, d').
Proof.
  intros self key d'. split; [reflexivity |].
  split; [apply run_result; vm_compute; reflexivity |].
  split; [vm_compute; reflexivity |].
  split; [vm_compute; reflexivity |].
  split; apply path_exists_run; vm_compute; reflexivity.
Qed.

(** C3 (amended): [write_encrypted_file(fp, object_path)] places the file
    at [<armadillo_root>/objects/<object_path>], the object path with its
    leading separators removed and no partition function applied, and
    [has_encrypted_file(object_path)] tests the existence of that same
    location. *)
Theorem encrypted_file_location (base_dir fragments_dir armadillo_dir
    temp_dir : string) fp path buf uuid d d' :
  let self := LocalCDN.__init__ base_dir fragments_dir armadillo_dir temp_dir in
  let crypt_path :=
    Os.path_join (Os.path_join armadillo_dir "objects") (Str.lstrip path) in
  LocalCDN.write_encrypted_file self fp path buf uuid d = (Ok tt, d') ->
  Os.file_at d' crypt_path = Some (if (buf =? 0)%Z then [] else pending fp)
  /\ LocalCDN.has_encrypted_file self path d' = (Ok true, d')
  /\ forall d0, LocalCDN.has_encrypted_file self path d0
                = Os.path_exists crypt_path d0.
Proof.
  intros self crypt_path E. unfold LocalCDN.write_encrypted_file in E.
  apply bind_ok in E as (temp_path & d1 & Et & E).
  apply bind_ok in E as (e & d2 & He & E).
  apply bind_ok in E as (? & d3 & Hm & E).
  change (LocalCDN.get_encrypted_path self path) with crypt_path in *.
  apply write_temp_file_ok in Et as (_ & _ & _ & Hne & Hc).
  assert (Hfile : Os.file_at d3 temp_path = Os.file_at d1 temp_path).
  { apply keeps_path_exists with (obs := fun d => Os.file_at d temp_path) in He.
    rewrite <- He. destruct (negb e).
    - eapply (keeps_makedirs temp_path), Hm.
    - unfold ret in Hm. injection Hm as _ <-. reflexivity. }
  apply rename_ok in E as (c & Hsrc & -> & Hemp & Hsep & Hdir & Hreach).
  unfold Os.file_at in Hfile.
  rewrite Hsrc, (node_at_lookup d1), Hc in Hfile by exact Hne.
  injection Hfile as ->.
  apply node_at_not_dir in Hdir.
  assert (Hat : Os.node_at
                  (<[Os.locate crypt_path :=
                       Os.File (if (buf =? 0)%Z then [] else pending fp)]>
                     (delete (Os.locate temp_path) d3))
                  (Os.locate crypt_path)
                = Some (Os.File (if (buf =? 0)%Z then [] else pending fp))).
  { rewrite node_at_lookup by exact Hdir. apply lookup_insert_eq. }
  repeat split.
  - unfold Os.file_at. now rewrite Hat.
  - unfold LocalCDN.has_encrypted_file, Os.path_exists.
    change (LocalCDN.get_encrypted_path self path) with crypt_path.
    now rewrite Hreach, Hat, Hsep.
Qed.

Lemma encrypted_file_location_witness :
  let self := LocalCDN.__init__ "cache" "frag" "arm" "tmp" in
  let d' := snd (LocalCDN.write_encrypted_file self (BytesIO [x01; x02])
                   "/ab/cd" 1 "c0ffee" ∅) in
  LocalCDN.write_encrypted_file self (BytesIO [x01; x02]) "/ab/cd" 1
    "c0ffee" ∅ = (Ok tt, d')
  /\ Os.file_at d' "arm/objects/ab/cd" = Some [x01; x02]
  /\ LocalCDN.has_encrypted_file self "/ab/cd" d' = (Ok true, d').
Proof.
  intros self d'.
  assert (Hw : LocalCDN.write_encrypted_file self (BytesIO [x01; x02])
                 "/ab/cd" 1 "c0ffee" ∅ = (Ok tt, d'))
    by (apply run_result; vm_compute; reflexivity).
  split; [exact Hw |].
  destruct (encrypted_file_location "cache" "frag" "arm" "tmp"
              (BytesIO [x01; x02]) "/ab/cd" 1 "c0ffee" ∅ d' Hw)
    as (H1 & H2 & _).
  split; [exact H1 | exact H2].
Defined.

(** ** The verification policy of the fetch operations *)

Lemma slice_from_short {A} (data : list A) :
  length data < 28 -> slice_from (-28) data = data.
Proof.
  intros H. unfold slice_from.
  change (-28 <? 0)%Z with true. cbv iota.
  destruct (Z.ltb_spec (-28 + Z.of_nat (length data)) 0) as [_|]; [| lia].
  reflexivity.
Qed.

Lemma slice_from_footer {A} (body footer : list A) :
  length footer = 28 -> slice_from (-28) (body ++ footer) = footer.
Proof.
  intros H. unfold slice_from.
  change (-28 <? 0)%Z with true. cbv iota.
  rewrite length_app, H.
  destruct (Z.ltb_spec (-28 + Z.of_nat (length body + 28)) 0) as [|_]; [lia |].
  replace (Z.to_nat (-28 + Z.of_nat (length body + 28))) with (length body)
    by lia.
  apply drop_app_length.
Qed.

Lemma fmap_result_raise {A B} (g : A -> B) (r : result A) e :
  fmap_result g r = Raise e -> r = Raise e.
Proof. destruct r; simpl; congruence. Qed.

Section Policy.
Context `{U : Utils} {W T : Type} `{C : CDN W T}.

Lemma verify_data_true object_name data key :
  verify_data object_name data key true
  = if String.eqb (hexdigest data) key then Ok tt
    else Raise (IntegrityError object_name key).
Proof. reflexivity. Qed.

Lemma fetch_patch_index_run (self : T) key w p resp w' :
  get_patch_index_path key = Ok p ->
  get_item self p w = (Ok resp, w') ->
  fault resp <> Some 0 ->
  BaseCDN.fetch_patch_index self key true w
  = if String.eqb (hexdigest (slice_from (-28) (pending resp))) key
    then (Ok (pending resp), w')
    else (Raise (IntegrityError "patch index" key), w').
Proof.
  intros Hp Hg Hf. unfold BaseCDN.fetch_patch_index.
  rewrite Hp. erewrite bind_step by reflexivity.
  erewrite bind_step by exact Hg.
  erewrite bind_step by (now apply read_all_ok).
  rewrite verify_data_true. unfold bind, lift, ret.
  now destruct (String.eqb _ key).
Qed.

(** C4: [fetch_index] does the same for both values of [verify]; it
    returns the whole stream found at the data-index path; and it never
    raises an integrity error. *)
Theorem fetch_index_never_verifies (self : T) key verify w :
  backend_sound self ->
  BaseCDN.fetch_index self key verify w
  = BaseCDN.fetch_index self key (negb verify) w
  /\ (forall e w', BaseCDN.fetch_index self key verify w = (Raise e, w') ->
        is_integrity_error e = false)
  /\ (forall p resp w',
        get_data_index_path key = Ok p ->
        get_item self p w = (Ok resp, w') ->
        fault resp <> Some 0 ->
        BaseCDN.fetch_index self key verify w = (Ok (pending resp), w')).
Proof.
  intros [Hpart Hitem]. split; [reflexivity |]. split.
  - intros e w' E. unfold BaseCDN.fetch_index in E.
    apply bind_raise in E as [E | (p & w1 & _ & E)].
    + unfold lift in E. injection E as E _.
      unfold get_data_index_path, get_data_path in E.
      do 2 apply fmap_result_raise in E. eapply Hpart, E.
    + apply bind_raise in E as [E | (resp & w2 & _ & E)].
      * eapply Hitem, E.
      * eapply read_all_raise, E.
  - intros p resp w' Hp Hg Hf. unfold BaseCDN.fetch_index.
    rewrite Hp. erewrite bind_step by reflexivity.
    erewrite bind_step by exact Hg. now apply read_all_ok.
Qed.

(** C8: [download_data] is [get_item] at the data path for both values
    of [verify], and it never raises an integrity error. *)
Theorem download_data_no_verification (self : T) key verify w :
  backend_sound self ->
  BaseCDN.download_data self key verify w
  = BaseCDN.download_data self key (negb verify) w
  /\ (forall p, get_data_path key = Ok p ->
        BaseCDN.download_data self key verify w = get_item self p w)
  /\ (forall e w', BaseCDN.download_data self key verify w = (Raise e, w') ->
        is_integrity_error e = false).
Proof.
  intros [Hpart Hitem]. split; [reflexivity |]. split.
  - intros p Hp. unfold BaseCDN.download_data. rewrite Hp.
    now erewrite bind_step by reflexivity.
  - intros e w' E. unfold BaseCDN.download_data in E.
    apply bind_raise in E as [E | (p & w1 & _ & E)].
    + unfold lift in E. injection E as E _.
      unfold get_data_path in E.
      apply fmap_result_raise in E. eapply Hpart, E.
    + eapply Hitem, E.
Qed.

(** C5: with [verify] set, [fetch_patch_index] hashes the trailing 28
    bytes of the payload and nothing else.  When they hash to the key the
    whole payload is returned, whatever the bytes before them are; when
    they do not, the integrity error is raised. *)
Theorem fetch_patch_index_footer (self : T) key w p resp w' :
  get_patch_index_path key = Ok p ->
  get_item self p w = (Ok resp, w') ->
  fault resp <> Some 0 ->
  (hexdigest (slice_from (-28) (pending resp)) = key ->
     BaseCDN.fetch_patch_index self key true w = (Ok (pending resp), w'))
  /\ (hexdigest (slice_from (-28) (pending resp)) <> key ->
     BaseCDN.fetch_patch_index self key true w
     = (Raise (IntegrityError "patch index" key), w'))
  /\ (forall body footer,
        pending resp = body ++ footer -> length footer = 28 ->
        slice_from (-28) (pending resp) = footer).
Proof.
  intros Hp Hg Hf.
  rewrite (fetch_patch_index_run self key w p resp w' Hp Hg Hf).
  repeat split.
  - intros ->. now rewrite String.eqb_refl.
  - intros Hne. apply String.eqb_neq in Hne. now rewrite Hne.
  - intros body footer -> Hlen. now apply slice_from_footer.
Qed.

(** C10: a payload shorter than 28 bytes is its own trailing slice, so
    with [verify] set [fetch_patch_index] checks the hash of the whole
    payload against the key. *)
Theorem fetch_patch_index_short_payload (self : T) key w p resp w' :
  get_patch_index_path key = Ok p ->
  get_item self p w = (Ok resp, w') ->
  fault resp <> Some 0 ->
  length (pending resp) < 28 ->
  slice_from (-28) (pending resp) = pending resp
  /\ BaseCDN.fetch_patch_index self key true w
     = if String.eqb (hexdigest (pending resp)) key
       then (Ok (pending resp), w')
       else (Raise (IntegrityError "patch index" key), w').
Proof.
  intros Hp Hg Hf Hlen.
  rewrite (fetch_patch_index_run self key w p resp w' Hp Hg Hf).
  rewrite (slice_from_short _ Hlen). split; reflexivity.
Qed.

End Policy.

(** ** The policy on the local backend *)

Lemma spec_partition_hash_raise key e :
  SpecUtils.partition_hash key = Raise e -> is_integrity_error e = false.
Proof.
  unfold SpecUtils.partition_hash.
  destruct (SpecUtils.valid_key key); [discriminate |].
  now intros [= <-].
Qed.

Lemma local_get_item_raise (self : LocalCDN.t) p d e d' :
  LocalCDN.get_item self p d = (Raise e, d') -> is_integrity_error e = false.
Proof.
  unfold LocalCDN.get_item, Os.open_rb. intros E.
  destruct (Os.reach d (LocalCDN.get_full_path self p)) as [[]|e0] eqn:Hr.
  - repeat match type of E with
           | (if ?c then _ else _) = _ => destruct c
           | match ?x with _ => _ end = _ => destruct x
           end; try discriminate; now injection E as <- _.
  - injection E as <- _. eapply reach_no_integrity, Hr.
Qed.

Section LocalPolicy.
#[local] Existing Instance SpecUtils.utils.
#[local] Existing Instance LocalCDN.cdn.

Lemma local_backend_sound (self : LocalCDN.t) : backend_sound self.
Proof.
  split.
  - exact spec_partition_hash_raise.
  - exact (local_get_item_raise self).
Qed.

Lemma fetch_index_never_verifies_witness :
  let d := snd (LocalCDN.save_item sample_mirror (BytesIO [x01; x02])
                  "/data/00/00/0000000000000000000000000000001c.index" ∅) in
  BaseCDN.fetch_index sample_mirror sample_key true d
  = BaseCDN.fetch_index sample_mirror sample_key false d
  /\ fst (BaseCDN.fetch_index sample_mirror sample_key true d) = Ok [x01; x02]
  /\ hexdigest [x01; x02] <> sample_key.
Proof.
  intros d.
  destruct (fetch_index_never_verifies sample_mirror sample_key true d
              (local_backend_sound sample_mirror)) as (H1 & _ & H3).
  split; [exact H1 |]. split; [| vm_compute; discriminate].
  rewrite (H3 "/data/00/00/0000000000000000000000000000001c.index"
             (BytesIO [x01; x02])
             (snd (LocalCDN.get_item sample_mirror
                "/data/00/00/0000000000000000000000000000001c.index" d))).
  - reflexivity.
  - reflexivity.
  - apply run_result. vm_compute. reflexivity.
  - discriminate.
Defined.

Lemma download_data_no_verification_witness :
  let d := snd (LocalCDN.save_item sample_mirror (BytesIO [x01; x02])
                  "/data/00/00/0000000000000000000000000000001c" ∅) in
  BaseCDN.download_data sample_mirror sample_key true d
  = BaseCDN.download_data sample_mirror sample_key false d
  /\ BaseCDN.download_data sample_mirror sample_key true d
     = get_item sample_mirror "/data/00/00/0000000000000000000000000000001c" d.
Proof.
  intros d.
  destruct (download_data_no_verification sample_mirror sample_key true d
              (local_backend_sound sample_mirror)) as (H1 & H2 & _).
  split; [exact H1 |]. apply H2. reflexivity.
Defined.

Lemma fetch_patch_index_footer_witness :
  let d := snd (LocalCDN.save_item sample_mirror (BytesIO sample_patch_index)
                  "/patch/00/00/0000000000000000000000000000001c.index" ∅) in
  fst (BaseCDN.fetch_patch_index sample_mirror sample_key true d) = Ok sample_patch_index
  /\ hexdigest sample_patch_index <> sample_key.
Proof.
  intros d.
  destruct (fetch_patch_index_footer sample_mirror sample_key d
              "/patch/00/00/0000000000000000000000000000001c.index"
              (BytesIO sample_patch_index)
              (snd (LocalCDN.get_item sample_mirror
                 "/patch/00/00/0000000000000000000000000000001c.index" d)))
    as (H1 & _ & _).
  - reflexivity.
  - apply run_result. vm_compute. reflexivity.
  - discriminate.
  - split; [| vm_compute; discriminate].
    rewrite H1; [reflexivity | vm_compute; reflexivity].
Defined.

Lemma fetch_patch_index_short_payload_witness :
  let d := snd (LocalCDN.save_item sample_mirror (BytesIO [x0e; x0e])
                  "/patch/00/00/0000000000000000000000000000001c.index" ∅) in
  slice_from (-28) [x0e; x0e] = [x0e; x0e]
  /\ fst (BaseCDN.fetch_patch_index sample_mirror sample_key true d) = Ok [x0e; x0e].
Proof.
  intros d.
  destruct (fetch_patch_index_short_payload sample_mirror sample_key d
              "/patch/00/00/0000000000000000000000000000001c.index"
              (BytesIO [x0e; x0e])
              (snd (LocalCDN.get_item sample_mirror
                 "/patch/00/00/0000000000000000000000000000001c.index" d)))
    as (H1 & H2).
  - reflexivity.
  - apply run_result. vm_compute. reflexivity.
  - discriminate.
  - simpl. lia.
  - split; [exact H1 |]. rewrite H2. reflexivity.
Defined.

End LocalPolicy.


(** * Further properties *)

(** ** Existence checks and reads *)

Lemma path_exists_state p d b d' :
  Os.path_exists p d = (Ok b, d') -> d' = d.
Proof.
  intros E. exact (keeps_path_exists (fun d => d) p d _ _ E).
Qed.

(** A path that does not exist cannot be opened: the error is the one of
    the path resolution, not-found or not-a-directory. *)
Lemma path_exists_false_open_rb p d :
  Os.path_exists p d = (Ok false, d) ->
  exists e, Os.open_rb p d = (Raise e, d)
            /\ (e = FileNotFoundError p \/ e = NotADirectoryError p).
Proof.
  unfold Os.path_exists, Os.open_rb.
  destruct (Os.reach d p) as [[]|e] eqn:Hr.
  - destruct (Os.node_at d (Os.locate p)) as [[|c]|]; try discriminate.
    + destruct (Str.endswith_sep p); [| discriminate]. eauto.
    + eauto.
  - intros _. exists e. split; [reflexivity |]. eapply reach_raise, Hr.
Qed.

Lemma open_rb_exists p d r d' :
  Os.open_rb p d = (Ok r, d') ->
  Os.path_exists p d = (Ok true, d) /\ d' = d.
Proof.
  unfold Os.path_exists, Os.open_rb.
  destruct (Os.reach d p) as [[]|e]; [| discriminate].
  destruct (Os.node_at d (Os.locate p)) as [[|c]|]; try discriminate.
  destruct (Str.endswith_sep p); [discriminate |].
  now intros [= _ <-].
Qed.

Lemma path_exists_file_open_rb p d c :
  Os.path_exists p d = (Ok true, d) ->
  Os.file_at d p = Some c ->
  Os.open_rb p d = (Ok (BytesIO c), d).
Proof.
  unfold Os.path_exists, Os.open_rb, Os.file_at.
  destruct (Os.reach d p) as [[]|e]; [| discriminate].
  destruct (Os.node_at d (Os.locate p)) as [[|c0]|]; try discriminate.
  destruct (Str.endswith_sep p); [discriminate |].
  now intros _ [= ->].
Qed.

Lemma open_rb_raise_state p d e d' :
  Os.open_rb p d = (Raise e, d') -> d' = d.
Proof.
  unfold Os.open_rb. intros E.
  repeat match type of E with
         | (if ?c then _ else _) = _ => destruct c
         | match ?x with _ => _ end = _ => destruct x
         end; try discriminate; now injection E as _ <-.
Qed.

Lemma open_rb_not_found p d e d' :
  Os.open_rb p d = (Raise e, d') ->
  Os.path_exists p d = (Ok true, d) ->
  e = IsADirectoryError p.
Proof.
  unfold Os.path_exists, Os.open_rb.
  destruct (Os.reach d p) as [[]|e0]; [| discriminate].
  destruct (Os.node_at d (Os.locate p)) as [[|c]|]; try discriminate.
  - now intros [= <- _].
  - destruct (Str.endswith_sep p); [discriminate | discriminate].
Qed.

(** ** Decryption keys *)

(** X1: [get_decryption_key]: a key file that does not exist is reported as
    [ArmadilloKeyNotFound] with the key name; a key file that is a regular
    file is returned whole; the disk is never changed; and the call never
    raises [FileNotFoundError], the existence test having come first. *)
Theorem get_decryption_key_outcomes (self : LocalCDN.t) key_name d :
  let key_path :=
    Os.path_join (LocalCDN.armadillo_dir self) (key_name +:+ ".ak") in
  (Os.path_exists key_path d = (Ok false, d) ->
   LocalCDN.get_decryption_key self key_name d
   = (Raise (ArmadilloKeyNotFound key_name), d))
  /\ (forall c,
        Os.path_exists key_path d = (Ok true, d) ->
        Os.file_at d key_path = Some c ->
        LocalCDN.get_decryption_key self key_name d = (Ok c, d))
  /\ (forall r d',
        LocalCDN.get_decryption_key self key_name d = (r, d') ->
        d' = d /\ forall p, r <> Raise (FileNotFoundError p)).
Proof.
  intros key_path. unfold LocalCDN.get_decryption_key. fold key_path.
  split; [| split].
  - intros He. now erewrite bind_step by exact He.
  - intros c He Hc. erewrite bind_step by exact He. simpl.
    erewrite bind_step by (apply path_exists_file_open_rb; eassumption).
    apply read_all_BytesIO.
  - intros r d' E.
    destruct (path_exists_ok key_path d) as [b Hb].
    erewrite bind_step in E by exact Hb.
    destruct b; simpl in E.
    + destruct (Os.open_rb key_path d) as [[f|e] d1] eqn:Ho.
      * pose proof (open_rb_exists _ _ _ _ Ho) as [_ ->].
        pose proof (open_rb_file _ _ _ _ Ho) as Hfile.
        erewrite bind_step in E by exact Ho.
        unfold Os.open_rb in Ho.
        destruct (Os.reach d key_path) as [[]|e0]; [| discriminate].
        destruct (Os.node_at d (Os.locate key_path)) as [[|c]|];
          try discriminate.
        destruct (Str.endswith_sep key_path); [discriminate |].
        injection Ho as <-. rewrite read_all_BytesIO in E.
        injection E as <- <-. split; [reflexivity | discriminate].
      * pose proof (open_rb_raise_state _ _ _ _ Ho) as ->.
        pose proof (open_rb_not_found _ _ _ _ Ho Hb) as ->.
        erewrite bind_fail in E by exact Ho.
        injection E as <- <-. split; [reflexivity | discriminate].
    + unfold raise in E. injection E as <- <-.
      split; [reflexivity | discriminate].
Qed.

Lemma get_decryption_key_outcomes_witness :
  let self := LocalCDN.__init__ "cache" "frag" "arm" "tmp" in
  let d : Os.Disk :=
    <[(false, ["arm"; "k1.ak"]) := Os.File [x2a; x2b]]>
      {[ (false, ["arm"]) := Os.Dir ]} in
  LocalCDN.get_decryption_key self "k2" d
  = (Raise (ArmadilloKeyNotFound "k2"), d)
  /\ LocalCDN.get_decryption_key self "k1" d = (Ok [x2a; x2b], d).
Proof.
  intros self d. split.
  - apply (proj1 (get_decryption_key_outcomes self "k2" d)).
    apply path_exists_run. vm_compute. reflexivity.
  - apply (proj1 (proj2 (get_decryption_key_outcomes self "k1" d))).
    + apply path_exists_run. vm_compute. reflexivity.
    + vm_compute. reflexivity.
Defined.

(** ** Existence tests in step with the reads *)

Lemma bind_lift_ok {W A B : Type} (a : A) (k : A -> M W B) w :
  bind (lift (Ok a)) k w = k a w.
Proof. reflexivity. Qed.

Lemma bind_lift_raise {W A B : Type} (e : exn) (k : A -> M W B) w :
  bind (lift (Raise e)) k w = (Raise e, w).
Proof. reflexivity. Qed.

Lemma in_step_open {A : Type} (P : result string) (f : string -> string)
    (K : Reader -> M Os.Disk A) d :
  in_step (let* p := lift P in Os.path_exists (f p))
          (let* p := lift P in let* resp := Os.open_rb (f p) in K resp) d.
Proof.
  unfold in_step. destruct P as [p|e].
  - rewrite !bind_lift_ok. split.
    + intros x d' E. apply bind_ok in E as (resp & d1 & Ho & _).
      now apply open_rb_exists in Ho.
    + intros He. apply path_exists_false_open_rb in He as (e & Ho & He).
      exists e, (f p). split; [| exact He]. now erewrite bind_fail by exact Ho.
  - rewrite !bind_lift_raise. split; discriminate.
Qed.

Lemma in_step_open_ret (P : result string) (f : string -> string) d :
  in_step (let* p := lift P in Os.path_exists (f p))
          (let* p := lift P in Os.open_rb (f p)) d.
Proof.
  unfold in_step. destruct P as [p|e].
  - rewrite !bind_lift_ok. split.
    + intros x d' Ho. now apply open_rb_exists in Ho.
    + intros He. apply path_exists_false_open_rb in He as (e & Ho & He).
      exists e, (f p). split; [exact Ho | exact He].
  - rewrite !bind_lift_raise. split; discriminate.
Qed.

Section LockStep.
Context `{U : Utils}.
#[local] Existing Instance LocalCDN.cdn.

(** X2: On the local backend each [has_*] test of a content category looks at
    the file that the fetch of that category opens: [has_config] with
    [fetch_config], [has_data] with [download_data], [has_index] with
    [fetch_index], [has_patch] with [fetch_patch], [has_patch_index] with
    [fetch_patch_index]. *)
Theorem has_in_step_with_fetch (self : LocalCDN.t) key verify d :
  in_step (LocalCDN.has_config self key)
          (BaseCDN.fetch_config self key verify) d
  /\ in_step (LocalCDN.has_data self key)
             (BaseCDN.download_data self key verify) d
  /\ in_step (LocalCDN.has_index self key)
             (BaseCDN.fetch_index self key verify) d
  /\ in_step (LocalCDN.has_patch self key)
             (BaseCDN.fetch_patch self key verify) d
  /\ in_step (LocalCDN.has_patch_index self key)
             (BaseCDN.fetch_patch_index self key verify) d.
Proof.
  repeat split.
  - exact (proj1 (in_step_open (get_config_path key)
                    (LocalCDN.get_full_path self) _ d)).
  - exact (proj2 (in_step_open (get_config_path key)
                    (LocalCDN.get_full_path self) _ d)).
  - exact (proj1 (in_step_open_ret (get_data_path key)
                    (LocalCDN.get_full_path self) d)).
  - exact (proj2 (in_step_open_ret (get_data_path key)
                    (LocalCDN.get_full_path self) d)).
  - exact (proj1 (in_step_open (get_data_index_path key)
                    (LocalCDN.get_full_path self) _ d)).
  - exact (proj2 (in_step_open (get_data_index_path key)
                    (LocalCDN.get_full_path self) _ d)).
  - exact (proj1 (in_step_open (get_patch_path key)
                    (LocalCDN.get_full_path self) _ d)).
  - exact (proj2 (in_step_open (get_patch_path key)
                    (LocalCDN.get_full_path self) _ d)).
  - exact (proj1 (in_step_open (get_patch_index_path key)
                    (LocalCDN.get_full_path self) _ d)).
  - exact (proj2 (in_step_open (get_patch_index_path key)
                    (LocalCDN.get_full_path self) _ d)).
Qed.

(** X3: [has_config_item] looks at the file that [fetch_config_data] opens,
    [has_fragment] at the file that [get_fragment] opens, and [exists] at
    the file that [get_item] opens. *)
Theorem has_in_step_with_item_reads (self : LocalCDN.t) key verify path d :
  in_step (LocalCDN.has_config_item self key)
          (BaseCDN.fetch_config_data self key verify) d
  /\ in_step (LocalCDN.has_fragment self key)
             (LocalCDN.get_fragment self key) d
  /\ in_step (LocalCDN.exists_ self path) (LocalCDN.get_item self path) d.
Proof.
  split; [| split].
  3: exact (in_step_open_ret (Ok path) (LocalCDN.get_full_path self) d).
  - unfold LocalCDN.has_config_item, BaseCDN.fetch_config_data,
      get_config_item_path.
    destruct (partition_hash key) as [h|e].
    + exact (in_step_open (Ok h)
               (fun h => LocalCDN.get_config_path self ("/" +:+ h)) _ d).
    + split; [discriminate |]. rewrite bind_lift_raise. discriminate.
  - exact (in_step_open_ret (LocalCDN.get_fragment_path self key)
             (fun p => p) d).
Qed.

End LockStep.

Lemma exists_run (P : result string) (f : string -> string) (d : Os.Disk) b :
  fst ((let* p := lift P in Os.path_exists (f p)) d) = Ok b ->
  (let* p := lift P in Os.path_exists (f p)) d = (Ok b, d).
Proof.
  destruct P as [p|e]; [| discriminate].
  rewrite bind_lift_ok. apply path_exists_run.
Qed.

Section LockStepWitness.
#[local] Existing Instance SpecUtils.utils.
#[local] Existing Instance LocalCDN.cdn.

Lemma has_in_step_with_fetch_witness :
  let d := snd (LocalCDN.save_item sample_mirror (BytesIO [x01; x02])
                  "/data/00/00/0000000000000000000000000000001c.index" ∅) in
  LocalCDN.has_index sample_mirror sample_key d = (Ok true, d)
  /\ exists e p,
       BaseCDN.fetch_patch sample_mirror sample_key true d = (Raise e, d)
       /\ (e = FileNotFoundError p \/ e = NotADirectoryError p).
Proof.
  intros d.
  destruct (has_in_step_with_fetch sample_mirror sample_key true d)
    as (_ & _ & [Hindex _] & [_ Hpatch] & _).
  split.
  - apply (Hindex [x01; x02]
             (snd (BaseCDN.fetch_index sample_mirror sample_key true d))).
    apply run_result. vm_compute. reflexivity.
  - apply Hpatch.
    apply (exists_run (get_patch_path sample_key)
             (LocalCDN.get_full_path sample_mirror)).
    vm_compute. reflexivity.
Defined.

Lemma has_in_step_with_item_reads_witness :
  let d := snd (LocalCDN.save_config_item sample_mirror (BytesIO [x01; x02])
                  "/00/00/0000000000000000000000000000001c" ∅) in
  LocalCDN.has_config_item sample_mirror sample_key d = (Ok true, d)
  /\ exists e p,
       LocalCDN.get_fragment sample_mirror sample_key d = (Raise e, d)
       /\ (e = FileNotFoundError p \/ e = NotADirectoryError p).
Proof.
  intros d.
  destruct (has_in_step_with_item_reads sample_mirror sample_key false "/x" d)
    as ([Hitem _] & [_ Hfrag] & _).
  split.
  - apply (Hitem [x01; x02]
             (snd (BaseCDN.fetch_config_data sample_mirror sample_key false d))).
    apply run_result. vm_compute. reflexivity.
  - apply Hfrag.
    apply (exists_run (LocalCDN.get_fragment_path sample_mirror sample_key)
             (fun p => p)).
    vm_compute. reflexivity.
Defined.

End LockStepWitness.

(** ** The cache writer: what happens to the staging file and to other files *)

Lemma file_at_delete_ne (d : Os.Disk) k p :
  k <> Os.locate p -> Os.file_at (delete k d) p = Os.file_at d p.
Proof.
  intros Hk. unfold Os.file_at, Os.node_at.
  destruct (snd (Os.locate p)); [reflexivity |].
  now rewrite lookup_delete_ne.
Qed.

Lemma keeps_init_other (q p : string) (fp : Reader) :
  Os.locate (p +:+ ".keg_temp") <> Os.locate q ->
  keeps (fun d => Os.file_at d q) (HTTPCacheWrapper.__init__ fp p).
Proof.
  intros Hne. unfold HTTPCacheWrapper.__init__.
  apply keeps_bind; [apply keeps_path_exists |]. intros e.
  apply keeps_bind.
  { apply keeps_if; [apply keeps_makedirs | apply keeps_ret]. }
  intros _. apply keeps_bind; [| intros; apply keeps_ret].
  now apply keeps_open_wb.
Qed.

Lemma keeps_rename (q src dst : string) :
  Os.locate src <> Os.locate q -> Os.locate dst <> Os.locate q ->
  keeps (fun d => Os.file_at d q) (Os.rename src dst).
Proof.
  intros Hs Hd d r d' E. destruct r as [[]|e].
  - apply rename_ok in E as (c & _ & -> & _).
    rewrite file_at_insert_ne by exact Hd. now apply file_at_delete_ne.
  - apply rename_raise_same in E. now subst.
Qed.

Lemma drain_paths fuel self d self' d' :
  HTTPCacheWrapper.drain fuel self d = (Ok self', d') ->
  HTTPCacheWrapper._real_path self' = HTTPCacheWrapper._real_path self
  /\ HTTPCacheWrapper._temp_path self' = HTTPCacheWrapper._temp_path self.
Proof. intros E. apply drain_ok in E as (H1 & H2 & _). now split. Qed.

Lemma keeps_close (q : string) (f : HTTPCacheWrapper.t) :
  Os.wloc (HTTPCacheWrapper._cache_file f) <> Os.locate q ->
  Os.locate (HTTPCacheWrapper._temp_path f) <> Os.locate q ->
  Os.locate (HTTPCacheWrapper._real_path f) <> Os.locate q ->
  keeps (fun d => Os.file_at d q) (HTTPCacheWrapper.close f).
Proof.
  intros Hw Ht Hr d r d' E. unfold HTTPCacheWrapper.close, bind in E.
  destruct (HTTPCacheWrapper.drain _ f d) as [[f'|e] d1] eqn:Ed.
  - pose proof (drain_paths _ _ _ _ _ Ed) as [Hreal Htemp].
    apply (keeps_drain q) in Ed; [| exact Hw]. simpl in Ed. rewrite <- Ed.
    rewrite Hreal, Htemp in E.
    destruct (Os.rename _ _ d1) as [[u|e] d2] eqn:Er.
    + injection E as _ <-. eapply (keeps_rename q), Er; assumption.
    + injection E as _ <-. eapply (keeps_rename q), Er; assumption.
  - injection E as _ <-. eapply (keeps_drain q), Ed. exact Hw.
Qed.

(** A wrapper created for [path] and closed at once: what [save_item] and
    [save_config_item] do with their target path. *)
Lemma cache_frame fp path q d r d' :
  Os.locate path <> Os.locate q ->
  Os.locate (path +:+ ".keg_temp") <> Os.locate q ->
  (let* f := HTTPCacheWrapper.__init__ fp path in HTTPCacheWrapper.close f) d
  = (r, d') ->
  Os.file_at d' q = Os.file_at d q.
Proof.
  intros Hp Hs E. unfold bind in E.
  destruct (HTTPCacheWrapper.__init__ fp path d) as [[f|e] d1] eqn:Ei.
  - pose proof (init_fields _ _ _ _ _ Ei) as Hf.
    apply (keeps_init_other q) in Ei; [| exact Hs]. simpl in Ei.
    rewrite <- Ei. subst f.
    eapply (keeps_close q), E; simpl; assumption.
  - injection E as _ <-. eapply (keeps_init_other q), Ei. exact Hs.
Qed.

(** X4: [save_item] and [save_config_item] touch two files only: the target
    and its staging file.  Whether they return or raise, a path that is
    [apart] from both names the same regular file, with the same bytes, or
    names none, as before. *)
Theorem save_changes_no_other_file (self : LocalCDN.t) item path q d r d' :
  (let target := LocalCDN.get_full_path self path in
   Os.apart target q ->
   Os.apart (target +:+ ".keg_temp") q ->
   LocalCDN.save_item self item path d = (r, d') ->
   Os.file_at d' q = Os.file_at d q)
  /\ (let target := LocalCDN.get_config_path self path in
      Os.apart target q ->
      Os.apart (target +:+ ".keg_temp") q ->
      LocalCDN.save_config_item self item path d = (r, d') ->
      Os.file_at d' q = Os.file_at d q).
Proof.
  split; intros target (_ & _ & _ & H1) (_ & _ & _ & H2);
    now apply cache_frame.
Qed.

Lemma save_changes_no_other_file_witness :
  let d : Os.Disk :=
    <[(false, ["cache"; "other"]) := Os.File [x09]]>
      {[ (false, ["cache"]) := Os.Dir ]} in
  let m := LocalCDN.save_item sample_mirror (BytesIO [x01; x02]) "/item" d in
  Os.file_at (snd m) "cache/other" = Os.file_at d "cache/other".
Proof.
  intros d m.
  apply (proj1 (save_changes_no_other_file sample_mirror (BytesIO [x01; x02])
                  "/item" "cache/other" d (fst m) (snd m))).
  - split; [vm_compute; reflexivity |
      split; [vm_compute; reflexivity |
      split; [reflexivity | vm_compute; discriminate]]].
  - split; [vm_compute; reflexivity |
      split; [vm_compute; reflexivity |
      split; [reflexivity | vm_compute; discriminate]]].
  - apply surjective_pairing.
Defined.

Lemma cache_no_staging fp path d d' :
  (let* f := HTTPCacheWrapper.__init__ fp path in HTTPCacheWrapper.close f) d
  = (Ok tt, d') ->
  Os.path_exists (path +:+ ".keg_temp") d' = (Ok false, d').
Proof.
  intros E. apply bind_ok in E as (f & d1 & Ei & Ec).
  apply init_fields in Ei. subst f.
  unfold HTTPCacheWrapper.close in Ec.
  apply bind_ok in Ec as (f' & d2 & Ed & Ec).
  apply drain_paths in Ed as [Hreal Htemp]. simpl in Hreal, Htemp.
  rewrite Hreal, Htemp in Ec.
  apply bind_ok in Ec as ([] & d3 & Er & Ec).
  unfold ret in Ec. injection Ec as ->.
  apply rename_ok in Er as (c & _ & -> & _).
  unfold Os.path_exists.
  rewrite node_at_lookup by apply locate_staging_snd.
  rewrite lookup_insert_ne
    by (intros Heq; symmetry in Heq; revert Heq; apply locate_staging_ne).
  rewrite lookup_delete_eq.
  now destruct (Os.reach _ _).
Qed.

(** X5: When [save_item] or [save_config_item] returns, the staging file is
    gone: it has been moved onto the target. *)
Theorem save_leaves_no_staging_file (self : LocalCDN.t) item path d d' :
  (LocalCDN.save_item self item path d = (Ok tt, d') ->
   Os.path_exists (LocalCDN.get_full_path self path +:+ ".keg_temp") d'
   = (Ok false, d'))
  /\ (LocalCDN.save_config_item self item path d = (Ok tt, d') ->
      Os.path_exists (LocalCDN.get_config_path self path +:+ ".keg_temp") d'
      = (Ok false, d')).
Proof. split; apply cache_no_staging. Qed.

Lemma save_leaves_no_staging_file_witness :
  let d' := snd (LocalCDN.save_item sample_mirror (BytesIO [x01; x02])
                   "/a/item" ∅) in
  Os.path_exists "cache/a/item.keg_temp" d' = (Ok false, d').
Proof.
  intros d'.
  apply (proj1 (save_leaves_no_staging_file sample_mirror (BytesIO [x01; x02])
                  "/a/item" ∅ d')).
  apply run_result. vm_compute. reflexivity.
Defined.

(** A source that raises on its call number [n + 1] stops the drain loop
    after [n] chunks of 8192 bytes.  The cache file of the model, which is
    written without a buffer, then holds them; the statements below use
    only that the file is still there. *)
Lemma drain_faulty_content n fuel self d c :
  fault (HTTPCacheWrapper.fp self) = Some n ->
  (Z.of_nat n * 8192
   <= Z.of_nat (length (pending (HTTPCacheWrapper.fp self))))%Z ->
  n < fuel ->
  d !! Os.wloc (HTTPCacheWrapper._cache_file self) = Some (Os.File c) ->
  exists d',
    HTTPCacheWrapper.drain fuel self d = (Raise (OSError "read failed"), d')
    /\ d' !! Os.wloc (HTTPCacheWrapper._cache_file self)
       = Some (Os.File (c ++ take (n * Z.to_nat 8192)
                                  (pending (HTTPCacheWrapper.fp self))))
    /\ (forall k, k <> Os.wloc (HTTPCacheWrapper._cache_file self) ->
          d' !! k = d !! k).
Proof.
  revert fuel self d c.
  induction n as [|n IH]; intros fuel self d c Hf Hlen Hfuel Hc;
    (destruct fuel as [|fuel]; [lia |]);
    cbn [HTTPCacheWrapper.drain]; unfold bind; rewrite read_unfold;
    unfold Reader_read; rewrite Hf.
  - exists d. rewrite Nat.mul_0_l, take_0, app_nil_r. auto.
  - change (8192 <? 0)%Z with false. cbv iota.
    destruct (nonempty (take (Z.to_nat 8192)
                          (pending (HTTPCacheWrapper.fp self)))) eqn:Hn.
    + cbn [fmap option_fmap option_map Nat.pred].
      set (b := take (Z.to_nat 8192) (pending (HTTPCacheWrapper.fp self))).
      set (w := Os.wloc (HTTPCacheWrapper._cache_file self)) in *.
      set (self' := HTTPCacheWrapper.set_fp self _).
      destruct (IH fuel self' (alter (Os.append b) w d) (c ++ b))
        as (d' & Ed & Hcont & Hfr).
      * reflexivity.
      * simpl. rewrite length_drop. lia.
      * lia.
      * simpl. fold w. rewrite lookup_alter_eq. now rewrite Hc.
      * simpl in Hcont, Hfr. fold w in Hcont, Hfr.
        exists d'. split; [exact Ed |]. split.
        -- rewrite Hcont. unfold b.
           rewrite <- app_assoc, take_take_drop. reflexivity.
        -- intros k Hk. rewrite (Hfr k Hk). now apply lookup_alter_ne.
    + apply nonempty_false, take_nil_inv in Hn as [Hn | Hn]; [lia |].
      rewrite Hn in Hlen. simpl in Hlen. lia.
Qed.

(** X6: [close] has no handler around its loop and removes nothing: when the
    source raises after [n] reads, [save_item] raises the same error and
    the staging file stays behind.  (How many of the bytes read so far it
    holds depends on the buffer of the file object, which is never closed
    on this path; nothing is said about its content.) *)
Theorem interrupted_save_leaves_staging_file (self : LocalCDN.t) item path
    d f d1 n :
  let target := LocalCDN.get_full_path self path in
  HTTPCacheWrapper.__init__ item target d = (Ok f, d1) ->
  fault item = Some n ->
  (Z.of_nat n * 8192 <= Z.of_nat (length (pending item)))%Z ->
  exists d',
    LocalCDN.save_item self item path d = (Raise (OSError "read failed"), d')
    /\ Os.path_exists (target +:+ ".keg_temp") d' = (Ok true, d').
Proof.
  intros target Ei Hf Hlen.
  pose proof (init_fields _ _ _ _ _ Ei) as Hfields.
  pose proof (init_staged _ _ _ _ _ Ei) as [Hstaged Hreach]. subst f.
  set (f := {| HTTPCacheWrapper.fp := item;
               HTTPCacheWrapper._real_path := target;
               HTTPCacheWrapper._temp_path := target +:+ ".keg_temp";
               HTTPCacheWrapper._cache_file :=
                 {| Os.wloc := Os.locate (target +:+ ".keg_temp") |} |}) in *.
  destruct (drain_faulty_content n (S (length (pending item))) f d1 [] Hf Hlen)
    as (d' & Ed & Hcont & Hfr); [lia | exact Hstaged |].
  simpl in Hcont, Hfr.
  exists d'. split.
  - unfold LocalCDN.save_item. fold target.
    erewrite bind_step by exact Ei.
    unfold HTTPCacheWrapper.close. now erewrite bind_fail by exact Ed.
  - unfold Os.path_exists.
    erewrite reach_mono; [| | exact Hreach].
    + rewrite node_at_lookup, Hcont by apply locate_staging_snd.
      now rewrite staging_not_dirlike.
    + intros k Hk. rewrite Hfr; [exact Hk |]. intros ->. congruence.
Qed.

Lemma interrupted_save_leaves_staging_file_witness :
  let item := {| pending := repeat x07 (Z.to_nat 8200); fault := Some 1 |} in
  let d : Os.Disk := {[ (false, ["cache"]) := Os.Dir ]} in
  Os.path_exists "cache/item.keg_temp" d = (Ok false, d)
  /\ exists d',
       LocalCDN.save_item sample_mirror item "/item" d
       = (Raise (OSError "read failed"), d')
       /\ Os.path_exists "cache/item.keg_temp" d' = (Ok true, d').
Proof.
  intros item d. split; [apply path_exists_run; vm_compute; reflexivity |].
  apply (interrupted_save_leaves_staging_file sample_mirror item "/item" d
           {| HTTPCacheWrapper.fp := item;
              HTTPCacheWrapper._real_path := "cache/item";
              HTTPCacheWrapper._temp_path := "cache/item.keg_temp";
              HTTPCacheWrapper._cache_file :=
                {| Os.wloc := (false, ["cache"; "item.keg_temp"]) |} |}
           (snd (HTTPCacheWrapper.__init__ item "cache/item" d)) 1).
  - apply run_result. vm_compute. reflexivity.
  - reflexivity.
  - vm_compute. discriminate.
Defined.

(** ** Reading through the cache writer *)

(** A block of reads never raises out of [block]: a read that raises ends
    it, and comes back as its outcome. *)
Lemma block_returns sizes self d :
  exists r self' d', HTTPCacheWrapper.block self sizes d = (Ok (r, self'), d').
Proof.
  revert self d. induction sizes as [|size sizes IH]; intros self d;
    cbn [HTTPCacheWrapper.block]; [unfold ret; eauto |].
  destruct (HTTPCacheWrapper.read self size d) as [[[b self1]|e] d1];
    [| eauto].
  destruct (IH self1 d1) as (r & self' & d' & E).
  unfold bind. rewrite E. unfold ret. eauto.
Qed.

(** What a block of reads has done: the wrapper still names the same
    paths and cache file; the bytes it has taken from the source, [got],
    have been appended to the cache file and to nothing else; and when no
    read raised they are, chunk by chunk, what the reads returned. *)
Lemma block_ok sizes self d r self' d' :
  HTTPCacheWrapper.block self sizes d = (Ok (r, self'), d') ->
  HTTPCacheWrapper._real_path self' = HTTPCacheWrapper._real_path self
  /\ HTTPCacheWrapper._temp_path self' = HTTPCacheWrapper._temp_path self
  /\ HTTPCacheWrapper._cache_file self' = HTTPCacheWrapper._cache_file self
  /\ (fault (HTTPCacheWrapper.fp self) = None ->
      fault (HTTPCacheWrapper.fp self') = None /\ exists chunks, r = Ok chunks)
  /\ exists got,
       got ++ pending (HTTPCacheWrapper.fp self')
       = pending (HTTPCacheWrapper.fp self)
       /\ (forall chunks, r = Ok chunks -> concat chunks = got)
       /\ (forall c,
             d !! Os.wloc (HTTPCacheWrapper._cache_file self)
             = Some (Os.File c) ->
             d' !! Os.wloc (HTTPCacheWrapper._cache_file self)
             = Some (Os.File (c ++ got)))
       /\ (forall k, k <> Os.wloc (HTTPCacheWrapper._cache_file self) ->
             d' !! k = d !! k).
Proof.
  revert self d r self' d'.
  induction sizes as [|size sizes IH]; intros self d r self' d' E;
    cbn [HTTPCacheWrapper.block] in E.
  - unfold ret in E. injection E as <- <- <-.
    refine (conj eq_refl (conj eq_refl (conj eq_refl (conj _ _)))).
    + intros Hf. split; [exact Hf | eauto].
    + exists []. refine (conj eq_refl (conj _ (conj _ _))).
      * now intros chunks [= <-].
      * intros c Hc. now rewrite app_nil_r.
      * reflexivity.
  - rewrite read_unfold in E.
    destruct (Reader_read (HTTPCacheWrapper.fp self) size) as [[b fp1]|e] eqn:Er.
    + apply Reader_read_ok in Er as (Hb & Hp & Hfault).
      apply bind_ok in E as ([r1 self1] & d1 & E1 & E).
      unfold ret in E. injection E as <- <- <-.
      apply IH in E1 as (H1 & H2 & H3 & H4 & got & Hgot & Hchunks & Hcont & Hfr).
      simpl in H1, H2, H3, H4, Hgot, Hcont, Hfr.
      refine (conj H1 (conj H2 (conj H3 (conj _ _)))).
      * intros Hf. rewrite Hf in Hfault.
        destruct (H4 Hfault) as [H [chunks ->]]. split; [exact H |].
        simpl. eauto.
      * exists (b ++ got). refine (conj _ (conj _ (conj _ _))).
        -- rewrite <- app_assoc, Hgot, Hp, Hb. apply take_drop.
        -- intros chunks Hr. destruct r1 as [chunks1|e1]; [| discriminate].
           injection Hr as <-. simpl. f_equal. now apply Hchunks.
        -- intros c Hc. destruct (nonempty b) eqn:Hn.
           ++ rewrite (Hcont (c ++ b)), <- app_assoc; [reflexivity |].
              rewrite lookup_alter_eq, Hc. reflexivity.
           ++ apply nonempty_false in Hn. rewrite Hn. simpl.
              now apply Hcont.
        -- intros k Hk. rewrite (Hfr k Hk).
           destruct (nonempty b); [now apply lookup_alter_ne | reflexivity].
    + injection E as <- <- <-.
      refine (conj eq_refl (conj eq_refl (conj eq_refl (conj _ _)))).
      * intros Hf. unfold Reader_read in Er. now rewrite Hf in Er.
      * exists []. refine (conj eq_refl (conj _ (conj _ _))).
        -- discriminate.
        -- intros c Hc. now rewrite app_nil_r.
        -- reflexivity.
Qed.

Lemma file_at_frame (d d' : Os.Disk) (w : Os.Loc) (p : string) :
  (forall k, k <> w -> d' !! k = d !! k) ->
  Os.locate p <> w -> Os.file_at d' p = Os.file_at d p.
Proof.
  intros Hfr Hne. unfold Os.file_at, Os.node_at.
  destruct (snd (Os.locate p)); [reflexivity |]. now rewrite Hfr.
Qed.

Lemma node_at_frame (d d' : Os.Disk) (w k : Os.Loc) :
  (forall k, k <> w -> d' !! k = d !! k) ->
  k <> w -> Os.node_at d' k = Os.node_at d k.
Proof.
  intros Hfr Hne. unfold Os.node_at.
  destruct (snd k); [reflexivity |]. now apply Hfr.
Qed.

(** [close] on a wrapper whose cache file already holds [c]: with a source
    that does not raise and a target that is not a directory it returns,
    and the target holds [c] followed by the rest of the source. *)
Lemma close_runs f d c :
  Os.wloc (HTTPCacheWrapper._cache_file f)
  = Os.locate (HTTPCacheWrapper._temp_path f) ->
  HTTPCacheWrapper._temp_path f
  = HTTPCacheWrapper._real_path f +:+ ".keg_temp" ->
  d !! Os.locate (HTTPCacheWrapper._temp_path f) = Some (Os.File c) ->
  Os.reach d (HTTPCacheWrapper._temp_path f) = Ok tt ->
  fault (HTTPCacheWrapper.fp f) = None ->
  Str.is_empty (HTTPCacheWrapper._real_path f) = false ->
  Str.endswith_sep (HTTPCacheWrapper._real_path f) = false ->
  Os.node_at d (Os.locate (HTTPCacheWrapper._real_path f)) <> Some Os.Dir ->
  exists d',
    HTTPCacheWrapper.close f d = (Ok tt, d')
    /\ Os.file_at d' (HTTPCacheWrapper._real_path f)
       = Some (c ++ pending (HTTPCacheWrapper.fp f)).
Proof.
  intros Hw Ht Hc Hreach Hf Hemp Hsep Hdir.
  set (path := HTTPCacheWrapper._real_path f) in *.
  destruct (drain_healthy (S (length (pending (HTTPCacheWrapper.fp f)))) f d Hf)
    as (f' & d2 & Ed); [lia |].
  pose proof (drain_ok _ _ _ _ _ Ed) as (Hreal & Htemp & Hcontent & Hframe).
  rewrite Hw in Hcontent, Hframe. specialize (Hcontent c Hc).
  fold path in Hreal. rewrite Ht in *.
  assert (Hne : Os.locate path <> Os.locate (path +:+ ".keg_temp")).
  { intros E. symmetry in E. revert E. apply locate_staging_ne. }
  assert (Hdst : Os.node_at d2 (Os.locate path) = Os.node_at d (Os.locate path)).
  { eapply node_at_frame; [exact Hframe | exact Hne]. }
  assert (Hsrc : Os.reach d2 (path +:+ ".keg_temp") = Ok tt).
  { eapply reach_mono; [| exact Hreach].
    intros k Hk. rewrite Hframe; [exact Hk |]. intros ->. congruence. }
  assert (Htgt : Os.reach d2 path = Ok tt).
  { eapply reach_sibling; [apply components_staging | | | exact Hemp | exact Hsrc].
    - rewrite components_last, last_split_empty, Hemp, Hsep. reflexivity.
    - destruct path; [discriminate | reflexivity]. }
  exists (<[Os.locate path := Os.File (c ++ pending (HTTPCacheWrapper.fp f))]>
            (delete (Os.locate (path +:+ ".keg_temp")) d2)).
  split.
  - unfold HTTPCacheWrapper.close.
    erewrite bind_step by exact Ed. rewrite Hreal, Htemp.
    erewrite bind_step; [reflexivity |].
    apply rename_runs; try assumption.
    + rewrite node_at_lookup by apply locate_staging_snd. exact Hcontent.
    + apply staging_not_dirlike.
    + now rewrite Hdst.
  - unfold Os.file_at.
    rewrite node_at_lookup by (now apply node_at_not_dir in Hdir).
    now rewrite lookup_insert_eq.
Qed.

(** X7: [read] hands on what the source returns.  After any reads through a
    new wrapper, the bytes the reads have returned are, in order, the head
    of the payload, and the source holds the rest; the staging file exists;
    and the file at the target path is still the one from before the
    wrapper was created.  (The staging file is open and unflushed at this
    point: nothing is said about the bytes it holds.) *)
Theorem reads_pass_through_and_spare_target fp path sizes d f d1 r f' d2 :
  HTTPCacheWrapper.__init__ fp path d = (Ok f, d1) ->
  HTTPCacheWrapper.block f sizes d1 = (Ok (r, f'), d2) ->
  exists got,
    got ++ pending (HTTPCacheWrapper.fp f') = pending fp
    /\ (forall chunks, r = Ok chunks -> concat chunks = got)
    /\ Os.path_exists (path +:+ ".keg_temp") d2 = (Ok true, d2)
    /\ Os.file_at d2 path = Os.file_at d path.
Proof.
  intros Ei Eb.
  pose proof (init_fields _ _ _ _ _ Ei) as Hfields.
  pose proof (init_staged _ _ _ _ _ Ei) as [Hstaged Hreach].
  apply keeps_init in Ei. simpl in Ei. subst f.
  apply block_ok in Eb as (_ & _ & _ & _ & got & Hgot & Hchunks & Hcont & Hfr).
  simpl in Hgot, Hcont, Hfr. specialize (Hcont [] Hstaged). simpl in Hcont.
  exists got. refine (conj Hgot (conj Hchunks (conj _ _))).
  - unfold Os.path_exists.
    erewrite reach_mono; [| | exact Hreach].
    + rewrite node_at_lookup, Hcont by apply locate_staging_snd.
      now rewrite staging_not_dirlike.
    + intros k Hk. rewrite Hfr; [exact Hk |]. intros ->. congruence.
  - rewrite <- Ei. eapply file_at_frame; [exact Hfr |].
    intros E. symmetry in E. revert E. apply locate_staging_ne.
Qed.

Lemma reads_pass_through_and_spare_target_witness :
  let fp := BytesIO [x01; x02; x03; x04; x05] in
  let d : Os.Disk :=
    <[(false, ["cache"; "item"]) := Os.File [x09]]>
      {[ (false, ["cache"]) := Os.Dir ]} in
  let d1 := snd (HTTPCacheWrapper.__init__ fp "cache/item" d) in
  let f := {| HTTPCacheWrapper.fp := fp;
              HTTPCacheWrapper._real_path := "cache/item";
              HTTPCacheWrapper._temp_path := "cache/item.keg_temp";
              HTTPCacheWrapper._cache_file :=
                {| Os.wloc := (false, ["cache"; "item.keg_temp"]) |} |} in
  let f' := HTTPCacheWrapper.set_fp f (BytesIO [x04; x05]) in
  let d2 := snd (HTTPCacheWrapper.block f [2; 1]%Z d1) in
  [x01; x02; x03] ++ pending (HTTPCacheWrapper.fp f') = pending fp
  /\ Os.path_exists "cache/item.keg_temp" d2 = (Ok true, d2)
  /\ Os.file_at d2 "cache/item" = Some [x09].
Proof.
  intros fp d d1 f f' d2.
  destruct (reads_pass_through_and_spare_target fp "cache/item" [2; 1]%Z d f
              d1 (Ok [[x01; x02]; [x03]]) f' d2)
    as (got & Hgot & Hchunks & Hstaging & Htarget).
  - apply run_result. vm_compute. reflexivity.
  - apply run_result. vm_compute. reflexivity.
  - rewrite <- (Hchunks _ eq_refl) in Hgot.
    refine (conj Hgot (conj Hstaging _)).
    rewrite Htarget. vm_compute. reflexivity.
Defined.

(** X8: [__exit__] closes the wrapper and returns [False].  So a [with] block
    over a cache writer leaves the whole payload at the target whatever
    part of it the block has read, and also when the block raises; the
    outcome of the block, value or exception, is the outcome of the
    statement. *)
Theorem with_block_caches_whole_payload {A : Type} fp path sizes
    (after : list (list byte) -> result A) d f d1 :
  HTTPCacheWrapper.__init__ fp path d = (Ok f, d1) ->
  fault fp = None ->
  Str.endswith_sep path = false ->
  Os.node_at d1 (Os.locate path) <> Some Os.Dir ->
  exists chunks d',
    HTTPCacheWrapper.with_block fp path sizes after d = (after chunks, d')
    /\ (exists rest, concat chunks ++ rest = pending fp)
    /\ Os.file_at d' path = Some (pending fp).
Proof.
  intros Ei Hf Hsep Hdir.
  pose proof (init_fields _ _ _ _ _ Ei) as Hfields.
  pose proof (init_nonempty _ _ _ _ _ Ei) as Hemp.
  pose proof (init_staged _ _ _ _ _ Ei) as [Hstaged Hreach].
  destruct (block_returns sizes f d1) as (r & f' & d2 & Eb).
  pose proof (block_ok _ _ _ _ _ _ Eb)
    as (Hreal & Htemp & Hfile & Hfault & got & Hgot & Hchunks & Hcont & Hfr).
  rewrite Hfields in Hreal, Htemp, Hfile, Hfault, Hgot, Hcont, Hfr.
  simpl in Hreal, Htemp, Hfile, Hfault, Hgot, Hcont, Hfr.
  destruct (Hfault Hf) as [Hf' [chunks ->]].
  specialize (Hcont [] Hstaged). simpl in Hcont.
  destruct (close_runs f' d2 got) as (d' & Ec & Hres).
  - now rewrite Hfile, Htemp.
  - now rewrite Htemp, Hreal.
  - now rewrite Htemp.
  - rewrite Htemp. eapply reach_mono; [| exact Hreach].
    intros k Hk. rewrite Hfr; [exact Hk |]. intros ->. congruence.
  - exact Hf'.
  - now rewrite Hreal.
  - now rewrite Hreal.
  - rewrite Hreal. erewrite node_at_frame; [exact Hdir | exact Hfr |].
    intros E. symmetry in E. revert E. apply locate_staging_ne.
  - exists chunks, d'. split; [| split].
    + unfold HTTPCacheWrapper.with_block, HTTPCacheWrapper.__enter__.
      erewrite bind_step by exact Ei.
      erewrite bind_step by exact Eb.
      unfold HTTPCacheWrapper.__exit__.
      erewrite bind_step; [reflexivity |].
      erewrite bind_step by exact Ec. reflexivity.
    + exists (pending (HTTPCacheWrapper.fp f')).
      now rewrite (Hchunks _ eq_refl).
    + now rewrite Hreal, Hgot in Hres.
Qed.

Lemma with_block_caches_whole_payload_witness :
  let fp := BytesIO [x01; x02; x03; x04; x05] in
  let d : Os.Disk := {[ (false, ["cache"]) := Os.Dir ]} in
  exists chunks d',
    HTTPCacheWrapper.with_block fp "cache/item" [2]%Z
      (fun _ => @Raise unit (ValueError "bad header")) d
    = (Raise (ValueError "bad header"), d')
    /\ (exists rest, concat chunks ++ rest = pending fp)
    /\ Os.file_at d' "cache/item" = Some [x01; x02; x03; x04; x05].
Proof.
  intros fp d.
  apply (with_block_caches_whole_payload fp "cache/item" [2]%Z
           (fun _ => @Raise unit (ValueError "bad header")) d
           {| HTTPCacheWrapper.fp := fp;
              HTTPCacheWrapper._real_path := "cache/item";
              HTTPCacheWrapper._temp_path := "cache/item.keg_temp";
              HTTPCacheWrapper._cache_file :=
                {| Os.wloc := (false, ["cache"; "item.keg_temp"]) |} |}
           (snd (HTTPCacheWrapper.__init__ fp "cache/item" d))).
  - apply run_result. vm_compute. reflexivity.
  - reflexivity.
  - reflexivity.
  - vm_compute. discriminate.
Defined.

(** ** Promotion of temp files *)

(** The tail that [upgrade_temp_file] and [write_encrypted_file] share:
    make sure the directory of the destination exists, then rename. *)
Lemma ensure_dir_rename_ok (src dst : string) d d' :
  (let* e := Os.path_exists (Os.path_dirname dst) in
   (if negb e then Os.makedirs (Os.path_dirname dst) else ret tt) >>
   Os.rename src dst) d = (Ok tt, d') ->
  exists c,
    Os.file_at d src = Some c
    /\ Os.open_rb dst d' = (Ok (BytesIO c), d')
    /\ (Os.locate src <> Os.locate dst ->
        Os.path_exists src d' = (Ok false, d')).
Proof.
  intros E.
  apply bind_ok in E as (e & d1 & He & E).
  apply bind_ok in E as (? & d2 & Hm & E).
  apply path_exists_state in He. subst d1.
  assert (Hfile : Os.file_at d2 src = Os.file_at d src).
  { destruct (negb e).
    - eapply (keeps_makedirs src), Hm.
    - unfold ret in Hm. now injection Hm as _ <-. }
  apply rename_ok in E as (c & Hsrc & -> & Hemp & Hsep & Hdir & Hreach).
  exists c. split; [| split].
  - rewrite <- Hfile. unfold Os.file_at. now rewrite Hsrc.
  - apply open_rb_runs; [exact Hreach | | exact Hsep].
    apply node_at_not_dir in Hdir.
    now rewrite node_at_lookup, lookup_insert_eq by exact Hdir.
  - intros Hne. unfold Os.path_exists.
    assert (Hs : snd (Os.locate src) <> []).
    { apply (node_at_not_dir d2). rewrite Hsrc. discriminate. }
    rewrite node_at_lookup by exact Hs.
    rewrite lookup_insert_ne by congruence.
    rewrite lookup_delete_eq.
    now destruct (Os.reach _ src).
Qed.

Lemma ensure_dir_rename_raise (src dst q : string) d e d' :
  (let* e := Os.path_exists (Os.path_dirname dst) in
   (if negb e then Os.makedirs (Os.path_dirname dst) else ret tt) >>
   Os.rename src dst) d = (Raise e, d') ->
  Os.file_at d' q = Os.file_at d q.
Proof.
  intros E.
  apply bind_raise in E as [E | (b & d1 & He & E)].
  { now apply (keeps_path_exists (fun d => Os.file_at d q)) in E. }
  apply path_exists_state in He. subst d1.
  apply bind_raise in E as [E | (? & d2 & Hm & E)].
  - destruct (negb b); [| discriminate].
    eapply (keeps_makedirs q), E.
  - apply rename_raise_same in E. subst d'.
    destruct (negb b).
    + eapply (keeps_makedirs q), Hm.
    + unfold ret in Hm. now injection Hm as _ <-.
Qed.

(** X9: when [upgrade_temp_file] returns for a temp path that names a regular
    file, the bytes of that file are what [get_item] reads under the
    logical path, and the temp path no longer exists when it is [apart]
    from the target. *)
Theorem upgrade_temp_file_moves (self : LocalCDN.t) temp_path path c d d' :
  Os.file_at d temp_path = Some c ->
  LocalCDN.upgrade_temp_file self temp_path path d = (Ok tt, d') ->
  (let* resp := LocalCDN.get_item self path in BaseCDN.read_all resp) d'
  = (Ok c, d')
  /\ (Os.apart temp_path (LocalCDN.get_full_path self path) ->
      Os.path_exists temp_path d' = (Ok false, d')).
Proof.
  intros Hfile E. apply ensure_dir_rename_ok in E as (c' & Hc & Ho & Hgone).
  rewrite Hfile in Hc. injection Hc as <-. split.
  - unfold LocalCDN.get_item. erewrite bind_step by exact Ho.
    apply read_all_BytesIO.
  - intros (_ & _ & _ & Hne). now apply Hgone.
Qed.

Lemma upgrade_temp_file_moves_witness :
  let d : Os.Disk :=
    <[(false, ["tmp"; "c0ffee"]) := Os.File [x01; x02]]>
      {[ (false, ["tmp"]) := Os.Dir ]} in
  let d' := snd (LocalCDN.upgrade_temp_file sample_mirror "tmp/c0ffee"
                   "/data/ab/item" d) in
  (let* resp := LocalCDN.get_item sample_mirror "/data/ab/item" in
   BaseCDN.read_all resp) d' = (Ok [x01; x02], d')
  /\ Os.path_exists "tmp/c0ffee" d' = (Ok false, d').
Proof.
  intros d d'.
  destruct (upgrade_temp_file_moves sample_mirror "tmp/c0ffee" "/data/ab/item"
              [x01; x02] d d') as (Hread & Hgone).
  - vm_compute. reflexivity.
  - apply run_result. vm_compute. reflexivity.
  - split; [exact Hread |]. apply Hgone.
    split; [vm_compute; reflexivity |
      split; [vm_compute; reflexivity |
      split; [reflexivity | vm_compute; discriminate]]].
Defined.

(** X10: When [upgrade_temp_file] raises, no file has been lost or changed: the
    temp file and every other file hold what they held. *)
Theorem failed_upgrade_keeps_files (self : LocalCDN.t) temp_path path q
    d e d' :
  LocalCDN.upgrade_temp_file self temp_path path d = (Raise e, d') ->
  Os.file_at d' q = Os.file_at d q.
Proof. apply ensure_dir_rename_raise. Qed.

Lemma failed_upgrade_keeps_files_witness :
  let d : Os.Disk :=
    <[(false, ["cache"]) := Os.File [x09]]>
      (<[(false, ["tmp"; "c0ffee"]) := Os.File [x01; x02]]>
         {[ (false, ["tmp"]) := Os.Dir ]}) in
  let m := LocalCDN.upgrade_temp_file sample_mirror "tmp/c0ffee" "/ab/item" d in
  fst m = Raise (NotADirectoryError "cache/ab")
  /\ Os.file_at (snd m) "tmp/c0ffee" = Some [x01; x02].
Proof.
  intros d m.
  assert (Hm : fst m = Raise (NotADirectoryError "cache/ab"))
    by (vm_compute; reflexivity).
  split; [exact Hm |].
  rewrite (failed_upgrade_keeps_files sample_mirror "tmp/c0ffee" "/ab/item"
             "tmp/c0ffee" d (NotADirectoryError "cache/ab") (snd m)).
  - vm_compute. reflexivity.
  - apply run_result. exact Hm.
Defined.

(** X11: A temp file written by [write_temp_file] and promoted by
    [upgrade_temp_file] is read back by [get_item]: the whole source, or
    nothing when the buffer size was zero. *)
Theorem temp_file_promotion (self : LocalCDN.t) fp buf uuid path d p d1 d2 :
  LocalCDN.write_temp_file self fp buf uuid d = (Ok p, d1) ->
  LocalCDN.upgrade_temp_file self p path d1 = (Ok tt, d2) ->
  (let* resp := LocalCDN.get_item self path in BaseCDN.read_all resp) d2
  = (Ok (if (buf =? 0)%Z then [] else pending fp), d2).
Proof.
  intros Ew Eu.
  apply write_temp_file_ok in Ew as (_ & _ & _ & Hne & Hc).
  apply ensure_dir_rename_ok in Eu as (c & Hfile & Ho & _).
  unfold Os.file_at in Hfile. rewrite node_at_lookup, Hc in Hfile by exact Hne.
  injection Hfile as <-.
  unfold LocalCDN.get_item. erewrite bind_step by exact Ho.
  apply read_all_BytesIO.
Qed.

Lemma temp_file_promotion_witness :
  let fp := BytesIO [x01; x02; x03] in
  let d1 := snd (LocalCDN.write_temp_file sample_mirror fp 2 "c0ffee" ∅) in
  let d2 := snd (LocalCDN.upgrade_temp_file sample_mirror "tmp/c0ffee"
                   "/data/ab/item" d1) in
  (let* resp := LocalCDN.get_item sample_mirror "/data/ab/item" in
   BaseCDN.read_all resp) d2 = (Ok [x01; x02; x03], d2).
Proof.
  intros fp d1 d2.
  apply (temp_file_promotion sample_mirror fp 2 "c0ffee" "/data/ab/item" ∅
           "tmp/c0ffee" d1 d2).
  - apply run_result. vm_compute. reflexivity.
  - apply run_result. vm_compute. reflexivity.
Defined.

(** ** The encrypted object store: no partial object *)

Lemma keeps_write (q : string) (f : Os.Writer) (b : list byte) :
  Os.wloc f <> Os.locate q ->
  keeps (fun d => Os.file_at d q) (Os.write f b).
Proof.
  intros Hne d r d' E. unfold Os.write in E. injection E as _ <-.
  now apply file_at_alter_ne.
Qed.

Lemma keeps_copy_chunks (q : string) fuel fp (f : Os.Writer) (n : Z) :
  Os.wloc f <> Os.locate q ->
  keeps (fun d => Os.file_at d q) (LocalCDN.copy_chunks fuel fp f n).
Proof.
  intros Hne. revert fp. induction fuel as [|fuel IH]; intros fp.
  - apply keeps_raise.
  - cbn [LocalCDN.copy_chunks]. unfold lift.
    destruct (Reader_read fp n) as [[b fp']|e].
    + intros d r d' E. rewrite (bind_step _ _ d (b, fp') d eq_refl) in E.
      destruct (nonempty b).
      * revert d r d' E. apply keeps_bind; [now apply keeps_write |].
        intros _. apply IH.
      * revert d r d' E. apply keeps_ret.
    + intros d r d' E. rewrite (bind_fail _ _ d e d eq_refl) in E.
      now injection E as _ <-.
Qed.

Lemma keeps_write_temp_file (q : string) (self : LocalCDN.t) fp buf uuid :
  Os.locate (Os.path_join (LocalCDN.temp_dir self) uuid) <> Os.locate q ->
  keeps (fun d => Os.file_at d q) (LocalCDN.write_temp_file self fp buf uuid).
Proof.
  intros Hne. unfold LocalCDN.write_temp_file.
  apply keeps_bind; [apply keeps_path_exists |]. intros e.
  apply keeps_bind.
  { apply keeps_if; [apply keeps_makedirs | apply keeps_ret]. }
  intros _ d r d' E. unfold bind at 1 in E.
  destruct (Os.open_wb _ d) as [[f|e0] d1] eqn:Eo.
  - pose proof (open_wb_ok _ _ _ _ Eo) as (Hf & _).
    apply (keeps_open_wb q) in Eo; [| exact Hne]. simpl in Eo. rewrite <- Eo.
    assert (Hw : Os.wloc f <> Os.locate q) by (now subst f).
    clear Eo. revert d1 r d' E.
    apply keeps_bind; [| intros; apply keeps_ret].
    destruct (buf <? 0)%Z.
    + unfold lift. destruct (Reader_read fp (-1)) as [[data fp']|e1].
      * intros d1 r d' E.
        rewrite (bind_step _ _ d1 (data, fp') d1 eq_refl) in E.
        revert E. now apply keeps_write.
      * intros d1 r d' E. rewrite (bind_fail _ _ d1 e1 d1 eq_refl) in E.
        now injection E as _ <-.
    + now apply keeps_copy_chunks.
  - injection E as _ <-. eapply (keeps_open_wb q), Eo. exact Hne.
Qed.

(** X12: [write_encrypted_file] stages in the temp store and renames last.
    When the temp path is [apart] from the encrypted path then, whatever it
    raises, and in particular when the source fails half way, no regular
    file at the encrypted path has been created or changed: the object
    there is the one from before; and when it returns, the temp file is
    gone. *)
Theorem write_encrypted_file_no_partial_object (self : LocalCDN.t) fp path
    buf uuid d :
  let temp_path := Os.path_join (LocalCDN.temp_dir self) uuid in
  let crypt_path := LocalCDN.get_encrypted_path self path in
  Os.apart temp_path crypt_path ->
  (forall e d',
     LocalCDN.write_encrypted_file self fp path buf uuid d = (Raise e, d') ->
     Os.file_at d' crypt_path = Os.file_at d crypt_path)
  /\ (forall d',
        LocalCDN.write_encrypted_file self fp path buf uuid d = (Ok tt, d') ->
        Os.path_exists temp_path d' = (Ok false, d')).
Proof.
  intros temp_path crypt_path (_ & _ & _ & Hne). split.
  - intros e d' E. unfold LocalCDN.write_encrypted_file in E.
    apply bind_raise in E as [E | (p & d1 & Ew & E)].
    + eapply (keeps_write_temp_file crypt_path), E. exact Hne.
    + apply (keeps_write_temp_file crypt_path) in Ew; [| exact Hne].
      simpl in Ew. rewrite <- Ew.
      eapply ensure_dir_rename_raise, E.
  - intros d' E. unfold LocalCDN.write_encrypted_file in E.
    apply bind_ok in E as (p & d1 & Ew & E).
    apply write_temp_file_ok in Ew as (-> & _).
    apply ensure_dir_rename_ok in E as (c & _ & _ & Hgone).
    now apply Hgone.
Qed.

Lemma write_encrypted_file_no_partial_object_witness :
  let fp := {| pending := [x01; x02; x03; x04]; fault := Some 1 |} in
  let d : Os.Disk :=
    <[(false, ["arm"; "objects"; "item"]) := Os.File [x09]]>
      (<[(false, ["arm"; "objects"]) := Os.Dir]>
         {[ (false, ["arm"]) := Os.Dir ]}) in
  let m := LocalCDN.write_encrypted_file sample_mirror fp "/item" 2
             "c0ffee" d in
  fst m = Raise (OSError "read failed")
  /\ Os.file_at (snd m) "arm/objects/item" = Some [x09].
Proof.
  intros fp d m.
  assert (Hm : fst m = Raise (OSError "read failed"))
    by (vm_compute; reflexivity).
  split; [exact Hm |].
  transitivity (Os.file_at d "arm/objects/item"); [| vm_compute; reflexivity].
  apply (proj1 (write_encrypted_file_no_partial_object sample_mirror fp
                  "/item" 2 "c0ffee" d
                  ltac:(split; [vm_compute; reflexivity |
      split; [vm_compute; reflexivity |
      split; [reflexivity | vm_compute; discriminate]]]))
           (OSError "read failed") (snd m)).
  apply run_result. exact Hm.
Defined.

(** ** What has been saved is found *)

Lemma cache_then_open fp path d d' :
  (let* f := HTTPCacheWrapper.__init__ fp path in HTTPCacheWrapper.close f) d
  = (Ok tt, d') ->
  Os.open_rb path d' = (Ok (BytesIO (pending fp)), d').
Proof.
  intros E. apply bind_ok in E as (f & d1 & Ei & Ec).
  pose proof (init_fields _ _ _ _ _ Ei) as Hf.
  apply init_staged in Ei as [Hs _]. subst f.
  exact (close_ok _ _ _ Ec eq_refl (locate_staging_snd _) [] Hs).
Qed.

Lemma fmap_result_ok {A B : Type} (g : A -> B) (r : result A) b :
  fmap_result g r = Ok b -> exists a, r = Ok a /\ b = g a.
Proof. destruct r as [a|e]; simpl; [| discriminate]. intros [= <-]. eauto. Qed.

Section SavedIsFound.
Context `{U : Utils}.
#[local] Existing Instance LocalCDN.cdn.

(** X13: An object saved under the logical path of a key is found by the
    existence test of its category and returned by the fetch operation of
    that category: data by [has_data] and [download_data], an index by
    [has_index] and [fetch_index], a config item by [has_config_item] and
    [get_config_item]. *)
Theorem saved_objects_are_found (self : LocalCDN.t) item key verify d d' :
  (forall p, get_data_path key = Ok p ->
     LocalCDN.save_item self item p d = (Ok tt, d') ->
     LocalCDN.has_data self key d' = (Ok true, d')
     /\ BaseCDN.download_data self key verify d'
        = (Ok (BytesIO (pending item)), d'))
  /\ (forall p, get_data_index_path key = Ok p ->
        LocalCDN.save_item self item p d = (Ok tt, d') ->
        LocalCDN.has_index self key d' = (Ok true, d')
        /\ BaseCDN.fetch_index self key verify d' = (Ok (pending item), d'))
  /\ (forall p, get_config_item_path key = Ok p ->
        LocalCDN.save_config_item self item p d = (Ok tt, d') ->
        LocalCDN.has_config_item self key d' = (Ok true, d')
        /\ (let* resp := LocalCDN.get_config_item self p in
            BaseCDN.read_all resp) d' = (Ok (pending item), d')).
Proof.
  split; [| split]; intros p Hp E; apply cache_then_open in E;
    pose proof (open_rb_exists _ _ _ _ E) as [He _].
  - unfold LocalCDN.has_data, BaseCDN.download_data. rewrite Hp.
    rewrite !bind_lift_ok. split; [exact He | exact E].
  - unfold LocalCDN.has_index, BaseCDN.fetch_index. rewrite Hp.
    rewrite !bind_lift_ok. split; [exact He |].
    change (get_item self p) with (LocalCDN.get_item self p).
    unfold LocalCDN.get_item. erewrite bind_step by exact E.
    apply read_all_BytesIO.
  - unfold get_config_item_path in Hp.
    apply fmap_result_ok in Hp as (h & Hh & ->).
    unfold LocalCDN.has_config_item. rewrite Hh, bind_lift_ok.
    split; [exact He |].
    unfold LocalCDN.get_config_item. erewrite bind_step by exact E.
    apply read_all_BytesIO.
Qed.

End SavedIsFound.

Section SavedIsFoundWitness.
#[local] Existing Instance SpecUtils.utils.
#[local] Existing Instance LocalCDN.cdn.

Lemma saved_objects_are_found_witness :
  let d' := snd (LocalCDN.save_item sample_mirror (BytesIO [x01; x02])
                   "/data/00/00/0000000000000000000000000000001c" ∅) in
  LocalCDN.has_data sample_mirror sample_key d' = (Ok true, d')
  /\ BaseCDN.download_data sample_mirror sample_key true d'
     = (Ok (BytesIO [x01; x02]), d').
Proof.
  intros d'.
  apply (proj1 (saved_objects_are_found sample_mirror (BytesIO [x01; x02])
                  sample_key true ∅ d')
           "/data/00/00/0000000000000000000000000000001c").
  - reflexivity.
  - apply run_result. vm_compute. reflexivity.
Defined.

End SavedIsFoundWitness.

(** ** Keys that the partition function rejects *)

Section InvalidKey.
Context `{U : Utils} {W T : Type} `{C : CDN W T}.

(** X14: The logical path is computed before the backend is asked for
    anything.  A key that [partition_hash] rejects makes every fetch
    operation raise that same error, whatever the backend is, without a
    call to [get_item] or [get_config_item]: the state of the backend is
    as it was. *)
Theorem rejected_key_reaches_no_backend (self : T) key verify e w :
  partition_hash key = Raise e ->
  BaseCDN.fetch_config self key verify w = (Raise e, w)
  /\ BaseCDN.fetch_config_data self key verify w = (Raise e, w)
  /\ BaseCDN.fetch_index self key verify w = (Raise e, w)
  /\ BaseCDN.fetch_patch self key verify w = (Raise e, w)
  /\ BaseCDN.fetch_patch_index self key verify w = (Raise e, w)
  /\ BaseCDN.download_data self key verify w = (Raise e, w).
Proof.
  intros H.
  unfold BaseCDN.fetch_config, BaseCDN.fetch_config_data, BaseCDN.fetch_index,
    BaseCDN.fetch_patch, BaseCDN.fetch_patch_index, BaseCDN.download_data,
    get_config_path, get_config_item_path, get_data_index_path,
    get_patch_index_path, get_data_path, get_patch_path.
  rewrite H. cbn [fmap_result]. rewrite !bind_lift_raise. auto 10.
Qed.

End InvalidKey.

Section InvalidKeyLocal.
Context `{U : Utils}.

(** X15: The existence tests of the local backend that take a key do not answer
    [False] for a key that [partition_hash] rejects: they raise its error,
    and so does [get_fragment]. *)
Theorem existence_tests_raise_on_rejected_key (self : LocalCDN.t) key e d :
  partition_hash key = Raise e ->
  LocalCDN.has_config self key d = (Raise e, d)
  /\ LocalCDN.has_data self key d = (Raise e, d)
  /\ LocalCDN.has_index self key d = (Raise e, d)
  /\ LocalCDN.has_patch self key d = (Raise e, d)
  /\ LocalCDN.has_patch_index self key d = (Raise e, d)
  /\ LocalCDN.has_config_item self key d = (Raise e, d)
  /\ LocalCDN.has_fragment self key d = (Raise e, d)
  /\ LocalCDN.get_fragment self key d = (Raise e, d).
Proof.
  intros H.
  unfold LocalCDN.has_config, LocalCDN.has_data, LocalCDN.has_index,
    LocalCDN.has_patch, LocalCDN.has_patch_index, LocalCDN.has_config_item,
    LocalCDN.has_fragment, LocalCDN.get_fragment, LocalCDN.get_fragment_path,
    get_config_path, get_data_index_path, get_patch_index_path,
    get_data_path, get_patch_path.
  rewrite H. cbn [fmap_result]. rewrite !bind_lift_raise. auto 10.
Qed.

End InvalidKeyLocal.

(** ** The abstract backend *)

Section AbstractBackend.
Context `{U : Utils} {W : Type}.
#[local] Existing Instance BaseCDN.cdn.

(** X16: On [BaseCDN] itself, whose two primitives are not implemented, every
    fetch operation raises [NotImplementedError] once the key has been
    accepted, for both values of [verify]. *)
Theorem base_class_fetches_not_implemented key h verify (w : W) :
  partition_hash key = Ok h ->
  BaseCDN.fetch_config BaseCDN.Abstract key verify w
  = (Raise NotImplementedError, w)
  /\ BaseCDN.fetch_config_data BaseCDN.Abstract key verify w
     = (Raise NotImplementedError, w)
  /\ BaseCDN.fetch_index BaseCDN.Abstract key verify w
     = (Raise NotImplementedError, w)
  /\ BaseCDN.fetch_patch BaseCDN.Abstract key verify w
     = (Raise NotImplementedError, w)
  /\ BaseCDN.fetch_patch_index BaseCDN.Abstract key verify w
     = (Raise NotImplementedError, w)
  /\ BaseCDN.download_data BaseCDN.Abstract key verify w
     = (Raise NotImplementedError, w).
Proof.
  intros H.
  unfold BaseCDN.fetch_config, BaseCDN.fetch_config_data, BaseCDN.fetch_index,
    BaseCDN.fetch_patch, BaseCDN.fetch_patch_index, BaseCDN.download_data,
    get_config_path, get_config_item_path, get_data_index_path,
    get_patch_index_path, get_data_path, get_patch_path.
  rewrite H. cbn [fmap_result]. rewrite !bind_lift_ok. auto 10.
Qed.

End AbstractBackend.

Section InvalidKeyWitness.
#[local] Existing Instance SpecUtils.utils.

Lemma rejected_key_reaches_no_backend_witness :
  @BaseCDN.fetch_index _ _ _ LocalCDN.cdn sample_mirror "not-a-key" true ∅
  = (Raise (ValueError "Invalid hash to partition"), ∅)
  /\ @BaseCDN.download_data _ _ _ LocalCDN.cdn sample_mirror "not-a-key" true ∅
     = (Raise (ValueError "Invalid hash to partition"), ∅).
Proof.
  destruct (@rejected_key_reaches_no_backend _ _ _ LocalCDN.cdn sample_mirror
              "not-a-key" true (ValueError "Invalid hash to partition") ∅)
    as (_ & _ & H3 & _ & _ & H6); [reflexivity |].
  split; [exact H3 | exact H6].
Defined.

Lemma existence_tests_raise_on_rejected_key_witness :
  LocalCDN.has_data sample_mirror "not-a-key" ∅
  = (Raise (ValueError "Invalid hash to partition"), ∅)
  /\ LocalCDN.has_fragment sample_mirror "not-a-key" ∅
     = (Raise (ValueError "Invalid hash to partition"), ∅).
Proof.
  destruct (existence_tests_raise_on_rejected_key sample_mirror "not-a-key"
              (ValueError "Invalid hash to partition") ∅)
    as (_ & H2 & _ & _ & _ & _ & H7 & _); [reflexivity |].
  split; [exact H2 | exact H7].
Defined.

Lemma base_class_fetches_not_implemented_witness :
  @BaseCDN.fetch_patch _ _ _ (BaseCDN.cdn unit) BaseCDN.Abstract sample_key
    true tt
  = (Raise NotImplementedError, tt).
Proof.
  destruct (@base_class_fetches_not_implemented _ unit sample_key
              "00/00/0000000000000000000000000000001c" true tt)
    as (_ & _ & _ & H4 & _); [reflexivity |].
  exact H4.
Defined.

End InvalidKeyWitness.

(** ** The remote path join on plain segments *)

(** X17: [_join_path] appends.  For a base made of plain segments, anchored
    or not, and a path made of plain segments, written with any number of
    leading separators, the result is the base, a separator and the path:
    nothing of the base is replaced and no leading separator of the path
    takes the result back to the root. *)
Theorem join_path_appends_plain_segments (self : RemoteCDN.t)
    (b0 : string) (bs us : list string) (seps : string) :
  b0 = EmptyString \/ plain_segment b0 = true ->
  forallb plain_segment bs = true ->
  forallb plain_segment us = true ->
  us <> [] ->
  Str.all_sep seps = true ->
  RemoteCDN._join_path self (Str.join (b0 :: bs)) (seps +:+ Str.join us)
  = Str.join (b0 :: bs ++ us).
Proof. apply join_path_plain. Qed.

Lemma join_path_appends_plain_segments_witness :
  RemoteCDN._join_path hs_mirror "/tpr/hs"
    "/data/ab/cd/abcd0123456789abcdef0123456789ab"
  = "/tpr/hs/data/ab/cd/abcd0123456789abcdef0123456789ab"
  /\ RemoteCDN._join_path hs_mirror "tpr/configs/data" "//ab/cd/item"
     = "tpr/configs/data/ab/cd/item".
Proof.
  split.
  - apply (join_path_appends_plain_segments hs_mirror "" ["tpr"; "hs"]
             ["data"; "ab"; "cd"; "abcd0123456789abcdef0123456789ab"] "/");
      [now left | reflexivity | reflexivity | discriminate | reflexivity].
  - apply (join_path_appends_plain_segments hs_mirror "tpr" ["configs"; "data"]
             ["ab"; "cd"; "item"] "//");
      [now right | reflexivity | reflexivity | discriminate | reflexivity].
Defined.

(** ** The directory of the cache file *)

Lemma cut_last_sep_no_sep (p : string) :
  Str.no_sep p = true -> Os.cut_last_sep p = (EmptyString, p).
Proof.
  induction p as [|a p IH]; [reflexivity |]. simpl.
  intros H. apply andb_true_iff in H as [Ha Hp].
  apply negb_true_iff in Ha. now rewrite (IH Hp), Ha.
Qed.

Lemma dirname_no_sep (p : string) :
  Str.no_sep p = true -> Os.path_dirname p = EmptyString.
Proof.
  intros H. unfold Os.path_dirname, Os.path_split.
  now rewrite (cut_last_sep_no_sep p H).
Qed.

(** X18: A target path without a directory part cannot be cached: its
    directory name is the empty string, which does not exist and which
    [os.makedirs] cannot create.  The wrapper is not created and no file is
    opened. *)
Theorem cache_writer_rejects_bare_name fp path d :
  Str.no_sep path = true ->
  HTTPCacheWrapper.__init__ fp path d = (Raise (FileNotFoundError ""), d).
Proof.
  intros H. unfold HTTPCacheWrapper.__init__.
  rewrite (dirname_no_sep path H). reflexivity.
Qed.

Lemma cache_writer_rejects_bare_name_witness :
  HTTPCacheWrapper.__init__ (BytesIO [x01]) "item" ∅
  = (Raise (FileNotFoundError ""), ∅).
Proof. now apply cache_writer_rejects_bare_name. Defined.

Lemma append_nil_r (s : string) : s +:+ EmptyString = s.
Proof.
  induction s as [|a s IH]; [reflexivity |].
  change (String a s +:+ "") with (String a (s +:+ "")). now rewrite IH.
Qed.

Lemma append_assoc (a b c : string) : (a +:+ b) +:+ c = a +:+ (b +:+ c).
Proof.
  induction a as [|x a IH]; [reflexivity |].
  change (String x ((a +:+ b) +:+ c) = String x (a +:+ (b +:+ c))).
  now rewrite IH.
Qed.

Lemma string_of_list_ascii_app (a b : list ascii) :
  string_of_list_ascii (a ++ b)
  = string_of_list_ascii a +:+ string_of_list_ascii b.
Proof.
  induction a as [|x a IH]; [reflexivity |].
  change (String x (string_of_list_ascii (a ++ b))
          = String x (string_of_list_ascii a +:+ string_of_list_ascii b)).
  now rewrite IH.
Qed.

Lemma rev_rev (s : string) : Str.rev (Str.rev s) = s.
Proof.
  unfold Str.rev.
  now rewrite list_ascii_of_string_of_list_ascii, rev_involutive,
    string_of_list_ascii_of_string.
Qed.

Lemma rev_append (a b : string) :
  Str.rev (a +:+ b) = Str.rev b +:+ Str.rev a.
Proof.
  unfold Str.rev.
  now rewrite list_ascii_of_string_append, rev_app_distr,
    string_of_list_ascii_app.
Qed.

Lemma all_sep_forallb (s : string) :
  Str.all_sep s = forallb Str.is_sep (list_ascii_of_string s).
Proof. induction s as [|a s IH]; simpl; [reflexivity | now rewrite IH]. Qed.

Lemma all_sep_rev (s : string) :
  Str.all_sep s = true -> Str.all_sep (Str.rev s) = true.
Proof.
  rewrite !all_sep_forallb. unfold Str.rev.
  rewrite list_ascii_of_string_of_list_ascii, !forallb_forall.
  intros H a Ha. apply H. now apply in_rev.
Qed.

Lemma lstrip_decomp (s : string) :
  exists seps, Str.all_sep seps = true /\ s = seps +:+ Str.lstrip s.
Proof.
  induction s as [|a s (seps & Hs & E)]; [now exists EmptyString |].
  cbn [Str.lstrip]. destruct (Str.is_sep a) eqn:Ha.
  - exists (String a seps). split.
    + cbn [Str.all_sep]. now rewrite Ha, Hs.
    + change (String a s = String a (seps +:+ Str.lstrip s)).
      now rewrite <- E.
  - now exists EmptyString.
Qed.

Lemma rstrip_decomp (s : string) :
  exists seps, Str.all_sep seps = true /\ s = Str.rstrip s +:+ seps.
Proof.
  destruct (lstrip_decomp (Str.rev s)) as (seps & Hs & E).
  exists (Str.rev seps). split; [now apply all_sep_rev |].
  unfold Str.rstrip. rewrite <- rev_append, <- E. symmetry. apply rev_rev.
Qed.

Lemma components_snoc_sep (x : string) :
  Os.components (x +:+ "/") = Os.components x.
Proof.
  unfold Os.components. rewrite split_snoc_sep, List.filter_app. simpl.
  apply app_nil_r.
Qed.

Lemma components_app_all_sep (seps x : string) :
  Str.all_sep seps = true -> Os.components (x +:+ seps) = Os.components x.
Proof.
  revert x. induction seps as [|a seps IH]; intros x H.
  - now rewrite append_nil_r.
  - simpl in H. apply andb_true_iff in H as [Ha Hs].
    apply Ascii.eqb_eq in Ha. subst a.
    change (x +:+ String Str.sep seps) with (x +:+ ("/" +:+ seps)).
    rewrite <- append_assoc, (IH _ Hs). apply components_snoc_sep.
Qed.

Lemma components_rstrip (s : string) :
  Os.components (Str.rstrip s) = Os.components s.
Proof.
  destruct (rstrip_decomp s) as (seps & Hs & E).
  rewrite E at 2. symmetry. now apply components_app_all_sep.
Qed.

Lemma cut_last_sep_spec (p h t : string) :
  Os.cut_last_sep p = (h, t) ->
  p = h +:+ t /\ Str.no_sep t = true
  /\ (Str.is_empty h = true \/ Str.endswith_sep h = true).
Proof.
  revert h t. induction p as [|a p IH]; intros h t; cbn [Os.cut_last_sep].
  - intros [= <- <-]. auto.
  - destruct (Os.cut_last_sep p) as [h' t'].
    destruct (IH _ _ eq_refl) as (E & Ht & Hh).
    destruct (Str.is_sep a) eqn:Ha.
    + intros [= <- <-]. split; [| split; [exact Ht |]].
      * change (String a p = String a (h' +:+ t')). now rewrite <- E.
      * right. destruct h' as [|b h']; [exact Ha |].
        destruct Hh as [Hh | Hh]; [discriminate | exact Hh].
    + destruct (Str.is_empty h') eqn:He.
      * intros [= <- <-]. destruct h'; [| discriminate].
        change (p = t') in E. subst p.
        split; [reflexivity |]. split; [| now left].
        cbn [Str.no_sep]. now rewrite Ha, Ht.
      * intros [= <- <-]. split; [| split; [exact Ht |]].
        -- change (String a p = String a (h' +:+ t')). now rewrite <- E.
        -- right. destruct h' as [|b h']; [discriminate |].
           destruct Hh as [Hh | Hh]; [discriminate | exact Hh].
Qed.

Lemma components_head_tail (h t : string) :
  Str.is_empty h = true \/ Str.endswith_sep h = true ->
  Str.no_sep t = true ->
  Os.components (h +:+ t)
  = Os.components h ++ (if Str.is_empty t then [] else [t]).
Proof.
  intros Hh Ht.
  assert (Hlast : List.last (Str.split h) EmptyString = EmptyString).
  { pose proof (last_split_empty h) as E.
    destruct (List.last (Str.split h) EmptyString); [reflexivity |].
    simpl in E. destruct Hh as [Hh | Hh]; rewrite Hh in E;
      [discriminate | now rewrite orb_true_r in E]. }
  rewrite (components_last h), Hlast. simpl. rewrite app_nil_r.
  unfold Os.components. rewrite split_append_no_sep by exact Ht.
  rewrite Hlast, List.filter_app. simpl. now destruct t.
Qed.

Lemma path_split_components (p h t : string) :
  Os.path_split p = (h, t) ->
  Os.components p = Os.components h ++ (if Str.is_empty t then [] else [t]).
Proof.
  unfold Os.path_split.
  destruct (Os.cut_last_sep p) as [h0 t0] eqn:Hc.
  apply cut_last_sep_spec in Hc as (-> & Ht & Hh).
  intros [= <- <-]. rewrite (components_head_tail _ _ Hh Ht). f_equal.
  destruct (negb (Str.is_empty h0) && negb (Str.all_sep h0));
    [now rewrite components_rstrip | reflexivity].
Qed.

Lemma dirname_components (p : string) :
  forall c, In c (Os.components (Os.path_dirname p)) -> In c (Os.components p).
Proof.
  intros c Hc. unfold Os.path_dirname in Hc.
  destruct (Os.path_split p) as [h t] eqn:Hs.
  rewrite (path_split_components _ _ _ Hs). apply in_or_app. now left.
Qed.

(** [os.mkdir] leaves a directory behind. *)
Lemma mkdir_exists p d d' :
  Os.mkdir p d = (Ok tt, d') -> Os.path_exists p d' = (Ok true, d').
Proof.
  unfold Os.mkdir. destruct (Os.reach d p) as [[]|e] eqn:Hr; [| discriminate].
  destruct (Os.node_at d (Os.locate p)) as [n|] eqn:Hn; [discriminate |].
  intros [= <-]. unfold Os.path_exists.
  rewrite reach_insert, Hr by reflexivity.
  assert (Hs : snd (Os.locate p) <> []).
  { apply (node_at_not_dir d). now rewrite Hn. }
  now rewrite node_at_lookup, lookup_insert_eq by exact Hs.
Qed.

(** [os.makedirs] too, for a name without a ["."] component. *)
Lemma makedirs_rec_exists fuel name d d' :
  ~ In "." (Os.components name) ->
  Os.makedirs_rec fuel name d = (Ok tt, d') ->
  Os.path_exists name d' = (Ok true, d').
Proof.
  intros Hdot. destruct fuel as [|fuel]; [discriminate |].
  cbn [Os.makedirs_rec].
  destruct (Os.path_split name) as [head tail] eqn:Hs.
  destruct (if Str.is_empty tail then Os.path_split head else (head, tail))
    as [head' tail'] eqn:Hs'.
  assert (Htail : Str.is_empty tail' = false -> In tail' (Os.components name)).
  { intros Hne. rewrite (path_split_components _ _ _ Hs).
    destruct (Str.is_empty tail) eqn:Ht.
    - rewrite (path_split_components _ _ _ Hs'), Hne.
      apply in_or_app. left. apply in_or_app. right. now left.
    - injection Hs' as Eh Et. subst head' tail'.
      apply in_or_app. right. now left. }
  intros E. apply bind_ok in E as (stop & d1 & Estop & E).
  destruct stop; [| exact (mkdir_exists _ _ _ E)].
  exfalso.
  destruct (negb (Str.is_empty head') && negb (Str.is_empty tail')) eqn:Hc;
    [| discriminate].
  apply andb_true_iff in Hc as [_ Hne]. apply negb_true_iff in Hne.
  apply bind_ok in Estop as (b & d2 & _ & Estop).
  destruct b; [discriminate |].
  apply bind_ok in Estop as (? & d3 & _ & Estop).
  unfold ret in Estop. injection Estop as Estop _.
  apply String.eqb_eq in Estop. subst tail'. now apply Hdot, Htail.
Qed.

(** A file put where there was no directory hides nothing that existed. *)
Lemma path_exists_insert_file p d k c :
  Os.path_exists p d = (Ok true, d) ->
  Os.node_at d k <> Some Os.Dir ->
  Os.path_exists p (<[k := Os.File c]> d) = (Ok true, <[k := Os.File c]> d).
Proof.
  unfold Os.path_exists. intros E Hk.
  destruct (Os.reach d p) as [[]|e] eqn:Hr; [| discriminate].
  erewrite reach_mono; [| | exact Hr].
  2: { intros k' Hk'. now apply dirs_insert_file. }
  destruct (decide (k = Os.locate p)) as [-> | Hne].
  - destruct (Os.node_at d (Os.locate p)) as [[|c0]|] eqn:Hn;
      [congruence | | discriminate].
    assert (Hs : snd (Os.locate p) <> []).
    { apply (node_at_not_dir d). now rewrite Hn. }
    rewrite node_at_lookup, lookup_insert_eq by exact Hs.
    destruct (Str.endswith_sep p); [discriminate | reflexivity].
  - rewrite node_at_insert_ne by exact Hne.
    destruct (Os.node_at d (Os.locate p)) as [[|c0]|]; try discriminate;
      [reflexivity |].
    destruct (Str.endswith_sep p); [discriminate | reflexivity].
Qed.

(** X19: The wrapper creates the directory of its target when it is missing:
    once [__init__] has returned, that directory exists.  (Paths with a
    ["."] component are outside the model of the file system.) *)
Theorem cache_writer_makes_directory fp path d f d' :
  ~ In "." (Os.components path) ->
  HTTPCacheWrapper.__init__ fp path d = (Ok f, d') ->
  Os.path_exists (Os.path_dirname path) d' = (Ok true, d').
Proof.
  intros Hdot E. unfold HTTPCacheWrapper.__init__ in E.
  apply bind_ok in E as (e & d1 & He & E).
  apply bind_ok in E as ([] & d2 & Hm & E).
  apply bind_ok in E as (w & d3 & Ho & E).
  unfold ret in E. injection E as _ <-.
  assert (Hex : Os.path_exists (Os.path_dirname path) d2 = (Ok true, d2)).
  { pose proof (path_exists_state _ _ _ _ He) as ->.
    destruct e; simpl in Hm.
    - unfold ret in Hm. injection Hm as Hm. now subst d2.
    - eapply makedirs_rec_exists; [| exact Hm].
      intros Hin. now apply Hdot, dirname_components. }
  apply open_wb_ok in Ho as (_ & -> & _ & _ & Hdir & _).
  now apply path_exists_insert_file.
Qed.

Lemma cache_writer_makes_directory_witness :
  let d' := snd (HTTPCacheWrapper.__init__ (BytesIO [x01])
                   "cache/data/ab/item" ∅) in
  Os.path_exists "cache/data/ab" ∅ = (Ok false, ∅)
  /\ Os.path_exists "cache/data/ab" d' = (Ok true, d').
Proof.
  intros d'. split; [reflexivity |].
  apply (cache_writer_makes_directory (BytesIO [x01]) "cache/data/ab/item" ∅
           {| HTTPCacheWrapper.fp := BytesIO [x01];
              HTTPCacheWrapper._real_path := "cache/data/ab/item";
              HTTPCacheWrapper._temp_path := "cache/data/ab/item.keg_temp";
              HTTPCacheWrapper._cache_file :=
                {| Os.wloc := (false, ["cache"; "data"; "ab";
                                       "item.keg_temp"]) |} |} d').
  - vm_compute. intros H. repeat (destruct H as [H | H]; [discriminate |]).
    exact H.
  - apply run_result. vm_compute. reflexivity.
Defined.

(** ** The temp store: other files *)

(** X20: [write_temp_file] changes one file only, the temp file it names.
    Whether it returns or raises, a path that is [apart] from the temp path
    names the same regular file as before; so temp files with different
    names in one temp directory never overwrite each other. *)
Theorem write_temp_file_changes_no_other_file (self : LocalCDN.t) fp buf uuid
    q d r d' :
  Os.apart (Os.path_join (LocalCDN.temp_dir self) uuid) q ->
  LocalCDN.write_temp_file self fp buf uuid d = (r, d') ->
  Os.file_at d' q = Os.file_at d q.
Proof.
  intros (_ & _ & _ & Hne).
  apply (keeps_write_temp_file q self fp buf uuid Hne).
Qed.

Lemma write_temp_file_changes_no_other_file_witness :
  let d1 := snd (LocalCDN.write_temp_file sample_mirror (BytesIO [x01; x02])
                   (-1) "c0ffee" ∅) in
  let m := LocalCDN.write_temp_file sample_mirror (BytesIO [x03]) 1 "decaf"
             d1 in
  Os.file_at (snd m) "tmp/c0ffee" = Some [x01; x02].
Proof.
  intros d1 m.
  rewrite (write_temp_file_changes_no_other_file sample_mirror (BytesIO [x03])
             1 "decaf" "tmp/c0ffee" d1 (fst m) (snd m)).
  - vm_compute. reflexivity.
  - split; [vm_compute; reflexivity |
      split; [vm_compute; reflexivity |
      split; [reflexivity | vm_compute; discriminate]]].
  - apply surjective_pairing.
Defined.

(** ** Local paths stay under their root *)

Lemma lstrip_not_startswith (s : string) :
  Str.startswith_sep (Str.lstrip s) = false.
Proof.
  induction s as [|a s IH]; [reflexivity |]. cbn [Str.lstrip].
  destruct (Str.is_sep a) eqn:Ha; [exact IH | exact Ha].
Qed.

Lemma path_join_relative (a b : string) :
  Str.startswith_sep b = false ->
  Os.path_join a b
  = a +:+ (if Str.is_empty a || Str.endswith_sep a then "" else "/") +:+ b.
Proof.
  intros H. unfold Os.path_join. rewrite H.
  now destruct (Str.is_empty a || Str.endswith_sep a).
Qed.

Lemma endswith_sep_app (a b : string) :
  Str.is_empty b = false ->
  Str.endswith_sep (a +:+ b) = Str.endswith_sep b.
Proof.
  intros Hb. induction a as [|x a IH]; [reflexivity |].
  change (String x a +:+ b) with (String x (a +:+ b)).
  cbn [Str.endswith_sep].
  destruct (a +:+ b) eqn:E; [| exact IH].
  destruct a; [| discriminate]. change (b = EmptyString) in E.
  now rewrite E in Hb.
Qed.

Lemma path_join_under (a b c : string) :
  Str.is_empty b = false -> Str.endswith_sep b = false ->
  Str.startswith_sep c = false ->
  Os.path_join (a +:+ b) c = a +:+ b +:+ "/" +:+ c.
Proof.
  intros Hb Hs Hc. rewrite (path_join_relative _ _ Hc).
  rewrite (endswith_sep_app a b Hb), Hs.
  assert (Str.is_empty (a +:+ b) = false) as ->.
  { destruct a; [exact Hb | reflexivity]. }
  cbn [orb]. now rewrite append_assoc.
Qed.

(** X21: The local backend strips the leading separators of a logical path
    before it joins it to a root, so the join never discards the root: the
    full path, the config path and the encrypted path are their root, a
    separator where the root lacks one, and the stripped path.  Leading
    separators on the logical path make no difference. *)
Theorem local_paths_extend_their_root (self : LocalCDN.t) (path : string) :
  let glue (root : string) : string :=
    if Str.is_empty root || Str.endswith_sep root then "" else "/" in
  LocalCDN.get_full_path self path
  = LocalCDN.base_dir self +:+ glue (LocalCDN.base_dir self)
    +:+ Str.lstrip path
  /\ LocalCDN.get_encrypted_path self path
     = LocalCDN.armadillo_objects_dir self
       +:+ glue (LocalCDN.armadillo_objects_dir self) +:+ Str.lstrip path
  /\ LocalCDN.get_config_path self path
     = LocalCDN.base_dir self +:+ glue (LocalCDN.base_dir self)
       +:+ "configs/data/" +:+ Str.lstrip path
  /\ (forall seps, Str.all_sep seps = true ->
        LocalCDN.get_full_path self (seps +:+ path)
        = LocalCDN.get_full_path self path
        /\ LocalCDN.get_encrypted_path self (seps +:+ path)
           = LocalCDN.get_encrypted_path self path
        /\ LocalCDN.get_config_path self (seps +:+ path)
           = LocalCDN.get_config_path self path).
Proof.
  intros glue.
  pose proof (lstrip_not_startswith path) as Hp.
  split; [| split; [| split]].
  - unfold LocalCDN.get_full_path. now apply path_join_relative.
  - unfold LocalCDN.get_encrypted_path. now apply path_join_relative.
  - unfold LocalCDN.get_config_path.
    rewrite (path_join_relative (LocalCDN.base_dir self) "configs" eq_refl).
    rewrite <- append_assoc.
    rewrite (path_join_under _ "configs" "data" eq_refl eq_refl eq_refl).
    change ("configs" +:+ "/" +:+ "data") with "configs/data".
    rewrite (path_join_under _ "configs/data" _ eq_refl eq_refl Hp).
    rewrite append_assoc. reflexivity.
  - intros seps Hs.
    unfold LocalCDN.get_full_path, LocalCDN.get_encrypted_path,
      LocalCDN.get_config_path.
    now rewrite (lstrip_all_sep seps path Hs).
Qed.

Lemma local_paths_extend_their_root_witness :
  LocalCDN.get_full_path sample_mirror "//data/ab" = "cache/data/ab"
  /\ LocalCDN.get_config_path sample_mirror "/ab/cd" = "cache/configs/data/ab/cd"
  /\ LocalCDN.get_encrypted_path sample_mirror "//x"
     = LocalCDN.get_encrypted_path sample_mirror "x".
Proof.
  destruct (local_paths_extend_their_root sample_mirror "//data/ab")
    as (H1 & _).
  destruct (local_paths_extend_their_root sample_mirror "/ab/cd")
    as (_ & _ & H3 & _).
  destruct (local_paths_extend_their_root sample_mirror "x")
    as (_ & _ & _ & H4).
  split; [exact H1 |]. split; [exact H3 |].
  exact (proj1 (proj2 (H4 "//" eq_refl))).
Defined.

(** ** An archive and its index are separate files *)

Lemma components_suffix (p sfx : string) :
  Str.no_sep sfx = true -> Str.is_empty sfx = false ->
  Os.components (p +:+ sfx)
  = List.filter (fun c => negb (Str.is_empty c)) (removelast (Str.split p))
    ++ [List.last (Str.split p) EmptyString +:+ sfx].
Proof.
  intros Hs He. unfold Os.components. rewrite split_append_no_sep by exact Hs.
  rewrite List.filter_app. f_equal. cbn [List.filter].
  destruct (List.last (Str.split p) EmptyString); [| reflexivity].
  change (EmptyString +:+ sfx) with sfx. now rewrite He.
Qed.

Lemma append_inv_prefix (x a b : string) : x +:+ a = x +:+ b -> a = b.
Proof.
  induction x as [|c x IH]; [trivial |].
  change (String c (x +:+ a) = String c (x +:+ b) -> a = b).
  intros [= E]. now apply IH.
Qed.

Lemma locate_suffix_ne (p sfx : string) :
  Str.no_sep sfx = true -> Str.is_empty sfx = false ->
  Os.locate (p +:+ sfx) <> Os.locate p.
Proof.
  intros Hs He. unfold Os.locate. intros E. injection E as _ E.
  rewrite (components_suffix p sfx Hs He), components_last in E.
  apply app_inv_head in E.
  destruct (Str.is_empty (List.last (Str.split p) EmptyString));
    [discriminate |].
  injection E as E. revert E. apply append_longer. now destruct sfx.
Qed.

Lemma locate_suffixes_ne (p s1 s2 : string) :
  Str.no_sep s1 = true -> Str.is_empty s1 = false ->
  Str.no_sep s2 = true -> Str.is_empty s2 = false ->
  s1 <> s2 -> Os.locate (p +:+ s1) <> Os.locate (p +:+ s2).
Proof.
  intros H1 E1 H2 E2 Hne. unfold Os.locate. intros E. injection E as _ E.
  rewrite (components_suffix p s1 H1 E1), (components_suffix p s2 H2 E2) in E.
  apply app_inv_head in E. injection E as E.
  now apply append_inv_prefix in E.
Qed.

Lemma lstrip_app (p sfx : string) :
  Str.is_empty (Str.lstrip p) = false ->
  Str.lstrip (p +:+ sfx) = Str.lstrip p +:+ sfx.
Proof.
  induction p as [|a p IH]; [discriminate |].
  change (String a p +:+ sfx) with (String a (p +:+ sfx)).
  cbn [Str.lstrip]. destruct (Str.is_sep a); [exact IH | reflexivity].
Qed.

Lemma full_path_suffix (self : LocalCDN.t) (p sfx : string) :
  Str.is_empty (Str.lstrip p) = false ->
  LocalCDN.get_full_path self (p +:+ sfx)
  = LocalCDN.get_full_path self p +:+ sfx.
Proof.
  intros He. unfold LocalCDN.get_full_path.
  rewrite (lstrip_app p sfx He).
  pose proof (lstrip_not_startswith p) as Hp.
  rewrite (path_join_relative _ (Str.lstrip p) Hp).
  rewrite path_join_relative.
  - now rewrite !append_assoc.
  - destruct (Str.lstrip p); [discriminate | exact Hp].
Qed.

(** Saving under a logical path and saving under that path with the suffix
    [".index"] never touch each other's file, whether they return or
    raise: neither the targets nor the staging files coincide. *)
Lemma index_frame (self : LocalCDN.t) item p d r d' :
  Str.is_empty (Str.lstrip p) = false ->
  (LocalCDN.save_item self item (p +:+ ".index") d = (r, d') ->
   Os.file_at d' (LocalCDN.get_full_path self p)
   = Os.file_at d (LocalCDN.get_full_path self p))
  /\ (LocalCDN.save_item self item p d = (r, d') ->
      Os.file_at d' (LocalCDN.get_full_path self (p +:+ ".index"))
      = Os.file_at d (LocalCDN.get_full_path self (p +:+ ".index"))).
Proof.
  intros He. rewrite (full_path_suffix self p ".index" He).
  set (target := LocalCDN.get_full_path self p). split.
  - unfold LocalCDN.save_item. rewrite (full_path_suffix self p ".index" He).
    fold target. apply cache_frame.
    + now apply locate_suffix_ne.
    + rewrite append_assoc. now apply locate_suffix_ne.
  - unfold LocalCDN.save_item. fold target. apply cache_frame.
    + intros E. symmetry in E. revert E. now apply locate_suffix_ne.
    + now apply locate_suffixes_ne.
Qed.

Section DataAndIndex.
Context `{U : Utils}.

(** X22: The index of a key is stored beside its archive, under the same name
    with the suffix [".index"], for data and for patches alike; and
    saving the one never changes the other, whether [save_item] returns or
    raises. *)
Theorem archive_and_index_are_separate (self : LocalCDN.t) item key p d r d' :
  get_data_path key = Ok p \/ get_patch_path key = Ok p ->
  (get_data_path key = Ok p -> get_data_index_path key = Ok (p +:+ ".index"))
  /\ (get_patch_path key = Ok p ->
      get_patch_index_path key = Ok (p +:+ ".index"))
  /\ (LocalCDN.save_item self item (p +:+ ".index") d = (r, d') ->
      Os.file_at d' (LocalCDN.get_full_path self p)
      = Os.file_at d (LocalCDN.get_full_path self p))
  /\ (LocalCDN.save_item self item p d = (r, d') ->
      Os.file_at d' (LocalCDN.get_full_path self (p +:+ ".index"))
      = Os.file_at d (LocalCDN.get_full_path self (p +:+ ".index"))).
Proof.
  intros Hp.
  split; [| split].
  - intros H. unfold get_data_index_path. now rewrite H.
  - intros H. unfold get_patch_index_path. now rewrite H.
  - apply index_frame.
    destruct Hp as [Hp | Hp];
      [unfold get_data_path in Hp | unfold get_patch_path in Hp];
      apply fmap_result_ok in Hp as (h & _ & ->); reflexivity.
Qed.

End DataAndIndex.

Section DataAndIndexWitness.
#[local] Existing Instance SpecUtils.utils.

Lemma archive_and_index_are_separate_witness :
  let p := "/data/00/00/0000000000000000000000000000001c" in
  let d := snd (LocalCDN.save_item sample_mirror (BytesIO [x01; x02]) p ∅) in
  let m := LocalCDN.save_item sample_mirror (BytesIO [x03]) (p +:+ ".index")
             d in
  Os.file_at (snd m) "cache/data/00/00/0000000000000000000000000000001c"
  = Some [x01; x02].
Proof.
  intros p d m.
  destruct (archive_and_index_are_separate sample_mirror (BytesIO [x03])
              sample_key p d (fst m) (snd m)) as (_ & _ & H & _).
  - left. reflexivity.
  - transitivity (Os.file_at d (LocalCDN.get_full_path sample_mirror p)).
    + apply H. apply surjective_pairing.
    + vm_compute. reflexivity.
Defined.

End DataAndIndexWitness.

(** * The cache writer on any disk *)

(** ** What the cache writer does to the node at its target *)

Lemma path_split_tail (p : string) :
  Str.is_empty p = false -> Str.endswith_sep p = false ->
  Str.is_empty (snd (Os.path_split p)) = false.
Proof.
  intros He Hs. unfold Os.path_split.
  destruct (Os.cut_last_sep p) as [h0 t] eqn:Hc.
  apply cut_last_sep_spec in Hc as (E & _ & Hh). simpl.
  destruct t; [| reflexivity]. rewrite append_nil_r in E. subst h0.
  destruct Hh; congruence.
Qed.

Lemma dirname_shorter (p : string) :
  Str.is_empty p = false -> Str.endswith_sep p = false ->
  length (Os.components (Os.path_dirname p)) < length (Os.components p).
Proof.
  intros He Hs. pose proof (path_split_tail p He Hs) as Ht.
  unfold Os.path_dirname. destruct (Os.path_split p) as [h t] eqn:Hp.
  rewrite (path_split_components _ _ _ Hp). simpl in Ht. rewrite Ht.
  rewrite length_app. simpl. lia.
Qed.

Lemma keeps_mkdir_far (k : Os.Loc) (q : string) :
  length (Os.components q) < length (snd k) ->
  keeps (fun d : Os.Disk => d !! k) (Os.mkdir q).
Proof.
  intros H d r d' E. unfold Os.mkdir in E.
  destruct (Os.reach d q); [| injection E as _ <-; reflexivity].
  destruct (Os.node_at d (Os.locate q)); injection E as _ <-; [reflexivity |].
  apply lookup_insert_ne. intros <-. simpl in H. lia.
Qed.

Lemma keeps_makedirs_rec_far (k : Os.Loc) (fuel : nat) (name : string) :
  length (Os.components name) < length (snd k) ->
  keeps (fun d : Os.Disk => d !! k) (Os.makedirs_rec fuel name).
Proof.
  revert name. induction fuel as [|fuel IH]; intros name Hk.
  - apply keeps_raise.
  - cbn [Os.makedirs_rec].
    destruct (Os.path_split name) as [head tail] eqn:Hs.
    destruct (if Str.is_empty tail then Os.path_split head else (head, tail))
      as [head' tail'] eqn:Hs'.
    assert (Hlen : length (Os.components head') <= length (Os.components name)).
    { rewrite (path_split_components _ _ _ Hs), length_app.
      destruct (Str.is_empty tail).
      - rewrite (path_split_components _ _ _ Hs'), length_app. lia.
      - injection Hs' as <- _. lia. }
    apply keeps_bind.
    + apply keeps_if; [| apply keeps_ret].
      apply keeps_bind; [apply keeps_path_exists |].
      intros e. apply keeps_if; [apply keeps_ret |].
      apply keeps_bind; [| intros; apply keeps_ret].
      intros d r d' E.
      destruct (Os.makedirs_rec fuel head' d) as [r0 d0] eqn:Er.
      assert (d' = d0) as ->.
      { destruct r0 as [|[]]; injection E as _ <-; reflexivity. }
      eapply (IH head'), Er. lia.
    + intros stop. apply keeps_if; [apply keeps_ret | now apply keeps_mkdir_far].
Qed.

Lemma keeps_open_wb_lookup (k : Os.Loc) (q : string) :
  Os.locate q <> k -> keeps (fun d : Os.Disk => d !! k) (Os.open_wb q).
Proof.
  intros Hne d r d' E. unfold Os.open_wb in E.
  repeat match type of E with
         | (if ?c then _ else _) = _ => destruct c
         | match ?x with _ => _ end = _ => destruct x
         end; injection E as _ <-; try reflexivity;
    now apply lookup_insert_ne.
Qed.

Lemma keeps_drain_lookup (k : Os.Loc) (fuel : nat) (self : HTTPCacheWrapper.t) :
  Os.wloc (HTTPCacheWrapper._cache_file self) <> k ->
  keeps (fun d : Os.Disk => d !! k) (HTTPCacheWrapper.drain fuel self).
Proof.
  revert self. induction fuel as [|fuel IH]; intros self Hne.
  - apply keeps_raise.
  - intros d r d' E. cbn [HTTPCacheWrapper.drain] in E.
    unfold bind in E. rewrite read_unfold in E.
    destruct (Reader_read (HTTPCacheWrapper.fp self) 8192) as [[b fp']|e].
    + destruct (nonempty b); simpl in E.
      * apply IH in E; [| exact Hne]. simpl in E. rewrite E.
        now apply lookup_alter_ne.
      * injection E as _ <-. reflexivity.
    + injection E as _ <-. reflexivity.
Qed.

Lemma keeps_init_lookup (fp : Reader) (path : string) :
  Str.endswith_sep path = false -> snd (Os.locate path) <> [] ->
  keeps (fun d : Os.Disk => d !! Os.locate path)
    (HTTPCacheWrapper.__init__ fp path).
Proof.
  intros Hs Hne. unfold HTTPCacheWrapper.__init__.
  assert (He : Str.is_empty path = false) by (now destruct path).
  apply keeps_bind; [apply keeps_path_exists |]. intros e.
  apply keeps_bind.
  { apply keeps_if; [| apply keeps_ret].
    apply keeps_makedirs_rec_far. now apply dirname_shorter. }
  intros _. apply keeps_bind; [| intros; apply keeps_ret].
  apply keeps_open_wb_lookup, locate_staging_ne.
Qed.

Lemma close_raise_keeps_node (f : HTTPCacheWrapper.t) (k : Os.Loc) d e d' :
  Os.wloc (HTTPCacheWrapper._cache_file f) <> k ->
  HTTPCacheWrapper.close f d = (Raise e, d') -> d' !! k = d !! k.
Proof.
  intros Hw Ec. unfold HTTPCacheWrapper.close in Ec.
  apply bind_raise in Ec as [Ed | (f' & d2 & Ed & Ec)].
  - eapply (keeps_drain_lookup k), Ed. exact Hw.
  - apply (keeps_drain_lookup k) in Ed; [| exact Hw]. simpl in Ed.
    rewrite <- Ed.
    apply bind_raise in Ec as [Er | (? & d3 & _ & Er)]; [| discriminate].
    apply rename_raise_same in Er. now subst.
Qed.

(** When the writer raises, at its creation or in [close], the node at a
    target that names a file is the node that was there: nothing where
    there was nothing, the same file where there was a file. *)
Lemma cache_raise_keeps_node fp path d e d' :
  Str.endswith_sep path = false ->
  (let* f := HTTPCacheWrapper.__init__ fp path in HTTPCacheWrapper.close f) d
  = (Raise e, d') ->
  Os.node_at d' (Os.locate path) = Os.node_at d (Os.locate path).
Proof.
  intros Hs E. unfold Os.node_at.
  destruct (snd (Os.locate path)) as [|c cs] eqn:Hl; [reflexivity |].
  assert (Hne : snd (Os.locate path) <> []) by (rewrite Hl; discriminate).
  apply bind_raise in E as [E | (f & d1 & Ei & Ec)].
  - exact (keeps_init_lookup fp path Hs Hne d _ _ E).
  - pose proof (init_fields _ _ _ _ _ Ei) as Hf.
    apply (keeps_init_lookup fp path Hs Hne) in Ei. simpl in Ei.
    rewrite <- Ei. eapply close_raise_keeps_node; [| exact Ec].
    subst f. simpl. apply locate_staging_ne.
Qed.

(** C6, as stated, fails for a target path written with a trailing
    separator.  Such a path names a directory; the writer creates it, as
    the directory of its staging file, before the source is read.  A source
    that fails after its first chunk then leaves the path existing where
    nothing existed. *)
Lemma no_partial_file_directory_target :
  let fp := {| pending := repeat x07 (Z.to_nat 8200); fault := Some 1 |} in
  let d : Os.Disk := {[ (false, ["cache"]) := Os.Dir ]} in
  let m := (let* f := HTTPCacheWrapper.__init__ fp "cache/item/" in
            HTTPCacheWrapper.close f) d in
  Os.path_exists "cache/item/" d = (Ok false, d)
  /\ fst m = Raise (OSError "read failed")
  /\ Os.path_exists "cache/item/" (snd m) = (Ok true, snd m)
  /\ Os.node_at d (Os.locate "cache/item/") = None
  /\ Os.node_at (snd m) (Os.locate "cache/item/") = Some Os.Dir.
Proof.
  intros fp d m.
  split; [apply path_exists_run; vm_compute; reflexivity |].
  split; [vm_compute; reflexivity |].
  split; [apply path_exists_run; vm_compute; reflexivity |].
  split; vm_compute; reflexivity.
Qed.

(** C6 (amended): whatever the cache writer raises, when it is created or
    in [close], no regular file at the target path has been created,
    truncated or changed; and when the target path names a file (no
    trailing separator, no ["."] or [".."] component) the node at the target
    is the one from before: the path is absent if it was absent and
    byte-identical otherwise.  A source that raises before it has delivered
    all its bytes makes [close] raise, in the drain loop, before the
    rename.  When [close] returns, the target holds the whole payload: the
    rename comes after the source is exhausted. *)
Theorem no_partial_file fp path d :
  (forall e d',
     (let* f := HTTPCacheWrapper.__init__ fp path in HTTPCacheWrapper.close f) d
     = (Raise e, d') ->
     Os.file_at d' path = Os.file_at d path
     /\ (Str.endswith_sep path = false -> Os.plain_path path = true ->
         Os.node_at d' (Os.locate path) = Os.node_at d (Os.locate path)))
  /\ (forall f d1 n,
        HTTPCacheWrapper.__init__ fp path d = (Ok f, d1) ->
        fault fp = Some n ->
        (Z.of_nat n * 8192 <= Z.of_nat (length (pending fp)))%Z ->
        exists d',
          HTTPCacheWrapper.close f d1 = (Raise (OSError "read failed"), d')
          /\ Os.file_at d' path = Os.file_at d path
          /\ (Str.endswith_sep path = false -> Os.plain_path path = true ->
              Os.node_at d' (Os.locate path) = Os.node_at d (Os.locate path)))
  /\ (forall d',
        (let* f := HTTPCacheWrapper.__init__ fp path in
         HTTPCacheWrapper.close f) d = (Ok tt, d') ->
        Os.file_at d' path = Some (pending fp)).
Proof.
  split; [| split].
  - intros e d' E. split.
    + apply bind_raise in E as [E | (f & d1 & Ei & Ec)].
      * exact (keeps_init path fp d _ _ E).
      * eapply close_raise_keeps_target; eassumption.
    + intros Hs _. eapply cache_raise_keeps_node; eassumption.
  - intros f d1 n Ei Hf Hlen.
    destruct (close_faulty fp path d f d1 n Ei Hf Hlen) as [d' Ec].
    exists d'. split; [exact Ec |]. split.
    + eapply close_raise_keeps_target; eassumption.
    + intros Hs _. eapply cache_raise_keeps_node; [exact Hs |].
      erewrite bind_step by exact Ei. exact Ec.
  - intros d' E. apply bind_ok in E as (f & d1 & Ei & Ec).
    pose proof (init_fields _ _ _ _ _ Ei) as Hf.
    apply init_staged in Ei as [Hs _]. subst f.
    pose proof (close_ok _ _ _ Ec eq_refl (locate_staging_snd _) [] Hs) as Ho.
    apply open_rb_file in Ho. exact Ho.
Qed.

Lemma no_partial_file_witness :
  let fp := {| pending := repeat x07 (Z.to_nat 8200); fault := Some 1 |} in
  let d : Os.Disk :=
    <[(false, ["cache"; "item"]) := Os.File [x09]]>
      {[ (false, ["cache"]) := Os.Dir ]} in
  let f := {| HTTPCacheWrapper.fp := fp;
              HTTPCacheWrapper._real_path := "cache/item";
              HTTPCacheWrapper._temp_path := "cache/item.keg_temp";
              HTTPCacheWrapper._cache_file :=
                {| Os.wloc := (false, ["cache"; "item.keg_temp"]) |} |} in
  let d1 := snd (HTTPCacheWrapper.__init__ fp "cache/item" d) in
  exists d',
    HTTPCacheWrapper.close f d1 = (Raise (OSError "read failed"), d')
    /\ Os.file_at d' "cache/item" = Some [x09]
    /\ Os.node_at d' (Os.locate "cache/item") = Some (Os.File [x09]).
Proof.
  intros fp d f d1.
  destruct (proj1 (proj2 (no_partial_file fp "cache/item" d)) f d1 1)
    as (d' & E & Hf & Hn).
  - apply run_result. vm_compute. reflexivity.
  - reflexivity.
  - vm_compute. discriminate.
  - exists d'. split; [exact E |]. split.
    + rewrite Hf. vm_compute. reflexivity.
    + rewrite Hn by reflexivity. vm_compute. reflexivity.
Defined.

(** ** [os.makedirs] on a clear way *)

Lemma endswith_rev (x : string) :
  Str.endswith_sep (Str.rev x) = Str.startswith_sep x.
Proof.
  destruct x as [|a x]; [reflexivity |].
  unfold Str.rev. cbn [list_ascii_of_string List.rev].
  rewrite string_of_list_ascii_app. now apply endswith_sep_app.
Qed.

Lemma endswith_rstrip (s : string) : Str.endswith_sep (Str.rstrip s) = false.
Proof. unfold Str.rstrip. rewrite endswith_rev. apply lstrip_not_startswith. Qed.

Lemma startswith_app (x y : string) :
  Str.is_empty x = false ->
  Str.startswith_sep (x +:+ y) = Str.startswith_sep x.
Proof. now destruct x. Qed.

Lemma path_split_spec (p : string) :
  Str.is_empty p = false -> Str.endswith_sep p = false ->
  exists head tail,
    Os.path_split p = (head, tail)
    /\ Str.is_empty tail = false
    /\ Os.components p = Os.components head ++ [tail]
    /\ String.length head < String.length p
    /\ (Str.is_empty head = false ->
        Str.startswith_sep head = Str.startswith_sep p
        /\ (Str.all_sep head = true \/ Str.endswith_sep head = false)).
Proof.
  intros He Hs. pose proof (path_split_tail p He Hs) as Ht.
  destruct (Os.path_split p) as [head tail] eqn:Hp. simpl in Ht.
  exists head, tail. split; [reflexivity |]. split; [exact Ht |].
  pose proof (path_split_components _ _ _ Hp) as Hc. rewrite Ht in Hc.
  pose proof (path_split_length _ _ _ Hp) as Hl.
  apply is_empty_false_length in Ht.
  split; [exact Hc |]. split; [lia |].
  intros Hh. unfold Os.path_split in Hp.
  destruct (Os.cut_last_sep p) as [h0 t] eqn:Hcut.
  apply cut_last_sep_spec in Hcut as (-> & _ & _).
  injection Hp as Hhead ->.
  destruct (negb (Str.is_empty h0) && negb (Str.all_sep h0)) eqn:Hcond.
  - subst head. destruct (rstrip_decomp h0) as (seps & _ & E).
    split; [| right; apply endswith_rstrip].
    rewrite E at 2. rewrite append_assoc. symmetry. now apply startswith_app.
  - subst head. rewrite Hh in Hcond. simpl in Hcond.
    apply negb_false_iff in Hcond.
    split; [| now left]. symmetry. now apply startswith_app.
Qed.

Lemma all_dirs_app (d : Os.Disk) a pre cs cs' :
  Os.all_dirs d a pre (cs ++ cs')
  = Os.all_dirs d a pre cs && Os.all_dirs d a (pre ++ cs) cs'.
Proof.
  revert pre. induction cs as [|c cs IH]; intros pre.
  - now rewrite app_nil_r.
  - cbn [app Os.all_dirs].
    destruct (d !! (a, pre ++ [c])) as [[|b]|]; try reflexivity.
    rewrite IH, <- app_assoc. reflexivity.
Qed.

Lemma all_dirs_last (d : Os.Disk) a cs t :
  Os.all_dirs d a [] (cs ++ [t]) = true -> d !! (a, cs ++ [t]) = Some Os.Dir.
Proof.
  rewrite all_dirs_app. intros H. apply andb_true_iff in H as [_ H].
  simpl in H. now destruct (d !! (a, cs ++ [t])) as [[|b]|].
Qed.

Lemma all_dirs_mono (d d' : Os.Disk) a pre cs :
  (forall k, d !! k = Some Os.Dir -> d' !! k = Some Os.Dir) ->
  Os.all_dirs d a pre cs = true -> Os.all_dirs d' a pre cs = true.
Proof.
  intros H. revert pre. induction cs as [|c cs IH]; intros pre; [reflexivity |].
  cbn [Os.all_dirs].
  destruct (d !! (a, pre ++ [c])) as [[|b]|] eqn:Hd; try discriminate.
  rewrite (H _ Hd). apply IH.
Qed.

Lemma through_all_dirs (d : Os.Disk) a pre cs t p :
  Os.all_dirs d a pre cs = true -> Os.through d a pre (cs ++ [t]) p = Ok tt.
Proof.
  revert pre. induction cs as [|c cs IH]; intros pre; [reflexivity |].
  cbn [app Os.all_dirs Os.through].
  destruct (cs ++ [t]) as [|c1 l1] eqn:E; [now destruct cs |].
  rewrite <- E in IH |- *.
  destruct (d !! (a, pre ++ [c])) as [[|b]|]; try discriminate.
  apply IH.
Qed.

Lemma absent_from_prefix (d : Os.Disk) a pre cs cs' :
  Os.absent_from d a pre (cs ++ cs') = true -> Os.absent_from d a pre cs = true.
Proof.
  revert pre. induction cs as [|c cs IH]; intros pre; [reflexivity |].
  cbn [app Os.absent_from].
  destruct (d !! (a, pre ++ [c])); [discriminate | apply IH].
Qed.

Lemma clear_way_prefix (d : Os.Disk) a pre cs cs' :
  Os.clear_way d a pre (cs ++ cs') = true -> Os.clear_way d a pre cs = true.
Proof.
  revert pre. induction cs as [|c cs IH]; intros pre; [reflexivity |].
  cbn [app Os.clear_way].
  destruct (d !! (a, pre ++ [c])) as [[|b]|];
    [apply IH | discriminate | apply absent_from_prefix].
Qed.

Lemma absent_from_last (d : Os.Disk) a pre cs :
  Os.absent_from d a pre cs = true -> d !! (a, pre) = None ->
  d !! (a, pre ++ cs) = None.
Proof.
  revert pre. induction cs as [|c cs IH]; intros pre H Hp.
  - now rewrite app_nil_r.
  - cbn [Os.absent_from] in H.
    destruct (d !! (a, pre ++ [c])) eqn:Hc; [discriminate |].
    specialize (IH _ H Hc). now rewrite <- app_assoc in IH.
Qed.

(** On a clear way either everything is a directory or the end is absent. *)
Lemma clear_way_absent (d : Os.Disk) a pre cs :
  Os.clear_way d a pre cs = true -> cs <> [] ->
  Os.all_dirs d a pre cs = true \/ d !! (a, pre ++ cs) = None.
Proof.
  revert pre. induction cs as [|c cs IH]; intros pre H Hne; [congruence |].
  cbn [Os.clear_way Os.all_dirs] in *.
  destruct (d !! (a, pre ++ [c])) as [[|b]|] eqn:Hc; [| discriminate |].
  - destruct cs as [|c' cs']; [now left |].
    destruct (IH _ H) as [Hd | Hn]; [discriminate | now left |].
    right. now rewrite <- app_assoc in Hn.
  - right. pose proof (absent_from_last _ _ _ _ H Hc) as Hn.
    now rewrite <- app_assoc in Hn.
Qed.

Lemma all_dirs_exists (p : string) (d : Os.Disk) :
  Os.all_dirs d (Str.startswith_sep p) [] (Os.components p) = true ->
  Str.is_empty p = false ->
  Os.path_exists p d = (Ok true, d).
Proof.
  intros H He. unfold Os.path_exists, Os.reach, Os.node_at, Os.locate.
  rewrite He. cbn [snd].
  destruct (Os.components p) as [|c cs] eqn:Hc; [reflexivity |].
  destruct (exists_last (l := c :: cs)) as (l & t & Hl); [discriminate |].
  rewrite Hl in *.
  pose proof (all_dirs_last _ _ _ _ H) as Hd.
  rewrite all_dirs_app in H. apply andb_true_iff in H as [H _].
  rewrite (through_all_dirs _ _ _ _ t p H).
  destruct (l ++ [t]) eqn:E; [now destruct l |]. now rewrite Hd.
Qed.

Lemma exists_all_dirs (p : string) (d : Os.Disk) :
  Os.path_exists p d = (Ok true, d) ->
  Os.clear_way d (Str.startswith_sep p) [] (Os.components p) = true ->
  Os.all_dirs d (Str.startswith_sep p) [] (Os.components p) = true.
Proof.
  intros He Hc.
  destruct (Os.components p) as [|c cs] eqn:Hcs; [reflexivity |].
  destruct (clear_way_absent _ _ _ _ Hc) as [H | H];
    [discriminate | exact H |].
  exfalso. unfold Os.path_exists, Os.node_at, Os.locate in He.
  cbn [snd] in He. rewrite Hcs in He. simpl in H. rewrite H in He.
  destruct (Os.reach d p); discriminate.
Qed.

Lemma absent_of_not_exists (p : string) (d : Os.Disk) :
  Os.path_exists p d = (Ok false, d) ->
  Str.is_empty p = false ->
  Os.clear_way d (Str.startswith_sep p) [] (Os.components p) = true ->
  Os.components p <> [] ->
  d !! Os.locate p = None.
Proof.
  intros He Hemp Hc Hne.
  destruct (clear_way_absent _ _ _ _ Hc Hne) as [H | H]; [| exact H].
  rewrite (all_dirs_exists p d H Hemp) in He. discriminate.
Qed.

Lemma all_sep_components (h : string) :
  Str.all_sep h = true -> Os.components h = [].
Proof.
  intros H. exact (components_app_all_sep h EmptyString H).
Qed.

Lemma mkdir_runs (p : string) (d : Os.Disk) :
  Os.reach d p = Ok tt -> d !! Os.locate p = None ->
  Os.components p <> [] ->
  Os.mkdir p d = (Ok tt, <[Os.locate p := Os.Dir]> d).
Proof.
  intros Hr Hn Hne. unfold Os.mkdir. rewrite Hr.
  rewrite node_at_lookup by exact Hne. now rewrite Hn.
Qed.

Lemma makedirs_rec_step fuel name head tail :
  Os.path_split name = (head, tail) -> Str.is_empty tail = false ->
  Os.makedirs_rec (S fuel) name
  = (let* stop :=
       (if negb (Str.is_empty head) then
          let* e := Os.path_exists head in
          if e then ret false
          else
            (fun d =>
               match Os.makedirs_rec fuel head d with
               | (Raise (FileExistsError _), d') => (Ok tt, d')
               | r => r
               end) >>
            ret (String.eqb tail ".")
        else ret false) in
     if stop then ret tt else Os.mkdir name).
Proof.
  intros Hp Ht. cbn [Os.makedirs_rec]. rewrite Hp. cbv iota.
  rewrite Ht. cbv iota. rewrite Ht.
  now destruct (Str.is_empty head).
Qed.

(** [os.makedirs] creates a plain name that does not exist when the way
    to it is clear: afterwards every directory on the way exists, and
    nothing that existed has changed. *)
Lemma makedirs_rec_runs fuel : forall name d,
  String.length name < fuel ->
  Str.is_empty name = false -> Str.endswith_sep name = false ->
  Os.plain_path name = true ->
  Os.clear_way d (Str.startswith_sep name) [] (Os.components name) = true ->
  Os.path_exists name d = (Ok false, d) ->
  exists d',
    Os.makedirs_rec fuel name d = (Ok tt, d')
    /\ Os.all_dirs d' (Str.startswith_sep name) [] (Os.components name) = true
    /\ (forall k n, d !! k = Some n -> d' !! k = Some n).
Proof.
  induction fuel as [|fuel IH]; intros name d Hlen He Hs Hplain Hclear Hex;
    [lia |].
  destruct (path_split_spec name He Hs)
    as (head & tail & Hp & Ht & Hc & Hl & Hhead).
  assert (Hne : Os.components name <> [])
    by (rewrite Hc; now destruct (Os.components head)).
  pose proof (absent_of_not_exists name d Hex He Hclear Hne) as Habs.
  assert (Hplain' : Os.plain_path head = true /\ String.eqb tail "." = false).
  { unfold Os.plain_path in *. rewrite Hc, forallb_app in Hplain.
    apply andb_true_iff in Hplain as [H1 H2]. split; [exact H1 |].
    simpl in H2. rewrite andb_true_r in H2.
    apply andb_true_iff in H2 as [H2 _]. now apply negb_true_iff in H2. }
  destruct Hplain' as [Hph Htdot].
  assert (Hstep : forall d1 : Os.Disk,
            Os.all_dirs d1 (Str.startswith_sep name) [] (Os.components head)
            = true ->
            d1 !! Os.locate name = None ->
            (forall k n, d !! k = Some n -> d1 !! k = Some n) ->
            exists d',
              Os.mkdir name d1 = (Ok tt, d')
              /\ Os.all_dirs d' (Str.startswith_sep name) []
                   (Os.components name) = true
              /\ (forall k n, d !! k = Some n -> d' !! k = Some n)).
  { intros d1 Hd1 Hn1 Hpres. exists (<[Os.locate name := Os.Dir]> d1).
    split; [| split].
    - apply mkdir_runs; [| exact Hn1 | exact Hne].
      unfold Os.reach. rewrite He, Hc. now apply through_all_dirs.
    - rewrite Hc, all_dirs_app. apply andb_true_iff. split.
      + eapply all_dirs_mono; [| exact Hd1].
        intros k Hk. rewrite lookup_insert_ne; [exact Hk |].
        intros <-. congruence.
      + cbn [Os.all_dirs app]. unfold Os.locate. rewrite Hc.
        now rewrite lookup_insert_eq.
    - intros k n Hk. apply Hpres in Hk.
      rewrite lookup_insert_ne; [exact Hk |]. intros <-. congruence. }
  rewrite (makedirs_rec_step fuel name head tail Hp Ht).
  destruct (Str.is_empty head) eqn:Hhe.
  - destruct head; [| discriminate]. cbn [negb].
    rewrite (bind_step _ _ d false d eq_refl).
    apply Hstep; [reflexivity | exact Habs | auto].
  - destruct (Hhead eq_refl) as [Hsw Hshape]. cbn [negb].
    assert (Hch : Os.clear_way d (Str.startswith_sep head) []
                    (Os.components head) = true).
    { rewrite Hsw. rewrite Hc in Hclear. eapply clear_way_prefix, Hclear. }
    destruct (path_exists_ok head d) as [e Hexh].
    destruct e.
    + erewrite bind_step; [| erewrite bind_step by exact Hexh; reflexivity].
      apply Hstep; [| exact Habs | auto].
      rewrite <- Hsw. now apply exists_all_dirs.
    + destruct Hshape as [Hall | Hends].
      { pose proof (all_sep_components head Hall) as Hnil.
        rewrite all_dirs_exists in Hexh; [discriminate | | exact Hhe].
        now rewrite Hnil. }
      destruct (IH head d) as (d1 & Em & Hd1 & Hpres1);
        [lia | exact Hhe | exact Hends | exact Hph | exact Hch | exact Hexh |].
      erewrite bind_step.
      2: { erewrite bind_step by exact Hexh. cbv iota.
           erewrite bind_step; [reflexivity |]. cbv beta. now rewrite Em. }
      rewrite Htdot.
      apply Hstep; [now rewrite <- Hsw | | exact Hpres1].
      rewrite <- Habs.
      eapply (keeps_makedirs_rec_far (Os.locate name) fuel head); [| exact Em].
      simpl. rewrite Hc, length_app. simpl. lia.
Qed.

Lemma open_wb_runs (p : string) (d : Os.Disk) :
  Os.reach d p = Ok tt -> Str.endswith_sep p = false ->
  Os.node_at d (Os.locate p) <> Some Os.Dir ->
  Os.open_wb p d
  = (Ok {| Os.wloc := Os.locate p |}, <[Os.locate p := Os.File []]> d).
Proof.
  intros Hr Hs Hd. unfold Os.open_wb. rewrite Hr, Hs.
  destruct (Os.node_at d (Os.locate p)) as [[|c]|]; congruence.
Qed.

Lemma dirname_split (p : string) :
  Os.path_split p = (Os.path_dirname p, snd (Os.path_split p)).
Proof. unfold Os.path_dirname. now destruct (Os.path_split p). Qed.

(** The cache writer is created, whether or not the directory of its
    target exists, when the target is a plain path with a directory part,
    the way to that directory is clear, and the staging path is not a
    directory.  Nothing at or below the target has changed by then, except
    the staging file. *)
Lemma init_runs (fp : Reader) (path : string) (d : Os.Disk) :
  Str.endswith_sep path = false ->
  Str.is_empty (Os.path_dirname path) = false ->
  Os.plain_path path = true ->
  Os.clear_way d (Str.startswith_sep path) []
    (Os.components (Os.path_dirname path)) = true ->
  Os.node_at d (Os.locate (path +:+ ".keg_temp")) <> Some Os.Dir ->
  exists f d1,
    HTTPCacheWrapper.__init__ fp path d = (Ok f, d1)
    /\ Os.node_at d1 (Os.locate path) = Os.node_at d (Os.locate path).
Proof.
  intros Hs Hdir Hplain Hclear Hstage.
  assert (He : Str.is_empty path = false) by (now destruct path).
  destruct (path_split_spec path He Hs)
    as (head & tail & Hp & Ht & Hc & Hl & Hhead).
  assert (Hd : Os.path_dirname path = head)
    by (unfold Os.path_dirname; now rewrite Hp).
  rewrite Hd in *. destruct (Hhead Hdir) as [Hsw Hshape].
  set (a := Str.startswith_sep path) in *.
  assert (Hph : Os.plain_path head = true).
  { unfold Os.plain_path in *. rewrite Hc, forallb_app in Hplain.
    now apply andb_true_iff in Hplain as [H1 _]. }
  (* the directory is there after the first two steps *)
  assert (Hensure : exists d2 : Os.Disk,
            (let* e := Os.path_exists head in
             (if negb e then Os.makedirs head else ret tt)) d = (Ok tt, d2)
            /\ Os.all_dirs d2 a [] (Os.components head) = true
            /\ (forall k, length (Os.components head) < length (snd k) ->
                  d2 !! k = d !! k)).
  { destruct (path_exists_ok head d) as [e Hex]. destruct e.
    - exists d. split; [now erewrite bind_step by exact Hex |].
      split; [| reflexivity]. rewrite <- Hsw.
      apply exists_all_dirs; [exact Hex | now rewrite Hsw].
    - destruct Hshape as [Hall | Hends].
      { pose proof (all_sep_components head Hall) as Hnil.
        rewrite all_dirs_exists in Hex; [discriminate | | exact Hdir].
        now rewrite Hnil. }
      destruct (makedirs_rec_runs (S (String.length head)) head d)
        as (d2 & Em & Hd2 & _);
        [lia | exact Hdir | exact Hends | exact Hph | now rewrite Hsw
        | exact Hex |].
      exists d2. split; [erewrite bind_step by exact Hex; exact Em |].
      split; [now rewrite <- Hsw |].
      intros k Hk.
      exact (keeps_makedirs_rec_far k _ head Hk d _ _ Em). }
  destruct Hensure as (d2 & Een & Hd2 & Hfar).
  (* the staging path lies in that directory *)
  assert (Hcs : Os.components (path +:+ ".keg_temp")
                = Os.components head ++ [tail +:+ ".keg_temp"]).
  { rewrite components_staging.
    pose proof (components_last path) as Hcl.
    rewrite last_split_empty, He, Hs in Hcl. simpl in Hcl.
    rewrite Hc in Hcl. apply app_inj_tail in Hcl as [<- <-]. reflexivity. }
  assert (Hreach : Os.reach d2 (path +:+ ".keg_temp") = Ok tt).
  { unfold Os.reach. rewrite staging_not_empty, Hcs.
    rewrite (startswith_app path ".keg_temp" He). now apply through_all_dirs. }
  assert (Hk1 : d2 !! Os.locate (path +:+ ".keg_temp")
                = d !! Os.locate (path +:+ ".keg_temp")).
  { apply Hfar. simpl. rewrite Hcs, length_app. simpl. lia. }
  assert (Hk2 : d2 !! Os.locate path = d !! Os.locate path).
  { apply Hfar. simpl. rewrite Hc, length_app. simpl. lia. }
  pose proof (open_wb_runs (path +:+ ".keg_temp") d2 Hreach
                (staging_not_dirlike path)) as Ho.
  rewrite !node_at_lookup in Ho by apply locate_staging_snd.
  rewrite node_at_lookup in Hstage by apply locate_staging_snd.
  rewrite Hk1 in Ho. specialize (Ho Hstage).
  do 2 eexists. split.
  - unfold HTTPCacheWrapper.__init__. rewrite Hd.
    unfold bind in Een |- *.
    destruct (Os.path_exists head d) as [[e|e0] d0]; [| discriminate].
    rewrite Een, Ho. reflexivity.
  - rewrite node_at_insert_ne by apply locate_staging_ne.
    unfold Os.node_at. destruct (snd (Os.locate path)); [reflexivity |].
    exact Hk2.
Qed.

(** [save_item] returns from any disk on which the way to the target's
    directory is clear. *)
Lemma save_item_runs (self : LocalCDN.t) (item : Reader) (path : string)
    (d : Os.Disk) :
  let target := LocalCDN.get_full_path self path in
  fault item = None ->
  Str.endswith_sep target = false ->
  Str.is_empty (Os.path_dirname target) = false ->
  Os.plain_path target = true ->
  Os.clear_way d (Str.startswith_sep target) []
    (Os.components (Os.path_dirname target)) = true ->
  Os.node_at d (Os.locate target) <> Some Os.Dir ->
  Os.node_at d (Os.locate (target +:+ ".keg_temp")) <> Some Os.Dir ->
  exists d', LocalCDN.save_item self item path d = (Ok tt, d').
Proof.
  intros target Hf Hs Hdir Hplain Hclear Htarget Hstage.
  destruct (init_runs item target d Hs Hdir Hplain Hclear Hstage)
    as (f & d1 & Ei & Hn).
  destruct (close_succeeds item target d f d1 Ei Hf Hs) as (d' & Ec & _).
  { now rewrite Hn. }
  exists d'. unfold LocalCDN.save_item. fold target.
  now erewrite bind_step by exact Ei.
Qed.

(** C7: once [save_item] has written the payload of a source under a
    logical path, [get_item] on that path opens a stream whose full read is
    the payload, byte for byte.  And [save_item] does write it, creating
    the directories of the target that are missing, from any disk on which
    the target is a plain path with a directory part, no regular file
    stands on the way to that directory, neither the target nor its staging
    path is a directory, and the source does not raise. *)
Theorem save_item_get_item_roundtrip (self : LocalCDN.t) (item : Reader)
    (path : string) (d : Os.Disk) :
  let target := LocalCDN.get_full_path self path in
  (forall d',
     LocalCDN.save_item self item path d = (Ok tt, d') ->
     (let* resp := LocalCDN.get_item self path in BaseCDN.read_all resp) d'
     = (Ok (pending item), d'))
  /\ (fault item = None ->
      Str.endswith_sep target = false ->
      Str.is_empty (Os.path_dirname target) = false ->
      Os.plain_path target = true ->
      Os.clear_way d (Str.startswith_sep target) []
        (Os.components (Os.path_dirname target)) = true ->
      Os.node_at d (Os.locate target) <> Some Os.Dir ->
      Os.node_at d (Os.locate (target +:+ ".keg_temp")) <> Some Os.Dir ->
      exists d',
        LocalCDN.save_item self item path d = (Ok tt, d')
        /\ (let* resp := LocalCDN.get_item self path in
            BaseCDN.read_all resp) d'
           = (Ok (pending item), d')).
Proof.
  intros target. split.
  - intros d'. apply save_item_then_get_item.
  - intros Hf Hs Hdir Hplain Hclear Htarget Hstage.
    destruct (save_item_runs self item path d Hf Hs Hdir Hplain Hclear
                Htarget Hstage) as (d' & Es).
    exists d'. split; [exact Es |].
    exact (save_item_then_get_item _ _ _ _ _ Es).
Qed.

Lemma save_item_get_item_roundtrip_witness :
  let item := BytesIO [x6b; x65; x67] in
  let path := "/data/00/00/0000000000000000000000000000001c" in
  Os.path_exists "cache" ∅ = (Ok false, ∅)
  /\ exists d',
       LocalCDN.save_item sample_mirror item path ∅ = (Ok tt, d')
       /\ (let* resp := LocalCDN.get_item sample_mirror path in
           BaseCDN.read_all resp) d'
          = (Ok [x6b; x65; x67], d').
Proof.
  intros item path. split; [reflexivity |].
  apply (proj2 (save_item_get_item_roundtrip sample_mirror item path ∅)).
  - reflexivity.
  - reflexivity.
  - reflexivity.
  - vm_compute. reflexivity.
  - vm_compute. reflexivity.
  - vm_compute. discriminate.
  - vm_compute. discriminate.
Defined.
